(** * farcaster-steam-link: achievement aggregation, token ids, mint-event worker

    A shallow embedding of
      - [src/app/api/steam/get-achievements/route.ts]  (the [GET] handler),
      - [src/lib/redis.ts]                             ([getRedisClient]),
      - the achievements page's [handleMint]           (token-id derivation),
      - the event worker's [pollForEvents] / [processLogs],
      - the other routes (owned games, the OpenID callback, token metadata),
      - the rest of the achievements page (fetching, rendering, the mint
        button) and the [AchievementNFT] contract it calls,
    followed by the properties the design document states about them, and
    by further properties read off the code.

    Conventions.
      - JavaScript integers that the code only compares or copies
        ([achieved], [unlocktime], HTTP status, clock seconds) and [bigint]
        block numbers are [Z].
      - [percent] is declared a number, but it comes out of [JSON.parse]
        unchecked and the handler itself tests [typeof percent === 'number']:
        it is a JSON value ([JsonValue]).  A JSON number with a fractional
        part is modelled by the rational it denotes ([Qc]); the handler only
        compares percents and takes the sign of a difference, and on finite
        doubles both agree with the rationals.
      - Optional JSON fields ([x?: T]) are [option].  Apart from [percent],
        payloads are modelled at their declared TypeScript interfaces.
      - [async] code is modelled sequentially: one request (or one worker
        cycle) runs to completion before the next one starts. *)

From stdpp Require Import gmap strings list fin_maps numbers sorting pretty.
From Stdlib Require Import QArith Qcanon Ascii.

Local Open Scope Z_scope.

(** ** Data model ([src/types/steam.ts]) *)

Record PlayerAchievement := {
  apiname : string;
  pa_achieved : Z;
  pa_unlocktime : Z
}.

Record AchievementSchema := {
  name : string;
  defaultvalue : Z;
  displayName : string;
  hidden : Z;
  description : string;
  icon : string;
  icongray : string
}.

(** A JSON value, as [JSON.parse] may put one where [percent] is declared:
    a number; [null]; a string; or a boolean, array or object, held as its
    JSON text.  [JNull] also stands for an absent field ([undefined]): the
    handler treats the two alike ([??], [typeof]). *)
Inductive JsonValue :=
  | JNumber (q : Qc)
  | JNull
  | JString (s : string)
  | JOther (json : string).

#[global] Instance JsonValue_eq_dec : EqDecision JsonValue.
Proof. solve_decision. Defined.

Record GlobalAchievementPercentage := {
  gp_name : string;
  gp_percent : JsonValue
}.

(** [CombinedAchievement extends AchievementSchema]: the schema fields are
    kept together in [base] (the object spread [...schemaAch]). *)
Record CombinedAchievement := {
  base : AchievementSchema;
  achieved : bool;
  unlocktime : Z;
  percent : JsonValue
}.

(** Raw upstream bodies, as declared at the top of [route.ts]. *)
Record PlayerStats := {
  steamID : option string;
  ps_gameName : option string;
  ps_achievements : option (list PlayerAchievement);
  success : bool;
  message : option string
}.

Record PlayerStatsResponse := { playerstats : option PlayerStats }.

Record AvailableGameStats := { ags_achievements : list AchievementSchema }.

Record Game := {
  gameName : string;
  gameVersion : string;
  availableGameStats : option AvailableGameStats
}.

Record SchemaResponse := { game : option Game }.

Record AchievementPercentages := { ap_achievements : list GlobalAchievementPercentage }.

Record GlobalPercentagesResponse := { achievementpercentages : option AchievementPercentages }.

(** ** The aggregator's pure core ([route.ts], "Combine Data" and "Sort") *)

Module Aggregator.

(** [new Map(entries)]: entries are inserted left to right, so for a repeated
    key the last entry is the one that [get] returns. *)
Definition js_Map {V : Type} (entries : list (string * V)) : gmap string V :=
  foldl (λ m kv, <[kv.1 := kv.2]> m) ∅ entries.

Definition playerAchievementsMap (playerAchievements : list PlayerAchievement)
  : gmap string PlayerAchievement :=
  js_Map ((λ a, (apiname a, a)) <$> playerAchievements).

Definition globalPercentagesMap (globalAchievements : list GlobalAchievementPercentage)
  : gmap string JsonValue :=
  js_Map ((λ a, (gp_name a, gp_percent a)) <$> globalAchievements).

Definition hundred : Qc := Qc_of_Z 100.

(** [v ?? 100]: the value, unless it is [undefined] or [null]. *)
Definition orHundred (v : option JsonValue) : JsonValue :=
  match v with
  | None | Some JNull => JNumber hundred
  | Some other => other
  end.

(** The body of the [schemaAchievements.map] callback. *)
Definition combineOne (pm : gmap string PlayerAchievement) (gm : gmap string JsonValue)
    (schemaAch : AchievementSchema) : CombinedAchievement :=
  let playerAch := pm !! name schemaAch in
  let globalPercent := orHundred (gm !! name schemaAch) in
  {| base := schemaAch;
     achieved := match playerAch with
                 | Some p => bool_decide (pa_achieved p = 1)
                 | None => false
                 end;
     unlocktime := match playerAch with
                   | Some p => pa_unlocktime p
                   | None => 0
                   end;
     percent := globalPercent |}.

Definition combinedAchievements (schemaAchievements : list AchievementSchema)
    (playerAchievements : list PlayerAchievement)
    (globalAchievements : list GlobalAchievementPercentage) : list CombinedAchievement :=
  combineOne (playerAchievementsMap playerAchievements)
             (globalPercentagesMap globalAchievements) <$> schemaAchievements.

(** The entry that [playerAchievementsMap.get(name)] finds: the player's
    state for that internal name (the last one, should the upstream repeat a
    name), and likewise the rarity for a name. *)
Definition entryFor (nm : string) (playerAchievements : list PlayerAchievement)
  : option PlayerAchievement :=
  last (filter (λ p, apiname p = nm) playerAchievements).

Definition rarityFor (nm : string) (globalAchievements : list GlobalAchievementPercentage)
  : option JsonValue :=
  gp_percent <$> last (filter (λ g, gp_name g = nm) globalAchievements).

(** [typeof p === 'number' ? p : 100]. *)
Definition numberOr100 (p : JsonValue) : Qc :=
  match p with
  | JNumber q => q
  | JNull | JString _ | JOther _ => hundred
  end.

(** The comparator handed to [sort]. *)
Definition compareFn (a b : CombinedAchievement) : Qc :=
  if achieved a && negb (achieved b) then Qc_of_Z (-1)
  else if negb (achieved a) && achieved b then Qc_of_Z 1
  else (numberOr100 (percent a) - numberOr100 (percent b))%Qc.

(** [Array.prototype.sort(cmp)].  ECMAScript requires the sort to be stable
    and, for a consistent comparator, to put [a] before [b] whenever
    [cmp a b < 0]; the result is then unique, and stable insertion computes
    it: [x] is placed before the first [y] with [cmp x y <= 0]. *)
Section js_sort.
Context {A : Type} (cmp : A → A → Qc).

Fixpoint js_insert (x : A) (l : list A) : list A :=
  match l with
  | [] => [x]
  | y :: l' =>
      if bool_decide (cmp x y ≤ Qc_of_Z 0)%Qc then x :: y :: l'
      else y :: js_insert x l'
  end.

Definition js_sort (l : list A) : list A := foldr js_insert [] l.

(** [a] may stand before [b]: the comparator does not ask for [b] first. *)
Definition before (a b : A) : Prop := (cmp a b ≤ Qc_of_Z 0)%Qc.

(** [a] and [b] tie: either may stand first. *)
Definition tied (a b : A) : Prop := before a b ∧ before b a.

#[global] Instance tied_dec a b : Decision (tied a b).
Proof. unfold tied, before. apply _. Defined.

End js_sort.

(** The [achievements] array of the 200 response. *)
Definition sortedAchievements (schemaAchievements : list AchievementSchema)
    (playerAchievements : list PlayerAchievement)
    (globalAchievements : list GlobalAchievementPercentage) : list CombinedAchievement :=
  js_sort compareFn
    (combinedAchievements schemaAchievements playerAchievements globalAchievements).

(** What the combined record of one definition holds. *)
Definition joined (pl : list PlayerAchievement) (gl : list GlobalAchievementPercentage)
    (c : CombinedAchievement) : Prop :=
  achieved c = from_option (λ p, bool_decide (pa_achieved p = 1)) false
                 (entryFor (name (base c)) pl) ∧
  unlocktime c = from_option pa_unlocktime 0 (entryFor (name (base c)) pl) ∧
  percent c = orHundred (rarityFor (name (base c)) gl).

(** The rarities listed are numbers, as [GlobalAchievementPercentage]
    declares them (or [null]). *)
Definition numbersOnly (gl : list GlobalAchievementPercentage) : Prop :=
  Forall (λ g, gp_percent g = JNull ∨ ∃ q, gp_percent g = JNumber q) gl.

(** [percent a <= percent b], for percents that are numbers. *)
Definition percentAscending (a b : CombinedAchievement) : Prop :=
  ∃ p q, percent a = JNumber p ∧ percent b = JNumber q ∧ (p ≤ q)%Qc.

End Aggregator.

(** ** The request handler ([route.ts], [GET]) and the cache client ([redis.ts]) *)

Module Handler.
Import Aggregator.

Definition CACHE_TTL_SECONDS : Z := 3600.

(** What the cache holds: [JSON.stringify] of one of the three raw bodies.
    [JSON.parse] gives the body back. *)
Inductive payload :=
  | PlayerPayload (d : PlayerStatsResponse)
  | SchemaPayload (d : SchemaResponse)
  | GlobalPayload (d : GlobalPercentagesResponse).

(** Reading a parsed payload at one of the declared interfaces.  The three
    interfaces have no top-level field in common, so a body of another kind
    reads as an object whose expected field is [undefined]. *)
Definition asPlayer (p : payload) : PlayerStatsResponse :=
  match p with PlayerPayload d => d | _ => {| playerstats := None |} end.

Definition asSchema (p : payload) : SchemaResponse :=
  match p with SchemaPayload d => d | _ => {| game := None |} end.

Definition asGlobal (p : payload) : GlobalPercentagesResponse :=
  match p with GlobalPayload d => d | _ => {| achievementpercentages := None |} end.

(** The three Steam Web API endpoints the handler calls. *)
Inductive upstream :=
  | GetPlayerAchievements (steamId appId : string)
  | GetSchemaForGame (appId : string)
  | GetGlobalAchievementPercentagesForApp (appId : string).

#[global] Instance upstream_eq_dec : EqDecision upstream.
Proof. solve_decision. Defined.

(** The outcome of [await fetch(url)]: the promise rejects (transport
    error), or a response arrives with a status and a body; [rbody = None]
    is a body that is not JSON, on which [.json()] and [JSON.parse] throw. *)
Inductive FetchResult (T : Type) :=
  | NetworkError
  | Responded (rstatus : Z) (rbody : option T).
Arguments NetworkError {T}.
Arguments Responded {T} rstatus rbody.

(** [response.ok]. *)
Definition ok (rstatus : Z) : bool := bool_decide (200 ≤ rstatus ≤ 299).

(** Everything outside the handler that one request observes. *)
Record Env := {
  now : Z;                                   (* clock, in seconds *)
  cookieSteamId : option string;             (* cookieStore.get(COOKIE_NAME)?.value *)
  paramAppId : option string;                (* searchParams.get('appId') *)
  STEAM_API_KEY : option string;             (* process.env.STEAM_API_KEY *)
  isOpen : bool;                             (* redisClient.isOpen, if a client is kept *)
  connectOk : bool;                          (* does client.connect() resolve *)
  getFails : string → bool;                  (* does redis.get(key) (or parsing its value) throw *)
  setFails : string → bool;                  (* does redis.set(key, ..) throw *)
  playerUpstream : FetchResult PlayerStatsResponse;
  schemaUpstream : FetchResult SchemaResponse;
  globalUpstream : FetchResult GlobalPercentagesResponse
}.

(** State that outlives a request: the module-level [redisClient] of
    [redis.ts], the contents of the cache store (value and expiry time), and
    a log of the upstream calls made so far. *)
Record World := {
  redisClient : bool;
  store : gmap string (payload * Z);
  upstreamCalls : list upstream
}.

Inductive ErrorMessage :=
  | Text (s : string)
  | PlayerFetchFailed (rstatus : Z)   (* `Failed to fetch player achievements. Status: ${status}` *)
  | SchemaFetchFailed (rstatus : Z).  (* `Failed to fetch game schema. Status: ${status}` *)

Inductive Body :=
  | Message (m : ErrorMessage)
  | AchievementsBody (gameName steamId : string) (achievements : list CombinedAchievement).

Record Response := { status : Z; body : Body }.

(** *** A small monad for the handler's control flow

    A step reads the environment, threads the world, and either yields a
    value, leaves the handler with a response ([return NextResponse.json]),
    or throws. *)
Inductive Outcome (A : Type) :=
  | Value (a : A)
  | Return (r : Response)
  | Throw.
Arguments Value {A} a.
Arguments Return {A} r.
Arguments Throw {A}.

Definition M (A : Type) : Type := Env → World → Outcome A * World.

#[global] Instance M_ret : MRet M := λ A a _ w, (Value a, w).

#[global] Instance M_bind : MBind M := λ A B f m env w,
  match m env w with
  | (Value a, w') => f a env w'
  | (Return r, w') => (Return r, w')
  | (Throw, w') => (Throw, w')
  end.

Definition throw {A} : M A := λ _ w, (Throw, w).

(** [return NextResponse.json(body, { status })] with a status the code
    fixes (400, 404, 500; 200 by default). *)
Definition respond {A} (st : Z) (b : Body) : M A :=
  λ _ w, (Return {| status := st; body := b |}, w).

(** The statuses [new Response(body, { status })] takes with a body: 200 to
    599, but not a null-body status (204, 205, 304; 101 and 103 lie outside
    the range).  With any other, [NextResponse.json] throws. *)
Definition responseStatusOk (st : Z) : bool :=
  bool_decide (200 ≤ st ≤ 599 ∧ st ≠ 204 ∧ st ≠ 205 ∧ st ≠ 304).

(** [return NextResponse.json(body, { status: upstream.status })]. *)
Definition passOn {A} (st : Z) (b : Body) : M A :=
  if responseStatusOk st then respond st b else throw.

(** [try { m } catch (err) { console.error(..) }] around one cache call. *)
Definition tryCatch {A} (m : M A) : M (option A) := λ env w,
  match m env w with
  | (Value a, w') => (Value (Some a), w')
  | (Return r, w') => (Return r, w')
  | (Throw, w') => (Value None, w')
  end.

(** JavaScript truthiness of [string | undefined]. *)
Definition truthy (s : option string) : option string :=
  match s with
  | Some EmptyString => None
  | other => other
  end.

(** *** [redis.ts] and the cache operations *)

Definition setClient (c : bool) (w : World) : World :=
  {| redisClient := c; store := store w; upstreamCalls := upstreamCalls w |}.

(** [getRedisClient].  With requests run one at a time, [connectPromise] is
    [null] whenever it is entered (both callbacks clear it), so only the
    memoised client matters. *)
Definition getRedisClient : M unit := λ env w,
  if redisClient w && isOpen env then (Value (), w)
  else if connectOk env then (Value (), setClient true w)
  else (Throw, setClient false w).

(** The live entry under a key, if there is one: an expired entry is gone. *)
Definition cached (env : Env) (w : World) (key : string) : option payload :=
  match store w !! key with
  | Some (p, expiry) => if bool_decide (now env < expiry) then Some p else None
  | None => None
  end.

(** [await redis.get(key)]. *)
Definition redisGet (key : string) : M (option payload) := λ env w,
  if getFails env key then (Throw, w) else (Value (cached env w key), w).

Definition putStore (key : string) (p : payload) (expiry : Z) (w : World) : World :=
  {| redisClient := redisClient w;
     store := <[key := (p, expiry)]> (store w);
     upstreamCalls := upstreamCalls w |}.

(** [await redis.set(key, JSON.stringify(data), { EX: CACHE_TTL_SECONDS })]. *)
Definition redisSet (key : string) (p : payload) : M unit := λ env w,
  if setFails env key then (Throw, w)
  else (Value (), putStore key p (now env + CACHE_TTL_SECONDS) w).

Definition logCall (call : upstream) (w : World) : World :=
  {| redisClient := redisClient w; store := store w;
     upstreamCalls := call :: upstreamCalls w |}.

(** [await fetch(url)]: the call is logged; a transport error throws. *)
Definition fetch {T} (call : upstream) (result : Env → FetchResult T)
  : M (Z * option T) := λ env w,
  match result env with
  | NetworkError => (Throw, logCall call w)
  | Responded st b => (Value (st, b), logCall call w)
  end.

(** [await response.json()]. *)
Definition json {T} (b : option T) : M T :=
  match b with
  | Some d => mret d
  | None => throw
  end.

(** The cache lookup that opens each of the three sections:
    [if (redis) { try { cached = await redis.get(key); if (cached) data = JSON.parse(cached) } catch {..} }]. *)
Definition cacheLookup (redis : bool) (key : string) : M (option payload) :=
  if redis then hit ← tryCatch (redisGet key); mret (mjoin hit)
  else mret None.

(** The cache write that closes a section:
    [if (redis && valid) { try { await redis.set(..) } catch {..} }]. *)
Definition cacheStore (redis valid : bool) (key : string) (p : payload) : M unit :=
  if redis && valid then _ ← tryCatch (redisSet key p); mret ()
  else mret ().

(** *** The three sections of the handler *)

Definition playerCacheKey (steamId appId : string) : string :=
  "playerAch:" +:+ steamId +:+ ":" +:+ appId.
Definition schemaCacheKey (appId : string) : string := "schema:" +:+ appId.
Definition globalCacheKey (appId : string) : string := "globalAch:" +:+ appId.

(** [data?.playerstats?.success] as a condition. *)
Definition playerSuccess (d : PlayerStatsResponse) : bool :=
  match playerstats d with
  | Some ps => success ps
  | None => false
  end.

(** [errorJson?.playerstats?.success === false && errorJson?.playerstats?.message]:
    the reason reported in the body of a failed player-achievements call. *)
Definition reportedReason (errorBody : option PlayerStatsResponse) : option string :=
  d ← errorBody;
  ps ← playerstats d;
  if success ps then None else truthy (message ps).

(** [data?.game?.availableGameStats?.achievements] (an array, even an empty
    one, is truthy). *)
Definition schemaList (d : SchemaResponse) : option (list AchievementSchema) :=
  g ← game d; ags ← availableGameStats g; Some (ags_achievements ags).

(** "Fetch Player Achievements (with cache)". *)
Definition resolvePlayer (redis : bool) (steamId appId : string) : M PlayerStatsResponse :=
  cached ← cacheLookup redis (playerCacheKey steamId appId);
  match cached with
  | Some p => mret (asPlayer p)
  | None =>
      '(st, b) ← fetch (GetPlayerAchievements steamId appId) playerUpstream;
      if negb (ok st) then
        match reportedReason b with
        | Some reason => respond 404 (Message (Text reason))
        | None => passOn st (Message (PlayerFetchFailed st))
        end
      else
        d ← json b;
        _ ← cacheStore redis (playerSuccess d) (playerCacheKey steamId appId) (PlayerPayload d);
        mret d
  end.

Definition defaultUnreadable : string :=
  "Could not retrieve achievements (profile private or no stats for this game?).".

(** "Validate Player Achievements Data"; yields [playerAchievements]. *)
Definition validatePlayer (d : PlayerStatsResponse) : M (list PlayerAchievement) :=
  match playerstats d with
  | Some ps =>
      if success ps then mret (default [] (ps_achievements ps))
      else respond 404 (Message (Text (default defaultUnreadable (truthy (message ps)))))
  | None => respond 404 (Message (Text defaultUnreadable))
  end.

(** "Fetch Game Schema (with cache)". *)
Definition resolveSchema (redis : bool) (appId : string) : M SchemaResponse :=
  cached ← cacheLookup redis (schemaCacheKey appId);
  match cached with
  | Some p => mret (asSchema p)
  | None =>
      '(st, b) ← fetch (GetSchemaForGame appId) schemaUpstream;
      if negb (ok st) then passOn st (Message (SchemaFetchFailed st))
      else
        d ← json b;
        _ ← cacheStore redis (bool_decide (is_Some (schemaList d)))
              (schemaCacheKey appId) (SchemaPayload d);
        mret d
  end.

(** "Validate Schema Data"; yields [schemaAchievements] and [gameName]. *)
Definition validateSchema (d : SchemaResponse) : M (list AchievementSchema * string) :=
  match game d with
  | Some g =>
      match availableGameStats g with
      | Some ags => mret (ags_achievements ags, gameName g)
      | None => respond 500 (Message (Text "Failed to parse game schema data."))
      end
  | None => respond 500 (Message (Text "Failed to parse game schema data."))
  end.

(** "Fetch Global Achievement Percentages (with cache)". *)
Definition resolveGlobal (redis : bool) (appId : string) : M GlobalPercentagesResponse :=
  cached ← cacheLookup redis (globalCacheKey appId);
  match cached with
  | Some p => mret (asGlobal p)
  | None =>
      '(st, b) ← fetch (GetGlobalAchievementPercentagesForApp appId) globalUpstream;
      if negb (ok st) then
        mret {| achievementpercentages := Some {| ap_achievements := [] |} |}
      else
        d ← json b;
        _ ← cacheStore redis true (globalCacheKey appId) (GlobalPayload d);
        mret d
  end.

(** [globalPercentagesData?.achievementpercentages?.achievements || []]. *)
Definition globalList (d : GlobalPercentagesResponse) : list GlobalAchievementPercentage :=
  match achievementpercentages d with
  | Some ap => ap_achievements ap
  | None => []
  end.

(** The body of the outer [try]. *)
Definition handle (redis : bool) (steamId appId : string) : M Response :=
  playerAchievementsData ← resolvePlayer redis steamId appId;
  playerAchievements ← validatePlayer playerAchievementsData;
  schemaData ← resolveSchema redis appId;
  '(schemaAchievements, gameName) ← validateSchema schemaData;
  globalPercentagesData ← resolveGlobal redis appId;
  let globalAchievements := globalList globalPercentagesData in
  mret {| status := 200;
          body := AchievementsBody gameName steamId
                    (sortedAchievements schemaAchievements playerAchievements
                       globalAchievements) |}.

Definition internalError : Response :=
  {| status := 500; body := Message (Text "An internal server error occurred.") |}.

(** [try { redis = await getRedisClient() } catch { /* redis stays undefined */ }]. *)
Definition connectRedis (env : Env) (w : World) : bool * World :=
  match getRedisClient env w with
  | (Value _, w') => (true, w')
  | (_, w') => (false, w')
  end.

(** [export async function GET(request)]. *)
Definition GET (env : Env) (w : World) : Response * World :=
  match truthy (cookieSteamId env) with
  | None => ({| status := 400; body := Message (Text "Missing steamId query parameter.") |}, w)
  | Some steamId =>
  match truthy (paramAppId env) with
  | None => ({| status := 400; body := Message (Text "Missing appId query parameter.") |}, w)
  | Some appId =>
  match truthy (STEAM_API_KEY env) with
  | None => ({| status := 500;
                body := Message (Text "Server configuration error: Missing Steam API Key.") |}, w)
  | Some _ =>
      let '(redis, w1) := connectRedis env w in
      match handle redis steamId appId env w1 with
      | (Value r, w2) => (r, w2)
      | (Return r, w2) => (r, w2)
      | (Throw, w2) => (internalError, w2)       (* the outer [catch] *)
      end
  end end end.

End Handler.

(** ** Token-id derivation (the achievements page, [handleMint], step 3)

    [encodePacked], [keccak256] and [hexToBigInt] come from the viem
    library; they are modelled here on viem's [Hex] strings ("0x" followed by
    two lowercase digits per byte), with Keccak-256 written out. *)

Module TokenId.

(** Bytes are integers in [0, 256). *)
Definition is_byte (b : Z) : Prop := 0 ≤ b < 256.

(** *** Keccak-f[1600] on 25 lanes of 64 bits, lane (x, y) at index x + 5y *)

Definition mask64 : Z := 2 ^ 64 - 1.

Definition rotl64 (v : Z) (n : Z) : Z :=
  Z.land (Z.lor (Z.shiftl v n) (Z.shiftr v (64 - n))) mask64.

Definition lane (st : list Z) (x y : Z) : Z :=
  nth (Z.to_nat (x mod 5 + 5 * (y mod 5))) st 0.

Definition coords : list (Z * Z) :=
  y ← [0; 1; 2; 3; 4]; x ← [0; 1; 2; 3; 4]; [(x, y)].

Definition rotationOffsets : list Z :=
  [ 0;  1; 62; 28; 27;
   36; 44;  6; 55; 20;
    3; 10; 43; 25; 39;
   41; 45; 15; 21;  8;
   18;  2; 61; 56; 14].

Definition roundConstants : list Z :=
  [0x0000000000000001; 0x0000000000008082; 0x800000000000808A; 0x8000000080008000;
   0x000000000000808B; 0x0000000080000001; 0x8000000080008081; 0x8000000000008009;
   0x000000000000008A; 0x0000000000000088; 0x0000000080008009; 0x000000008000000A;
   0x000000008000808B; 0x800000000000008B; 0x8000000000008089; 0x8000000000008003;
   0x8000000000008002; 0x8000000000000080; 0x000000000000800A; 0x800000008000000A;
   0x8000000080008081; 0x8000000000008080; 0x0000000080000001; 0x8000000080008008].

Definition theta (st : list Z) : list Z :=
  let c x := Z.lxor (lane st x 0) (Z.lxor (lane st x 1) (Z.lxor (lane st x 2)
               (Z.lxor (lane st x 3) (lane st x 4)))) in
  let d x := Z.lxor (c (x + 4)) (rotl64 (c (x + 1)) 1) in
  (λ '(x, y), Z.lxor (lane st x y) (d x)) <$> coords.

(** rho and pi together: the lane written at (x, y) is read at
    (x + 3y, x) and rotated by that lane's offset. *)
Definition rhoPi (st : list Z) : list Z :=
  (λ '(x, y),
     let sx := (x + 3 * y) mod 5 in
     let sy := x in
     rotl64 (lane st sx sy) (nth (Z.to_nat (sx + 5 * sy)) rotationOffsets 0)) <$> coords.

Definition chi (st : list Z) : list Z :=
  (λ '(x, y),
     Z.lxor (lane st x y)
       (Z.land (Z.lxor (lane st (x + 1) y) mask64) (lane st (x + 2) y))) <$> coords.

Definition iota (rc : Z) (st : list Z) : list Z :=
  match st with
  | a :: rest => Z.lxor a rc :: rest
  | [] => []
  end.

Definition keccakRound (st : list Z) (rc : Z) : list Z :=
  iota rc (chi (rhoPi (theta st))).

Definition keccakF (st : list Z) : list Z := foldl keccakRound st roundConstants.

(** *** The sponge: rate 136 bytes, padding 0x01 .. 0x80, 32 bytes out *)

Definition rate : nat := 136.

Definition pad (msg : list Z) : list Z :=
  let zeros := (rate - 1 - (length msg `mod` rate))%nat in
  match zeros with
  | O => msg ++ [0x81]
  | S k => msg ++ [0x01] ++ replicate k 0 ++ [0x80]
  end.

(** Little-endian lane of (up to) eight bytes. *)
Definition laneOfBytes (bs : list Z) : Z :=
  foldr (λ b acc, b + 256 * acc) 0 bs.

Fixpoint chunks {A} (n : nat) (fuel : nat) (l : list A) : list (list A) :=
  match fuel with
  | O => []
  | S fuel' =>
      match l with
      | [] => []
      | _ => take n l :: chunks n fuel' (drop n l)
      end
  end.

Definition absorbBlock (st : list Z) (block : list Z) : list Z :=
  let lanes := laneOfBytes <$> chunks 8 17 block in
  keccakF (zip_with Z.lxor st (lanes ++ replicate 8 0)).

Definition bytesOfLane (v : Z) : list Z :=
  (λ i, Z.shiftr v (8 * i) `mod` 256) <$> [0; 1; 2; 3; 4; 5; 6; 7].

Definition keccak_256 (msg : list Z) : list Z :=
  let padded := pad msg in
  let st := foldl absorbBlock (replicate 25 0) (chunks rate (length padded) padded) in
  take 32 (st ≫= bytesOfLane).

(** *** viem's [Hex] strings *)

Definition hexDigit (d : Z) : ascii :=
  nth (Z.to_nat d)
    ["0"; "1"; "2"; "3"; "4"; "5"; "6"; "7"; "8"; "9"; "a"; "b"; "c"; "d"; "e"; "f"]%char
    "0"%char.

Definition digitValue (c : ascii) : option Z :=
  let n := Z.of_N (Ascii.N_of_ascii c) in
  if bool_decide (48 ≤ n ≤ 57) then Some (n - 48)
  else if bool_decide (97 ≤ n ≤ 102) then Some (n - 87)
  else if bool_decide (65 ≤ n ≤ 70) then Some (n - 55)
  else None.

(** The digits of a byte string, without the "0x". *)
Fixpoint hexDigits (bs : list Z) : string :=
  match bs with
  | [] => EmptyString
  | b :: bs' => String (hexDigit (b / 16)) (String (hexDigit (b `mod` 16)) (hexDigits bs'))
  end.

Definition bytesToHex (bs : list Z) : string := "0x" +:+ hexDigits bs.

(** Drops a leading "0x" if there is one. *)
Definition strip0x (h : string) : string :=
  match h with
  | String "0" (String "x" rest) => rest
  | _ => h
  end.

Fixpoint digitsToBytes (s : string) : option (list Z) :=
  match s with
  | EmptyString => Some []
  | String hi (String lo rest) =>
      h ← digitValue hi; l ← digitValue lo; bs ← digitsToBytes rest;
      Some (16 * h + l :: bs)
  | String _ EmptyString => None
  end.

(** [hexToBytes]: an odd number of digits gets a leading "0"; a character
    that is not a hex digit throws ([None]). *)
Definition hexToBytes (h : string) : option (list Z) :=
  let hexString := strip0x h in
  digitsToBytes
    (if Nat.odd (String.length hexString) then String "0" hexString else hexString).

(** [numberToHex(value, { size })] for an unsigned value: throws when the
    value does not fit [size] bytes, or is negative; otherwise
    [value.toString(16)] left-padded with zeros to [2 * size] digits.  (The
    value is an integer here; on a fractional number [BigInt(value)] throws
    as well.) *)
Definition numberToHex (value : Z) (size : nat) : option string :=
  if bool_decide (0 ≤ value ≤ 2 ^ (8 * Z.of_nat size) - 1) then
    Some ("0x" +:+
      String.string_of_list_ascii
        ((λ i, hexDigit ((value / 16 ^ Z.of_nat i) `mod` 16)) <$> reverse (seq 0 (2 * size))))
  else None.

(** [stringToBytes]: the UTF-8 bytes of the string, as [TextEncoder]
    gives them.  A name is represented by a Rocq [string] holding those
    bytes; [TextEncoder] encodes a lone surrogate as EF BF BD, so two
    JavaScript strings that differ only in lone surrogates have the same
    bytes, and the same representation here. *)
Definition stringToBytes (s : string) : list Z :=
  (λ c, Z.of_N (Ascii.N_of_ascii c)) <$> String.list_ascii_of_string s.

Definition stringToHex (s : string) : string := bytesToHex (stringToBytes s).

(** [encodePacked(['uint32', 'string'], [appId, achievementApiName])]:
    the encodings of the two values, concatenated ([concatHex]). *)
Definition encodePacked (appId : Z) (achievementApiName : string) : option string :=
  a ← numberToHex appId 4;
  Some ("0x" +:+ strip0x a +:+ strip0x (stringToHex achievementApiName)).

(** [keccak256(hex)]: hash of the bytes the hex string denotes, as hex. *)
Definition keccak256 (h : string) : option string :=
  bs ← hexToBytes h; Some (bytesToHex (keccak_256 bs)).

(** [hexToBigInt(hex)], that is [BigInt(hex)]: throws on "0x" alone and on
    a character that is not a hex digit. *)
Definition hexToBigInt (h : string) : option Z :=
  match strip0x h with
  | EmptyString => None
  | digits =>
      foldl (λ acc c, a ← acc; d ← digitValue c; Some (16 * a + d)) (Some 0)
        (String.list_ascii_of_string digits)
  end.

(** Step 3 of [handleMint]: the [try] block; [None] is the [catch] branch
    ("Failed to generate token ID."). *)
Definition generateTokenId (appId : Z) (achievementApiName : string) : option Z :=
  packedData ← encodePacked appId achievementApiName;
  hash ← keccak256 packedData;
  hexToBigInt hash.

(** The derivation as the design document words it: the Keccak-256 digest
    of (appId as four big-endian bytes, then the name's UTF-8 bytes), read as
    a big-endian unsigned integer. *)
Definition bigEndian (bs : list Z) : Z := foldl (λ acc b, 256 * acc + b) 0 bs.

Definition uint32BigEndian (v : Z) : list Z :=
  [(v / 2 ^ 24) `mod` 256; (v / 2 ^ 16) `mod` 256; (v / 2 ^ 8) `mod` 256; v `mod` 256].

Definition tokenIdSpec (appId : Z) (achievementApiName : string) : Z :=
  bigEndian (keccak_256 (uint32BigEndian appId ++ stringToBytes achievementApiName)).

End TokenId.

(** ** The event reconciliation worker ([pollForEvents], [processLogs]) *)

Module Worker.

Definition BLOCKS_PER_POLL : Z := 500.

(** A raw log as [getLogs] returns it (the fields the worker reads). *)
Record Log := {
  topics : list Z;
  data : list Z;
  blockNumber : Z;
  transactionHash : Z;
  logIndex : Z
}.

(** The result of [decodeEventLog]. *)
Record DecodedLog := {
  eventName : string;
  owner : Z;
  tokenId : Z;
  appId : Z;
  achievementApiName : string
}.

(** What the worker prints for a decoded mint event. *)
Record MintEvent := {
  me_owner : Z;
  me_tokenId : Z;
  me_appId : Z;
  me_achievementApiName : string;
  me_blockNumber : Z;
  me_transactionHash : Z
}.

(** The chain, as one polling cycle sees it.  [None] is a call that throws. *)
Record Chain := {
  getBlockNumber : option Z;
  getLogs : Z → Z → option (list Log);        (* fromBlock, toBlock *)
  decodeEventLog : Log → option DecodedLog
}.

(** The loop body of [processLogs]: a log with fewer than three topics is
    passed over, a decoding error is caught and logged, and a decoded
    [AchievementMinted] event is printed. *)
Definition processLog (chain : Chain) (log : Log) : list MintEvent :=
  if bool_decide (3 ≤ length (topics log))%nat then
    match decodeEventLog chain log with
    | Some d =>
        if bool_decide (eventName d = "AchievementMinted") then
          [{| me_owner := owner d; me_tokenId := tokenId d; me_appId := appId d;
              me_achievementApiName := achievementApiName d;
              me_blockNumber := blockNumber log;
              me_transactionHash := transactionHash log |}]
        else []
    | None => []
    end
  else [].

Definition processLogs (chain : Chain) (logs : list Log) : list MintEvent :=
  logs ≫= processLog chain.

(** What one cycle leaves behind: the new [lastProcessedBlock], the range of
    the [getLogs] call if one was issued, and the events printed. *)
Record Cycle := {
  watermark : option Z;
  query : option (Z * Z);
  printed : list MintEvent
}.

(** [pollForEvents], one cycle.  The [finally] block reschedules the next
    cycle in every case. *)
Definition pollForEvents (chain : Chain) (lastProcessedBlock : option Z) : Cycle :=
  match getBlockNumber chain with
  | None => {| watermark := lastProcessedBlock; query := None; printed := [] |}
  | Some latestBlock =>
      (* [if (lastProcessedBlock === null) lastProcessedBlock = ..] *)
      let lastProcessedBlock' :=
        match lastProcessedBlock with
        | None => if bool_decide (latestBlock > 100) then latestBlock - 100 else 0
        | Some b => b
        end in
      let toBlock :=
        if bool_decide (lastProcessedBlock' + BLOCKS_PER_POLL > latestBlock)
        then latestBlock
        else lastProcessedBlock' + BLOCKS_PER_POLL in
      if bool_decide (lastProcessedBlock' >= latestBlock) then
        {| watermark := Some lastProcessedBlock'; query := None; printed := [] |}
      else
        match getLogs chain (lastProcessedBlock' + 1) toBlock with
        | None =>
            {| watermark := Some lastProcessedBlock';
               query := Some (lastProcessedBlock' + 1, toBlock); printed := [] |}
        | Some logs =>
            {| watermark := Some toBlock;
               query := Some (lastProcessedBlock' + 1, toBlock);
               printed := processLogs chain logs |}
        end
  end.

(** Successive cycles, each started after the previous one has finished. *)
Definition run (chains : list Chain) (lastProcessedBlock : option Z) : option Z :=
  foldl (λ lpb chain, watermark (pollForEvents chain lpb)) lastProcessedBlock chains.

End Worker.

(** ** Vocabulary for the properties of the handler *)

Module HandlerSpec.
Import Aggregator Handler.

(** The three datasets a request resolves before it combines them: the
    first five steps of [handle]. *)
Definition datasets (redis : bool) (steamId appId : string)
  : M (list PlayerAchievement * list AchievementSchema * string *
       list GlobalAchievementPercentage) :=
  playerAchievementsData ← resolvePlayer redis steamId appId;
  playerAchievements ← validatePlayer playerAchievementsData;
  schemaData ← resolveSchema redis appId;
  '(schemaAchievements, gameName) ← validateSchema schemaData;
  globalPercentagesData ← resolveGlobal redis appId;
  mret (playerAchievements, schemaAchievements, gameName, globalList globalPercentagesData).

(** The datasets of a request that gets as far as combining them. *)
Definition requestData (env : Env) (w : World)
  : option (list PlayerAchievement * list AchievementSchema * string *
            list GlobalAchievementPercentage) :=
  steamId ← truthy (cookieSteamId env);
  appId ← truthy (paramAppId env);
  _ ← truthy (STEAM_API_KEY env);
  let '(redis, w1) := connectRedis env w in
  match datasets redis steamId appId env w1 with
  | (Value d, _) => Some d
  | _ => None
  end.

(** Whether [GET] ends up with a client: [redis] after the first [try]. *)
Definition redisUp (env : Env) (w : World) : bool :=
  (redisClient w && isOpen env) || connectOk env.

(** What a section's cache lookup yields. *)
Definition cacheRead (redis : bool) (env : Env) (w : World) (key : string)
  : option payload :=
  if redis && negb (getFails env key) then cached env w key else None.

(** The world after a section's cache write. *)
Definition afterStore (redis valid : bool) (env : Env) (key : string) (p : payload)
    (w : World) : World :=
  if redis && valid && negb (setFails env key)
  then putStore key p (now env + CACHE_TTL_SECONDS) w
  else w.

(** The body a section works with: the cached payload if the lookup finds
    one, otherwise the body of an upstream answer with an OK status. *)
Definition bodyFor {T} (hit : option payload) (unwrap : payload → T)
    (up : FetchResult T) : option T :=
  match hit with
  | Some p => Some (unwrap p)
  | None =>
      match up with
      | Responded st (Some d) => if ok st then Some d else None
      | _ => None
      end
  end.

Definition playerBody (env : Env) (w : World) (steamId appId : string)
  : option PlayerStatsResponse :=
  bodyFor (cacheRead (redisUp env w) env w (playerCacheKey steamId appId)) asPlayer
    (playerUpstream env).

Definition schemaBody (env : Env) (w : World) (appId : string) : option SchemaResponse :=
  bodyFor (cacheRead (redisUp env w) env w (schemaCacheKey appId)) asSchema
    (schemaUpstream env).

(** The response an outcome of the outer [try] stands for. *)
Definition answer (o : Outcome Response) : Response :=
  match o with
  | Value r | Return r => r
  | Throw => internalError
  end.

(** The world after the connection attempt. *)
Definition connected (env : Env) (w : World) : World := (connectRedis env w).2.

(** The shape the three sections share: look the key up; on a miss fetch,
    leave through [notOk] when the status is not OK, otherwise parse the
    body, write it to the cache if it is [valid], and yield it. *)
Definition readThrough {T} (redis : bool) (key : string) (call : upstream)
    (up : Env → FetchResult T) (unwrap : payload → T) (wrap : T → payload)
    (valid : T → bool) (notOk : Z → option T → M T) : M T :=
  cached ← cacheLookup redis key;
  match cached with
  | Some p => mret (unwrap p)
  | None =>
      '(st, b) ← fetch call up;
      if negb (ok st) then notOk st b
      else d ← json b; _ ← cacheStore redis (valid d) key (wrap d); mret d
  end.

(** What each section does with an answer whose status is not OK. *)
Definition playerNotOk (st : Z) (b : option PlayerStatsResponse) : M PlayerStatsResponse :=
  match reportedReason b with
  | Some reason => respond 404 (Message (Text reason))
  | None => passOn st (Message (PlayerFetchFailed st))
  end.

Definition schemaNotOk (st : Z) (b : option SchemaResponse) : M SchemaResponse :=
  passOn st (Message (SchemaFetchFailed st)).

Definition globalNotOk (st : Z) (b : option GlobalPercentagesResponse)
  : M GlobalPercentagesResponse :=
  mret {| achievementpercentages := Some {| ap_achievements := [] |} |}.

(** Two requests carry the same inputs and meet the same upstream answers;
    their clocks and cache behaviour may differ. *)
Definition sameRequest (e e' : Env) : Prop :=
  cookieSteamId e = cookieSteamId e' ∧
  paramAppId e = paramAppId e' ∧
  STEAM_API_KEY e = STEAM_API_KEY e' ∧
  playerUpstream e = playerUpstream e' ∧
  schemaUpstream e = schemaUpstream e' ∧
  globalUpstream e = globalUpstream e'.

(** Since the logs stood at [B] and [B'], both runs have made the same
    upstream calls. *)
Definition sameNewCalls (B B' : list upstream) (w w' : World) : Prop :=
  ∃ calls, upstreamCalls w = calls ++ B ∧ upstreamCalls w' = calls ++ B'.

(** Two computations that, from worlds related by [P], yield the same
    outcome and worlds related by [Q]. *)
Definition simM {A} (P Q : World → World → Prop) (m m' : M A) (env env' : Env) : Prop :=
  ∀ w w', P w w' →
    (m env w).1 = (m' env' w').1 ∧ Q (m env w).2 (m' env' w').2.

(** Both runs miss on each of the keys [ks]. *)
Definition bothMiss (redis redis' : bool) (env env' : Env) (ks : list string)
    (w w' : World) : Prop :=
  ∀ k, k ∈ ks → cacheRead redis env w k = None ∧ cacheRead redis' env' w' k = None.

(** The cache is down: the connection attempt fails, or every [get] and
    every [set] fails. *)
Definition cacheDown (env : Env) (w : World) : Prop :=
  redisUp env w = false ∨ ∀ k, getFails env k = true ∧ setFails env k = true.

(** The cache works and holds nothing live. *)
Definition allMiss (env : Env) (w : World) : Prop :=
  redisUp env w = true ∧
  (∀ k, getFails env k = false ∧ setFails env k = false) ∧
  ∀ k, cached env w k = None.

(** The three cached datasets, their keys and their upstream calls. *)
Inductive dataset := PlayerData | SchemaData | GlobalData.

Definition keyOf (steamId appId : string) (k : dataset) : string :=
  match k with
  | PlayerData => playerCacheKey steamId appId
  | SchemaData => schemaCacheKey appId
  | GlobalData => globalCacheKey appId
  end.

Definition callOf (steamId appId : string) (k : dataset) : upstream :=
  match k with
  | PlayerData => GetPlayerAchievements steamId appId
  | SchemaData => GetSchemaForGame appId
  | GlobalData => GetGlobalAchievementPercentagesForApp appId
  end.




(** The rarity call is answered, but not with a list: the status is not OK,
    or the body has no [achievementpercentages]. *)
Definition rarityUnavailable (up : FetchResult GlobalPercentagesResponse) : Prop :=
  match up with
  | NetworkError => False
  | Responded st b =>
      ok st = false ∨ (ok st = true ∧ ∃ d, b = Some d ∧ achievementpercentages d = None)
  end.

End HandlerSpec.

(** ** Vocabulary for the properties of the worker *)

Module WorkerSpec.
Import Worker.

(** The watermark a cycle works from: the one it was handed, or on a cold
    start the seed computed from the chain head. *)
Definition seedOr (lastProcessedBlock : option Z) (head : Z) : Z :=
  match lastProcessedBlock with
  | Some b => b
  | None => if bool_decide (head > 100) then head - 100 else 0
  end.

(** [b] is not below [a]; no watermark yet is below every watermark. *)
Definition notBelow (a b : option Z) : Prop :=
  match a, b with
  | None, _ => True
  | Some x, Some y => x ≤ y
  | Some _, None => False
  end.

End WorkerSpec.

(** ** Scenarios *)

Module Scenarios.
Import Aggregator Handler Worker.

(** The scenario of the design document: appId 440, two achievements, the
    player has unlocked the first, rarities 80 and 40; an empty, reachable
    cache. *)
Definition definition440 (nm : string) : AchievementSchema :=
  {| name := nm; defaultvalue := 0; displayName := nm; hidden := 0;
     description := ""; icon := ""; icongray := "" |}.

Definition players440 : list PlayerAchievement :=
  [{| apiname := "TF_PLAY_GAME"; pa_achieved := 1; pa_unlocktime := 1700000000 |}].

Definition schema440 : list AchievementSchema :=
  [definition440 "TF_PLAY_GAME"; definition440 "TF_GET_KILL"].

Definition rarity440 : list GlobalAchievementPercentage :=
  [{| gp_name := "TF_PLAY_GAME"; gp_percent := JNumber (Qc_of_Z 80) |};
   {| gp_name := "TF_GET_KILL"; gp_percent := JNumber (Qc_of_Z 40) |}].

Definition playerBody440 : PlayerStatsResponse :=
  {| playerstats := Some {| steamID := Some "76561198000000000";
                            ps_gameName := Some "Team Fortress 2";
                            ps_achievements := Some players440;
                            success := true; message := None |} |}.

Definition schemaBody440 : SchemaResponse :=
  {| game := Some {| gameName := "Team Fortress 2"; gameVersion := "1";
                     availableGameStats := Some {| ags_achievements := schema440 |} |} |}.

Definition globalBody440 : GlobalPercentagesResponse :=
  {| achievementpercentages := Some {| ap_achievements := rarity440 |} |}.

Definition env440 : Env :=
  {| now := 1000;
     cookieSteamId := Some "76561198000000000";
     paramAppId := Some "440";
     STEAM_API_KEY := Some "key";
     isOpen := false; connectOk := true;
     getFails := λ _, false; setFails := λ _, false;
     playerUpstream := Responded 200 (Some playerBody440);
     schemaUpstream := Responded 200 (Some schemaBody440);
     globalUpstream := Responded 200 (Some globalBody440) |}.

Definition freshWorld : World :=
  {| redisClient := false; store := ∅; upstreamCalls := [] |}.

(** Scenario 440 for a player without unlocked achievements, with Steam
    listing the rarities as strings; and with one string and one number. *)
Definition lockedBody440 : PlayerStatsResponse :=
  {| playerstats := Some {| steamID := Some "76561198000000000";
                            ps_gameName := Some "Team Fortress 2";
                            ps_achievements := Some [];
                            success := true; message := None |} |}.

Definition env440Strings : Env :=
  {| now := 1000;
     cookieSteamId := Some "76561198000000000";
     paramAppId := Some "440";
     STEAM_API_KEY := Some "key";
     isOpen := false; connectOk := true;
     getFails := λ _, false; setFails := λ _, false;
     playerUpstream := Responded 200 (Some lockedBody440);
     schemaUpstream := Responded 200 (Some schemaBody440);
     globalUpstream :=
       Responded 200
         (Some {| achievementpercentages :=
                    Some {| ap_achievements :=
                              [{| gp_name := "TF_PLAY_GAME"; gp_percent := JString "80" |};
                               {| gp_name := "TF_GET_KILL"; gp_percent := JString "40" |}]
                         |} |}) |}.

Definition env440Mixed : Env :=
  {| now := 1000;
     cookieSteamId := Some "76561198000000000";
     paramAppId := Some "440";
     STEAM_API_KEY := Some "key";
     isOpen := false; connectOk := true;
     getFails := λ _, false; setFails := λ _, false;
     playerUpstream := Responded 200 (Some lockedBody440);
     schemaUpstream := Responded 200 (Some schemaBody440);
     globalUpstream :=
       Responded 200
         (Some {| achievementpercentages :=
                    Some {| ap_achievements :=
                              [{| gp_name := "TF_PLAY_GAME"; gp_percent := JString "10" |};
                               {| gp_name := "TF_GET_KILL";
                                  gp_percent := JNumber (Qc_of_Z 50) |}] |} |}) |}.

(** A game with five achievements: the player has unlocked the first and
    the last, both of rarity 30; of the locked ones, two have rarities 80
    and 40 and one has none listed. *)
Definition schema570 : list AchievementSchema :=
  [definition440 "FIRST_WIN"; definition440 "FIRST_BLOOD"; definition440 "RAMPAGE";
   definition440 "ALL_HEROES"; definition440 "TEN_WINS"].

Definition players570 : list PlayerAchievement :=
  [{| apiname := "FIRST_WIN"; pa_achieved := 1; pa_unlocktime := 1700000000 |};
   {| apiname := "FIRST_BLOOD"; pa_achieved := 0; pa_unlocktime := 0 |};
   {| apiname := "TEN_WINS"; pa_achieved := 1; pa_unlocktime := 1700000500 |}].

Definition rarity570 : list GlobalAchievementPercentage :=
  [{| gp_name := "FIRST_WIN"; gp_percent := JNumber (Qc_of_Z 30) |};
   {| gp_name := "FIRST_BLOOD"; gp_percent := JNumber (Qc_of_Z 80) |};
   {| gp_name := "RAMPAGE"; gp_percent := JNumber (Qc_of_Z 40) |};
   {| gp_name := "TEN_WINS"; gp_percent := JNumber (Qc_of_Z 30) |}].

Definition env570 : Env :=
  {| now := 1000;
     cookieSteamId := Some "76561198000000000";
     paramAppId := Some "570";
     STEAM_API_KEY := Some "key";
     isOpen := false; connectOk := true;
     getFails := λ _, false; setFails := λ _, false;
     playerUpstream :=
       Responded 200
         (Some {| playerstats := Some {| steamID := Some "76561198000000000";
                                         ps_gameName := Some "Dota 2";
                                         ps_achievements := Some players570;
                                         success := true; message := None |} |});
     schemaUpstream :=
       Responded 200
         (Some {| game := Some {| gameName := "Dota 2"; gameVersion := "1";
                                  availableGameStats :=
                                    Some {| ags_achievements := schema570 |} |} |});
     globalUpstream :=
       Responded 200
         (Some {| achievementpercentages :=
                    Some {| ap_achievements := rarity570 |} |}) |}.

(** A private profile: Steam answers 403 with a reason in the body. *)
Definition privateProfile : PlayerStatsResponse :=
  {| playerstats := Some {| steamID := None; ps_gameName := None;
                            ps_achievements := None; success := false;
                            message := Some "Profile is not public" |} |}.

Definition envPrivate : Env :=
  {| now := 1000;
     cookieSteamId := Some "76561198000000000";
     paramAppId := Some "440";
     STEAM_API_KEY := Some "key";
     isOpen := false; connectOk := true;
     getFails := λ _, false; setFails := λ _, false;
     playerUpstream := Responded 403 (Some privateProfile);
     schemaUpstream := Responded 200 (Some schemaBody440);
     globalUpstream := Responded 200 (Some globalBody440) |}.

(** A game without achievements: the schema has no [availableGameStats]. *)
Definition envNoStats : Env :=
  {| now := 1000;
     cookieSteamId := Some "76561198000000000";
     paramAppId := Some "440";
     STEAM_API_KEY := Some "key";
     isOpen := false; connectOk := true;
     getFails := λ _, false; setFails := λ _, false;
     playerUpstream := Responded 200 (Some playerBody440);
     schemaUpstream :=
       Responded 200 (Some {| game := Some {| gameName := "Team Fortress 2";
                                              gameVersion := "1";
                                              availableGameStats := None |} |});
     globalUpstream := Responded 200 (Some globalBody440) |}.

(** The same request with the cache unreachable. *)
Definition env440Down : Env :=
  {| now := 1000;
     cookieSteamId := Some "76561198000000000";
     paramAppId := Some "440";
     STEAM_API_KEY := Some "key";
     isOpen := false; connectOk := false;
     getFails := λ _, true; setFails := λ _, true;
     playerUpstream := Responded 200 (Some playerBody440);
     schemaUpstream := Responded 200 (Some schemaBody440);
     globalUpstream := Responded 200 (Some globalBody440) |}.


(** Scenario 440 with the rarity call failing in transport, and with the
    rarity call answered by a body that is not JSON. *)
Definition env440RarityUnreachable : Env :=
  {| now := 1000;
     cookieSteamId := Some "76561198000000000";
     paramAppId := Some "440";
     STEAM_API_KEY := Some "key";
     isOpen := false; connectOk := true;
     getFails := λ _, false; setFails := λ _, false;
     playerUpstream := Responded 200 (Some playerBody440);
     schemaUpstream := Responded 200 (Some schemaBody440);
     globalUpstream := NetworkError |}.

Definition env440RarityGarbled : Env :=
  {| now := 1000;
     cookieSteamId := Some "76561198000000000";
     paramAppId := Some "440";
     STEAM_API_KEY := Some "key";
     isOpen := false; connectOk := true;
     getFails := λ _, false; setFails := λ _, false;
     playerUpstream := Responded 200 (Some playerBody440);
     schemaUpstream := Responded 200 (Some schemaBody440);
     globalUpstream := Responded 200 None |}.

(** Scenario 440 with the rarity call answered 503. *)
Definition env440RarityBusy : Env :=
  {| now := 1000;
     cookieSteamId := Some "76561198000000000";
     paramAppId := Some "440";
     STEAM_API_KEY := Some "key";
     isOpen := false; connectOk := true;
     getFails := λ _, false; setFails := λ _, false;
     playerUpstream := Responded 200 (Some playerBody440);
     schemaUpstream := Responded 200 (Some schemaBody440);
     globalUpstream := Responded 503 None |}.

(** A chain at height 1000 whose log query throws. *)
Definition chainLogsDown : Chain :=
  {| getBlockNumber := Some 1000; getLogs := λ _ _, None; decodeEventLog := λ _, None |}.

(** A log with three topics that does not decode, on a chain at height 1000. *)
Definition undecodable : Log :=
  {| topics := [1; 2; 3]; data := []; blockNumber := 950; transactionHash := 7; logIndex := 0 |}.

Definition chainBadLog : Chain :=
  {| getBlockNumber := Some 1000; getLogs := λ _ _, Some [undecodable];
     decodeEventLog := λ _, None |}.

(** A young chain, at height 50; and the same with its log query throwing. *)
Definition chainAt50 : Chain :=
  {| getBlockNumber := Some 50; getLogs := λ _ _, Some []; decodeEventLog := λ _, None |}.

Definition chainAt50LogsDown : Chain :=
  {| getBlockNumber := Some 50; getLogs := λ _ _, None; decodeEventLog := λ _, None |}.

End Scenarios.

(** ** Vocabulary for runs of the worker *)

Module WorkerTrace.
Import Worker.

(** The cycles of a run, in order: each starts from the watermark the one
    before it left. *)
Fixpoint cycles (chains : list Chain) (lastProcessedBlock : option Z) : list Cycle :=
  match chains with
  | [] => []
  | chain :: rest =>
      let c := pollForEvents chain lastProcessedBlock in
      c :: cycles rest (watermark c)
  end.

(** The ranges of the [getLogs] calls a run issues. *)
Definition queried (chains : list Chain) (lastProcessedBlock : option Z) : list (Z * Z) :=
  omap query (cycles chains lastProcessedBlock).

(** The ranges of the [getLogs] calls of a run that were answered. *)
Fixpoint fetched (chains : list Chain) (lastProcessedBlock : option Z) : list (Z * Z) :=
  match chains with
  | [] => []
  | chain :: rest =>
      let c := pollForEvents chain lastProcessedBlock in
      match query c with
      | Some (fromBlock, toBlock) =>
          match getLogs chain fromBlock toBlock with
          | Some _ => [(fromBlock, toBlock)]
          | None => []
          end
      | None => []
      end ++ fetched rest (watermark c)
  end.

(** The ranges [ws] cover the blocks above [a] up to [b], each block once:
    every range is non-empty and starts right after the one before it. *)
Fixpoint tiles (a : Z) (ws : list (Z * Z)) (b : Z) : Prop :=
  match ws with
  | [] => a = b
  | (fromBlock, toBlock) :: rest =>
      fromBlock = a + 1 ∧ fromBlock ≤ toBlock ∧ tiles toBlock rest b
  end.

(** The event the worker prints for a log it could decode. *)
Definition mintEvent (log : Log) (d : DecodedLog) : MintEvent :=
  {| me_owner := owner d; me_tokenId := tokenId d; me_appId := appId d;
     me_achievementApiName := achievementApiName d;
     me_blockNumber := blockNumber log;
     me_transactionHash := transactionHash log |}.

End WorkerTrace.

Module ChainScenarios.
Import Worker.

(** A chain at height 1200 with no mint events. *)
Definition chainAt1200 : Chain :=
  {| getBlockNumber := Some 1200; getLogs := λ _ _, Some []; decodeEventLog := λ _, None |}.

(** A chain at height 1000 whose log query returns one mint event. *)
Definition mintLog : Log :=
  {| topics := [1; 2; 3]; data := []; blockNumber := 950; transactionHash := 9;
     logIndex := 0 |}.

Definition mintDecoded : DecodedLog :=
  {| eventName := "AchievementMinted"; owner := 5; tokenId := 77; appId := 440;
     achievementApiName := "TF_PLAY_GAME" |}.

Definition chainMint : Chain :=
  {| getBlockNumber := Some 1000; getLogs := λ _ _, Some [mintLog];
     decodeEventLog := λ _, Some mintDecoded |}.

End ChainScenarios.

(** ** Vocabulary for what a request does to the world *)

Module HandlerSteps.
Import Aggregator Handler HandlerSpec.

(** The payloads a section writes under its key: only those that passed
    the check in front of its [redis.set]. *)
Definition validFor (K : dataset) (p : payload) : Prop :=
  match K, p with
  | PlayerData, PlayerPayload d => playerSuccess d = true
  | SchemaData, SchemaPayload d => is_Some (schemaList d)
  | GlobalData, GlobalPayload _ => True
  | _, _ => False
  end.

(** What the section for dataset [K] may do to the world: nothing; or log
    its call after a lookup that found nothing; or, having logged its call,
    also write a valid payload under its key with the TTL. *)
Definition sectionStep (redis : bool) (env : Env) (steamId appId : string) (K : dataset)
    (w w' : World) : Prop :=
  redisClient w' = redisClient w ∧
  ((upstreamCalls w' = upstreamCalls w ∧ store w' = store w) ∨
   (upstreamCalls w' = callOf steamId appId K :: upstreamCalls w ∧
    cacheRead redis env w (keyOf steamId appId K) = None ∧
    (store w' = store w ∨
     ∃ p, redis = true ∧ validFor K p ∧
          store w' = <[keyOf steamId appId K := (p, now env + CACHE_TTL_SECONDS)]> (store w)))).

(** The kind of payload a key announces by its prefix. *)
Definition kindOK (key : string) (p : payload) : Prop :=
  match p with
  | PlayerPayload d => String.prefix "playerAch:" key = true ∧ playerSuccess d = true
  | SchemaPayload d => String.prefix "schema:" key = true ∧ is_Some (schemaList d)
  | GlobalPayload _ => String.prefix "globalAch:" key = true
  end.

(** Every entry of the store is of the kind its key announces, and valid. *)
Definition storeTyped (w : World) : Prop :=
  ∀ key p expiry, store w !! key = Some (p, expiry) → kindOK key p.

(** The responses with which the handler reports a failure: a message,
    with status 404 or 500, or with the status of a player or schema answer
    that was not OK, when a response can carry that status. *)
Definition errorResponse (env : Env) (r : Response) : Prop :=
  (∃ m, body r = Message m) ∧
  (status r = 404 ∨ status r = 500 ∨
   (∃ b, playerUpstream env = Responded (status r) b ∧ ok (status r) = false ∧
         responseStatusOk (status r) = true) ∨
   (∃ b, schemaUpstream env = Responded (status r) b ∧ ok (status r) = false ∧
         responseStatusOk (status r) = true)).

(** What a reader of dataset [K] finds in a payload of the right kind. *)
Definition readsAs (K : dataset) (p : payload) : Prop :=
  match K with
  | PlayerData => ∃ d, p = PlayerPayload d ∧ playerSuccess d = true
  | SchemaData => ∃ d, p = SchemaPayload d ∧ is_Some (schemaList d)
  | GlobalData => ∃ d, p = GlobalPayload d
  end.

(** A request that one of the three guards in front of the [try] turns
    away: no session cookie, no [appId] parameter, or no API key. *)
Definition rejected (env : Env) : Prop :=
  truthy (cookieSteamId env) = None ∨ truthy (paramAppId env) = None ∨
  truthy (STEAM_API_KEY env) = None.

(** The calls a request may make, the latest first: none when a guard
    turns it away. *)
Definition requestCalls (env : Env) : list upstream :=
  match truthy (cookieSteamId env), truthy (paramAppId env), truthy (STEAM_API_KEY env) with
  | Some steamId, Some appId, Some _ =>
      [GetGlobalAchievementPercentagesForApp appId; GetSchemaForGame appId;
       GetPlayerAchievements steamId appId]
  | _, _, _ => []
  end.

(** An identity or game id without a colon, as SteamIDs and app ids are. *)
Definition plain (s : string) : Prop :=
  ":"%char ∉ String.list_ascii_of_string s.

(** An upstream call that throws: the transport fails, or the answer has
    an OK status and a body that is not JSON. *)
Definition throws {T} (up : FetchResult T) : Prop :=
  match up with
  | NetworkError => True
  | Responded st None => ok st = true
  | Responded _ (Some _) => False
  end.

(** A computation leaves the handler early only with responses in [E]. *)
Definition returnsOnly {A} (E : Response → Prop) (m : M A) (env : Env) : Prop :=
  ∀ w r, (m env w).1 = Return r → E r.


(** A computation only adds to the log of upstream calls. *)
Definition appendsCalls {A} (m : M A) (env : Env) : Prop :=
  ∀ w, ∃ calls, upstreamCalls (m env w).2 = calls ++ upstreamCalls w.

End HandlerSteps.

(** ** More scenarios *)

Module MoreScenarios.
Import Aggregator Handler Worker Scenarios.


(** Scenario 440 asked again the next day. *)
Definition env440NextDay : Env :=
  {| now := 90000;
     cookieSteamId := Some "76561198000000000";
     paramAppId := Some "440";
     STEAM_API_KEY := Some "key";
     isOpen := true; connectOk := true;
     getFails := λ _, false; setFails := λ _, false;
     playerUpstream := Responded 200 (Some playerBody440);
     schemaUpstream := Responded 200 (Some schemaBody440);
     globalUpstream := Responded 200 (Some globalBody440) |}.

(** Scenario 440 on a server without an API key. *)
Definition env440NoKey : Env :=
  {| now := 1000;
     cookieSteamId := Some "76561198000000000";
     paramAppId := Some "440";
     STEAM_API_KEY := None;
     isOpen := false; connectOk := true;
     getFails := λ _, false; setFails := λ _, false;
     playerUpstream := Responded 200 (Some playerBody440);
     schemaUpstream := Responded 200 (Some schemaBody440);
     globalUpstream := Responded 200 (Some globalBody440) |}.

(** Scenario 440 with Steam answering the schema call 503, no body. *)
Definition env440SchemaBusy : Env :=
  {| now := 1000;
     cookieSteamId := Some "76561198000000000";
     paramAppId := Some "440";
     STEAM_API_KEY := Some "key";
     isOpen := false; connectOk := true;
     getFails := λ _, false; setFails := λ _, false;
     playerUpstream := Responded 200 (Some playerBody440);
     schemaUpstream := Responded 503 None;
     globalUpstream := Responded 200 (Some globalBody440) |}.

(** Scenario 440 with the player call answered 304, and with the schema
    call answered 304: statuses no response with a body can carry. *)
Definition env440PlayerNotModified : Env :=
  {| now := 1000;
     cookieSteamId := Some "76561198000000000";
     paramAppId := Some "440";
     STEAM_API_KEY := Some "key";
     isOpen := false; connectOk := true;
     getFails := λ _, false; setFails := λ _, false;
     playerUpstream := Responded 304 None;
     schemaUpstream := Responded 200 (Some schemaBody440);
     globalUpstream := Responded 200 (Some globalBody440) |}.

Definition env440SchemaNotModified : Env :=
  {| now := 1000;
     cookieSteamId := Some "76561198000000000";
     paramAppId := Some "440";
     STEAM_API_KEY := Some "key";
     isOpen := false; connectOk := true;
     getFails := λ _, false; setFails := λ _, false;
     playerUpstream := Responded 200 (Some playerBody440);
     schemaUpstream := Responded 304 None;
     globalUpstream := Responded 200 (Some globalBody440) |}.

(** Scenario 440 with Steam answering the player call 503, no body. *)
Definition env440PlayerBusy : Env :=
  {| now := 1000;
     cookieSteamId := Some "76561198000000000";
     paramAppId := Some "440";
     STEAM_API_KEY := Some "key";
     isOpen := false; connectOk := true;
     getFails := λ _, false; setFails := λ _, false;
     playerUpstream := Responded 503 None;
     schemaUpstream := Responded 200 (Some schemaBody440);
     globalUpstream := Responded 200 (Some globalBody440) |}.

End MoreScenarios.

(** ** The cache client under concurrent callers ([redis.ts]) *)

Module RedisClient.

(** The module state of [redis.ts], with what the runtime holds beside it.
    Clients are numbered in the order [createClient] makes them. *)
Record State := {
  redisClient : option nat;        (* [let redisClient] *)
  connectPromise : option nat;     (* [let connectPromise]: the promise of that client's attempt *)
  created : nat;                   (* [createClient] calls so far *)
  connecting : gset nat;           (* clients whose [connect()] has not settled *)
  isOpen : gset nat                (* clients whose [isOpen] is true *)
}.

Definition initial : State :=
  {| redisClient := None; connectPromise := None; created := 0;
     connecting := ∅; isOpen := ∅ |}.

(** What a caller of [getRedisClient] gets: a promise already resolved with
    the memoised client, or the promise of a connection attempt. *)
Inductive Handle :=
  | Ready (client : nat)
  | Pending (client : nat).

(** [getRedisClient()]: the synchronous body, up to [return]. *)
Definition getRedisClient (s : State) : Handle * State :=
  let attempt :=
    match connectPromise s with
    | Some c => (Pending c, s)
    | None =>
        let client := created s in
        (Pending client,
         {| redisClient := redisClient s; connectPromise := Some client;
            created := S client; connecting := {[client]} ∪ connecting s;
            isOpen := isOpen s |})
    end in
  match redisClient s with
  | Some c => if bool_decide (c ∈ isOpen s) then (Ready c, s) else attempt
  | None => attempt
  end.

(** What happens between two turns of the event loop. *)
Inductive Event :=
  | Call                    (* a request calls [getRedisClient()] *)
  | Connected (client : nat)  (* [connect()] resolves: the [then] callback runs *)
  | Failed (client : nat)     (* [connect()] rejects: the [catch] callback runs *)
  | Closed (client : nat).    (* the connection of a client closes *)

(** One turn; [None] when the event cannot happen (a [connect()] settles
    once, and only if it was called). *)
Definition step (s : State) (e : Event) : option State :=
  match e with
  | Call => Some (getRedisClient s).2
  | Connected c =>
      if bool_decide (c ∈ connecting s) then
        Some {| redisClient := Some c; connectPromise := None; created := created s;
                connecting := connecting s ∖ {[c]}; isOpen := {[c]} ∪ isOpen s |}
      else None
  | Failed c =>
      if bool_decide (c ∈ connecting s) then
        Some {| redisClient := None; connectPromise := None; created := created s;
                connecting := connecting s ∖ {[c]}; isOpen := isOpen s |}
      else None
  | Closed c =>
      Some {| redisClient := redisClient s; connectPromise := connectPromise s;
              created := created s; connecting := connecting s;
              isOpen := isOpen s ∖ {[c]} |}
  end.

Fixpoint run (s : State) (events : list Event) : option State :=
  match events with
  | [] => Some s
  | e :: rest => s' ← step s e; run s' rest
  end.

(** The attempts that have settled in a history. *)
Definition settles (e : Event) : nat :=
  match e with Connected _ | Failed _ => 1 | _ => 0 end.

Definition settled (events : list Event) : nat := sum_list (settles <$> events).

(** The attempt in flight is the one [connectPromise] stands for, and
    there is no other. *)
Definition singleFlight (s : State) : Prop :=
  connecting s = match connectPromise s with Some c => {[c]} | None => ∅ end.

End RedisClient.

(** ** The owned-games handler ([get-owned-games], [GET]) *)

Module OwnedGames.
Import Aggregator Handler.

(** [SteamGame] of [src/types/steam.ts]. *)
Record SteamGame := {
  appid : Z;
  name : string;
  playtime_forever : Z;
  img_icon_url : string;
  img_logo_url : string;
  playtime_2weeks : option Z
}.

(** [data.response], as far as the handler looks at it: the two fields it
    reads, and how many other keys the object has. *)
Record ResponseObject := {
  game_count : option Z;
  games : option (list SteamGame);
  otherKeys : nat
}.

(** The parsed body; [response = None] is a body without a [response]
    object. *)
Record OwnedGamesData := { response : option ResponseObject }.

(** [Object.keys(data.response).length]. *)
Definition keyCount (r : ResponseObject) : nat :=
  (match game_count r with Some _ => 1 | None => 0 end +
   match games r with Some _ => 1 | None => 0 end + otherKeys r)%nat.

Record Env := {
  STEAM_API_KEY : option string;       (* process.env.STEAM_API_KEY *)
  cookieSteamId : option string;       (* cookieStore.get(COOKIE_NAME)?.value *)
  steam : FetchResult OwnedGamesData   (* the answer of GetOwnedGames *)
}.

Inductive OwnedGamesError :=
  | MissingKey          (* 'Server configuration error: Missing Steam API key.' *)
  | Unauthorized        (* 'Unauthorized: No Steam session found.' *)
  | FetchFailed (rstatus : Z)   (* `Failed to fetch data from Steam API (Status: ${status})` *)
  | UnexpectedStructure (* 'Unexpected response structure from Steam API.' *)
  | InternalError.      (* `Internal server error: ${errorMessage}` *)

Inductive OwnedGamesBody :=
  | Error (e : OwnedGamesError)
  | EmptyProfile                        (* { game_count: 0, games: [] } *)
  | Games (count : option Z) (sortedGames : list SteamGame).
                                        (* { response: { game_count, games } } *)

Record OwnedGamesResponse := { og_status : Z; og_body : OwnedGamesBody }.

(** [(a, b) => b.playtime_forever - a.playtime_forever]. *)
Definition byPlaytime (a b : SteamGame) : Qc :=
  Qc_of_Z (playtime_forever b - playtime_forever a).

(** [GET]; the second component tells whether Steam was called. *)
Definition GET (env : Env) : OwnedGamesResponse * bool :=
  match truthy (STEAM_API_KEY env) with
  | None => ({| og_status := 500; og_body := Error MissingKey |}, false)
  | Some _ =>
  match truthy (cookieSteamId env) with
  | None => ({| og_status := 401; og_body := Error Unauthorized |}, false)
  | Some steamId =>
      (match steam env with
       | NetworkError => {| og_status := 500; og_body := Error InternalError |}
       | Responded st b =>
           if negb (ok st) then
             (* [NextResponse.json] throws on a status that no response with
                a body can carry, and the [catch] answers *)
             if responseStatusOk st
             then {| og_status := st; og_body := Error (FetchFailed st) |}
             else {| og_status := 500; og_body := Error InternalError |}
           else
             match b with
             | None => {| og_status := 500; og_body := Error InternalError |}
             | Some data =>
                 match response data with
                 | None => {| og_status := 500; og_body := Error UnexpectedStructure |}
                 | Some r =>
                     match games r with
                     | None =>
                         if bool_decide (keyCount r = 0%nat)
                         then {| og_status := 200; og_body := EmptyProfile |}
                         else {| og_status := 500; og_body := Error UnexpectedStructure |}
                     | Some gs =>
                         {| og_status := 200;
                            og_body := Games (game_count r) (js_sort byPlaytime gs) |}
                     end
                 end
             end
       end, true)
  end end.

(** Three games, the second the most played, the other two level. *)
Definition game (id : Z) (title : string) (minutes : Z) : SteamGame :=
  {| appid := id; name := title; playtime_forever := minutes;
     img_icon_url := ""; img_logo_url := ""; playtime_2weeks := None |}.

Definition library : list SteamGame :=
  [game 440 "Team Fortress 2" 120; game 570 "Dota 2" 9000; game 730 "Counter-Strike 2" 120].

Definition envLibrary : Env :=
  {| STEAM_API_KEY := Some "key";
     cookieSteamId := Some "76561198000000000";
     steam := Responded 200
                (Some {| response := Some {| game_count := Some 3; games := Some library;
                                             otherKeys := 0 |} |}) |}.

End OwnedGames.

(** ** The OpenID callback ([auth/steam/callback], [GET]) *)

Module OpenIdCallback.

(** [URLSearchParams]: the pairs in order, duplicates kept. *)
Definition get (key : string) (params : list (string * string)) : option string :=
  snd <$> head (filter (λ p, p.1 = key) params).

Definition append (key value : string) (params : list (string * string))
  : list (string * string) :=
  params ++ [(key, value)].

(** [set]: the first pair of that name takes the value and the others of
    that name go; without such a pair, the pair is appended. *)
Fixpoint set (key value : string) (params : list (string * string))
  : list (string * string) :=
  match params with
  | [] => [(key, value)]
  | (k, v) :: rest =>
      if decide (k = key) then (key, value) :: filter (λ p, p.1 ≠ key) rest
      else (k, v) :: set key value rest
  end.

(** [hay.includes(needle)]. *)
Fixpoint includes (needle hay : string) : bool :=
  String.prefix needle hay ||
  match hay with
  | EmptyString => false
  | String _ rest => includes needle rest
  end.

(** What is left of [s] after the prefix [p], if [s] starts with it. *)
Fixpoint stripPrefix (p s : string) : option string :=
  match p, s with
  | EmptyString, _ => Some s
  | String a p', String b s' => if decide (a = b) then stripPrefix p' s' else None
  | String _ _, EmptyString => None
  end.

(** [\d]. *)
Definition isDigit (c : ascii) : bool :=
  bool_decide (48 ≤ Z.of_N (Ascii.N_of_ascii c) ≤ 57).

Definition allDigits (s : string) : bool :=
  forallb isDigit (String.list_ascii_of_string s).

(** [claimedId.match(/^https?:\/\/steamcommunity\.com\/openid\/id\/(\d+)$/)],
    group 1. *)
Definition steamIdMatch (claimedId : string) : option string :=
  rest ← match stripPrefix "https://steamcommunity.com/openid/id/" claimedId with
         | Some rest => Some rest
         | None => stripPrefix "http://steamcommunity.com/openid/id/" claimedId
         end;
  if bool_decide (rest ≠ "") && allDigits rest then Some rest else None.

(** The body of the verification request: the two fixed parameters, then
    every [openid.] parameter of the callback, then [openid.mode] set. *)
Definition verificationParams (searchParams : list (string * string))
  : list (string * string) :=
  set "openid.mode" "check_authentication"
    (foldl (λ acc '(key, value),
              if String.prefix "openid." key then append key value acc else acc)
       [("openid.ns", "http://specs.openid.net/auth/2.0");
        ("openid.mode", "check_authentication")]
       searchParams).

Record Env := {
  searchParams : list (string * string);          (* request.nextUrl.searchParams *)
  steam : list (string * string) → option string  (* the text Steam answers the POST with;
                                                     [None] when the call throws *)
}.

(** Where the handler redirects: the home page, plain or with [?error=]. *)
Inductive Redirect :=
  | Home
  | HomeWithError (code : string).

Record Result := {
  redirect : Redirect;
  cookie : option string;                    (* the value of [steamSession], if set *)
  posted : option (list (string * string))   (* the verification request, if sent *)
}.

Definition GET (env : Env) : Result :=
  if negb (bool_decide (get "openid.mode" (searchParams env) = Some "id_res")) then
    {| redirect := HomeWithError "InvalidCallbackMode"; cookie := None; posted := None |}
  else
    let params := verificationParams (searchParams env) in
    match steam env params with
    | None =>
        {| redirect := HomeWithError "InternalServerError"; cookie := None;
           posted := Some params |}
    | Some verificationText =>
        if negb (includes "is_valid:true" verificationText) then
          {| redirect := HomeWithError "SteamVerificationFailed"; cookie := None;
             posted := Some params |}
        else
          match get "openid.claimed_id" (searchParams env) ≫= steamIdMatch with
          | None =>
              {| redirect := HomeWithError "SteamIdExtractionFailed"; cookie := None;
                 posted := Some params |}
          | Some steamId64 =>
              {| redirect := Home; cookie := Some steamId64; posted := Some params |}
          end
    end.

(** A callback as Steam sends it, and Steam confirming it. *)
Definition callback : list (string * string) :=
  [("openid.ns", "http://specs.openid.net/auth/2.0");
   ("openid.mode", "id_res");
   ("openid.claimed_id", "https://steamcommunity.com/openid/id/76561198000000000");
   ("openid.sig", "c2lnbmF0dXJl");
   ("utm_source", "mail")].

Definition envConfirmed : Env :=
  {| searchParams := callback; steam := λ _, Some "ns:http://specs.openid.net/auth/2.0 is_valid:true" |}.

End OpenIdCallback.



(** ** The mint button of the achievements page ([handleMint]) *)

Module MintPage.
Import TokenId.

Definition TARGET_CHAIN_ID : Z := 84532.

Inductive MintStatus :=
  | idle | loading | switching_chain | submitting | success | error
  | warning_cache_failed.

#[global] Instance MintStatus_eq_dec : EqDecision MintStatus.
Proof. solve_decision. Defined.

(** What a wagmi call rejects with: a viem [BaseError], another [Error], or
    a value that is no [Error]. *)
Inductive Thrown :=
  | BaseError (shortMessage : string)
  | PlainError (message : string)
  | NotAnError.

(** The arguments of the [writeContract] call. *)
Record WriteArgs := {
  to : Z;
  wa_tokenId : Z;
  wa_appId : Z;
  achievementApiId : string;
  data : string;
  wa_chainId : Z
}.

(** How the [writeContract] call settles, if it does: [onSuccess] with a
    transaction hash, or [onError]. *)
Inductive WriteOutcome :=
  | Unsettled
  | Submitted (txHash : string)
  | Rejected (e : Thrown).

(** The values of the hooks when the button is clicked.  [appId] is
    [Number(params.appid)], taken here to be an integer. *)
Record Hooks := {
  appId : option Z;
  isConnected : bool;
  accountAddress : option Z;
  chainId : Z;
  switchChain : option Thrown;            (* [None]: the promise resolves *)
  writeContract : WriteArgs → WriteOutcome
}.

(** The two pieces of React state the handler writes. *)
Record PageState := {
  mintingStatus : gmap string MintStatus;
  mintError : option string
}.

Definition setMintingStatus (achievementApiName : string) (st : MintStatus)
    (s : PageState) : PageState :=
  {| mintingStatus := <[achievementApiName := st]> (mintingStatus s);
     mintError := mintError s |}.

Definition setMintError (e : option string) (s : PageState) : PageState :=
  {| mintingStatus := mintingStatus s; mintError := e |}.

(** JavaScript truthiness of [number | null]. *)
Definition truthyNumber (n : option Z) : option Z :=
  match n with
  | Some 0 => None
  | other => other
  end.

(** The message shown when [switchChain] rejects. *)
Definition switchErrorMsg (e : Thrown) : string :=
  match e with
  | BaseError shortMessage => shortMessage
  | PlainError message => message
  | NotAnError =>
      "Failed to switch to Base Sepolia. Please switch manually in your wallet."
  end.

(** [error instanceof BaseError ? error.shortMessage : error.message || 'Minting failed.']. *)
Definition mintErrorMsg (e : Thrown) : string :=
  match e with
  | BaseError shortMessage => shortMessage
  | PlainError EmptyString | NotAnError => "Minting failed."
  | PlainError message => message
  end.

(** [handleMint(achievementApiName)], with the callbacks of [writeContract]
    run; yields the arguments of the [writeContract] call, if it was made. *)
Definition handleMint (h : Hooks) (achievementApiName : string) (s : PageState)
  : PageState * option WriteArgs :=
  match truthyNumber (appId h) with
  | None => (setMintError (Some "App ID is missing. Cannot mint.") s, None)
  | Some appId =>
  match (if isConnected h then accountAddress h else None) with
  | None => (setMintError (Some "Wallet not connected. Please connect to mint.") s, None)
  | Some account =>
      let s := setMintingStatus achievementApiName loading (setMintError None s) in
      if bool_decide (chainId h ≠ TARGET_CHAIN_ID) then
        let s :=
          setMintError
            (Some "Wrong network. Please switch to Base Sepolia (ID: 84532).")
            (setMintingStatus achievementApiName switching_chain s) in
        match switchChain h with
        | None =>
            (setMintingStatus achievementApiName idle
               (setMintError
                  (Some "Network switch initiated. Please click Mint again once connected to Base Sepolia.")
                  s),
             None)
        | Some e =>
            (setMintingStatus achievementApiName error
               (setMintError (Some (switchErrorMsg e)) s),
             None)
        end
      else
        match generateTokenId appId achievementApiName with
        | None =>
            (setMintingStatus achievementApiName error
               (setMintError (Some "Failed to generate token ID.") s),
             None)
        | Some tokenId =>
            let s := setMintingStatus achievementApiName submitting s in
            let args :=
              {| to := account; wa_tokenId := tokenId; wa_appId := appId;
                 achievementApiId := achievementApiName;
                 data := bytesToHex (stringToBytes "");
                 wa_chainId := TARGET_CHAIN_ID |} in
            (match writeContract h args with
             | Unsettled => s
             | Submitted _ => setMintingStatus achievementApiName submitting s
             | Rejected e =>
                 setMintingStatus achievementApiName error
                   (setMintError (Some ("Minting failed: " +:+ mintErrorMsg e)) s)
             end,
             Some args)
        end
  end end.

(** The [disabled] attribute of the mint button of one achievement. *)
Definition buttonDisabled (isWriteContractPending : bool) (st : option MintStatus) : bool :=
  isWriteContractPending ||
  bool_decide (st = Some loading) || bool_decide (st = Some submitting) ||
  bool_decide (st = Some switching_chain).

(** A connected wallet on Base Sepolia whose transaction is submitted. *)
Definition hooksReady : Hooks :=
  {| appId := Some 440; isConnected := true; accountAddress := Some 2748;
     chainId := 84532; switchChain := None;
     writeContract := λ _, Submitted "0xabc" |}.

Definition freshPage : PageState := {| mintingStatus := ∅; mintError := None |}.

End MintPage.

(** ** The token contract ([AchievementNFT.sol]) and the metadata route *)

Module AchievementNFT.

Inductive Event :=
  | AchievementMinted (owner tokenId appId : Z) (achievementApiId : string)
  | TransferSingle (operator from to id value : Z).

#[global] Instance Event_eq_dec : EqDecision Event.
Proof. solve_decision. Defined.

(** The storage of the contract and the events it has emitted, the latest
    first.  [balances] is ERC1155's [_balances[id][account]]. *)
Record State := {
  balances : gmap (Z * Z) Z;
  baseMetadataURI : string;
  owner : Z;
  events : list Event
}.

(** [constructor(_baseMetadataURI, initialOwner)]. *)
Definition deployed (_baseMetadataURI : string) (initialOwner : Z) : State :=
  {| balances := ∅; baseMetadataURI := _baseMetadataURI; owner := initialOwner;
     events := [] |}.

(** ERC1155's [balanceOf(account, id)]. *)
Definition balanceOf (s : State) (account id : Z) : Z :=
  default 0 (balances s !! (id, account)).

(** ERC1155's [_mint(to, id, value, data)] as OpenZeppelin 5 has it: it
    reverts for the zero address, adds [value] to the balance with checked
    arithmetic, emits [TransferSingle], and reverts when the receiver does
    not accept the token ([accepts]: an account without code, or a contract
    whose [onERC1155Received] answers with the selector). *)
Definition _mint (accepts : Z → bool) (operator to id value : Z) (s : State)
  : option State :=
  if bool_decide (to = 0) then None
  else if bool_decide (2 ^ 256 ≤ balanceOf s to id + value) then None
  else if accepts to then
    Some {| balances := <[(id, to) := balanceOf s to id + value]> (balances s);
            baseMetadataURI := baseMetadataURI s; owner := owner s;
            events := TransferSingle operator 0 to id value :: events s |}
  else None.

Definition emit (e : Event) (s : State) : State :=
  {| balances := balances s; baseMetadataURI := baseMetadataURI s; owner := owner s;
     events := e :: events s |}.

(** [mintAchievement(to, tokenId, appId, achievementApiId, data)], called
    by [sender]; [None] is a revert. *)
Definition mintAchievement (accepts : Z → bool) (sender to tokenId appId : Z)
    (achievementApiId : string) (s : State) : option State :=
  if bool_decide (balanceOf s to tokenId = 0) then
    s' ← _mint accepts sender to tokenId 1 s;
    Some (emit (AchievementMinted to tokenId appId achievementApiId) s')
  else None.

(** [uri(tokenId)]; [Strings.toString] gives the decimal digits. *)
Definition uri (s : State) (tokenId : Z) : option string :=
  if bool_decide (baseMetadataURI s = "") then None
  else Some (baseMetadataURI s +:+ pretty (Z.to_N tokenId)).

(** [setBaseURI(newBaseMetadataURI)], [onlyOwner]. *)
Definition setBaseURI (sender : Z) (newBaseMetadataURI : string) (s : State)
  : option State :=
  if bool_decide (sender = owner s) then
    Some {| balances := balances s; baseMetadataURI := newBaseMetadataURI;
            owner := owner s; events := events s |}
  else None.

(** A transaction that calls one of the contract's own functions. *)
Inductive Call :=
  | MintAchievement (sender to tokenId appId : Z) (achievementApiId : string)
  | SetBaseURI (sender : Z) (newBaseMetadataURI : string).

(** A transaction that reverts leaves the state as it was. *)
Definition exec (accepts : Z → bool) (s : State) (c : Call) : State :=
  default s
    match c with
    | MintAchievement sender to tokenId appId achievementApiId =>
        mintAchievement accepts sender to tokenId appId achievementApiId s
    | SetBaseURI sender newBaseMetadataURI => setBaseURI sender newBaseMetadataURI s
    end.

Definition execAll (accepts : Z → bool) (s : State) (calls : list Call) : State :=
  foldl (exec accepts) s calls.

(** How many [AchievementMinted] events name this owner and token. *)
Definition names (account id : Z) (e : Event) : bool :=
  match e with
  | AchievementMinted o t _ _ => bool_decide (o = account ∧ t = id)
  | TransferSingle _ _ _ _ _ => false
  end.

Definition announced (account id : Z) (s : State) : nat :=
  length (filter (λ e, names account id e = true) (events s)).

(** The balance of every owner and token is the number of mint
    announcements for them, and is at most one. *)
Definition mintedOnce (s : State) : Prop :=
  ∀ account id, balanceOf s account id = Z.of_nat (announced account id s) ∧
                (announced account id s ≤ 1)%nat.

(** The metadata route: [getAchievementDetails] knows two token ids. *)
Record AchievementMetadata := {
  md_name : string;
  md_description : string;
  md_image : string
}.

Definition placeholderImage : string :=
  "https://community.cloudflare.steamstatic.com/public/images/steamworks/steam_achievement_placeholder.jpg".

Definition getAchievementDetails (tokenId : string) : option AchievementMetadata :=
  if bool_decide (tokenId = "123456789") then
    Some {| md_name := "Example Achievement";
            md_description := "You achieved something amazing! (Placeholder)";
            md_image := placeholderImage |}
  else if bool_decide (tokenId = "987654321") then
    Some {| md_name := "Another Achievement";
            md_description := "This is another placeholder achievement.";
            md_image := placeholderImage |}
  else None.

Inductive MetadataBody :=
  | MetadataError (error : string)
  | Metadata (m : AchievementMetadata).

(** [GET] of [/api/metadata/achievement/[tokenId]]: status and body. *)
Definition metadataGET (tokenId : string) : Z * MetadataBody :=
  match tokenId with
  | EmptyString => (400, MetadataError "Token ID is required")
  | _ =>
      match getAchievementDetails tokenId with
      | None => (404, MetadataError "Metadata not found for this token ID")
      | Some m => (200, Metadata m)
      end
  end.

(** The path segment under which a [uri] is served by the route mounted at
    the base URI. *)
Definition tokenSegment (tokenId : Z) : string := pretty (Z.to_N tokenId).

End AchievementNFT.

(** ** The achievements page: fetching and rendering *)

Module AchievementsPage.
Import Aggregator Handler.

(** [AchievementsResponse] of [src/types/steam.ts]. *)
Record AchievementsResponse := {
  ar_gameName : option string;
  ar_steamId : option string;
  ar_achievements : option (list CombinedAchievement);
  ar_message : option string
}.

(** The text of a handler message. *)
Definition messageText (m : ErrorMessage) : string :=
  match m with
  | Text s => s
  | PlayerFetchFailed st => "Failed to fetch player achievements. Status: " +:+ pretty st
  | SchemaFetchFailed st => "Failed to fetch game schema. Status: " +:+ pretty st
  end.

(** [await response.json()] on a body of the handler. *)
Definition parsed (b : Body) : AchievementsResponse :=
  match b with
  | AchievementsBody gameName steamId achievements =>
      {| ar_gameName := Some gameName; ar_steamId := Some steamId;
         ar_achievements := Some achievements; ar_message := None |}
  | Message m =>
      {| ar_gameName := None; ar_steamId := None; ar_achievements := None;
         ar_message := Some (messageText m) |}
  end.

Definition onlyMessage (m : string) : AchievementsResponse :=
  {| ar_gameName := None; ar_steamId := None; ar_achievements := None;
     ar_message := Some m |}.

(** [fetchAchievements(id)]: what it leaves in [achievementsData];
    [None] is a [fetch] that rejects. *)
Definition fetchAchievements (response : option Response) : AchievementsResponse :=
  match response with
  | Some r =>
      if ok (status r) then parsed (body r)
      else onlyMessage "Error fetching achievements."
  | None => onlyMessage "Error fetching achievements."
  end.

(** What the page shows once loading is over. *)
Inductive View :=
  | ShowMessage (m : string)
  | NoAchievements
  | ShowAchievements (achievements : list CombinedAchievement).

Definition render (achievementsData : option AchievementsResponse) : View :=
  match achievementsData with
  | None => ShowMessage "Could not load achievements."
  | Some d =>
      match truthy (ar_message d) with
      | Some m => ShowMessage m
      | None =>
          match ar_achievements d with
          | None | Some [] => NoAchievements
          | Some achievements => ShowAchievements achievements
          end
      end
  end.

(** The effect and the render, for the page of [appId]. *)
Definition page (appId : option Z) (response : option Response) : View :=
  match MintPage.truthyNumber appId with
  | Some _ => render (Some (fetchAchievements response))
  | None => render (Some (onlyMessage "Invalid App ID."))
  end.

End AchievementsPage.

(** * Properties *)

(** ** The sort *)

Module SortFacts.
Import Aggregator.

Section stable_insertion.
Context {A : Type} (cmp : A → A → Qc).

Hypothesis before_total : ∀ a b, before cmp a b ∨ before cmp b a.

Lemma js_insert_perm x l : js_insert cmp x l ≡ₚ x :: l.
Proof.
  induction l as [|y l IH]; simpl; [done|].
  case_bool_decide; [done|].
  rewrite IH. apply Permutation_swap.
Qed.

Lemma js_sort_perm l : js_sort cmp l ≡ₚ l.
Proof.
  induction l as [|x l IH]; simpl; [done|].
  by rewrite js_insert_perm, IH.
Qed.

Lemma js_insert_HdRel y x l :
  before cmp y x → HdRel (before cmp) y l → HdRel (before cmp) y (js_insert cmp x l).
Proof.
  intros Hyx Hl. destruct l as [|z l]; simpl.
  - by constructor.
  - case_bool_decide; constructor; [done|]. by inversion Hl.
Qed.

Lemma js_insert_sorted x l : Sorted (before cmp) l → Sorted (before cmp) (js_insert cmp x l).
Proof.
  induction 1 as [|y l Hl IH Hhd]; simpl.
  - repeat constructor.
  - case_bool_decide as Hxy.
    + constructor; [by constructor|]. by constructor.
    + constructor; [done|]. apply js_insert_HdRel; [|done].
      destruct (before_total x y); [contradiction|done].
Qed.

Lemma js_sort_sorted l : Sorted (before cmp) (js_sort cmp l).
Proof.
  induction l as [|x l IH]; simpl; [constructor|]. by apply js_insert_sorted.
Qed.

(** Stability, for a class [P] of elements that tie with each other: the
    members of the class leave the sort in the order they entered it. *)
Section classes.
Context (P : A → Prop) `{!∀ x, Decision (P x)}.
Hypothesis ties : ∀ x y, P x → P y → before cmp x y.

Lemma js_insert_filter x l :
  filter P (js_insert cmp x l) = filter P (x :: l).
Proof.
  induction l as [|y l IH]; simpl; [done|].
  case_bool_decide as Hxy; [done|].
  rewrite filter_cons, IH, !filter_cons.
  destruct (decide (P y)) as [Hy|Hy]; [|done].
  destruct (decide (P x)) as [Hx|Hx]; [|done].
  destruct Hxy. by apply ties.
Qed.

Lemma js_sort_filter l : filter P (js_sort cmp l) = filter P l.
Proof.
  induction l as [|x l IH]; simpl; [done|].
  by rewrite js_insert_filter, !filter_cons, IH.
Qed.

End classes.

(** The list a stable sort returns is determined by the comparator: two
    lists that are both in order and list each class of tied elements alike
    are the same list.  So whatever algorithm the engine runs, its result is
    the one [js_sort] computes. *)
Hypothesis before_trans : ∀ a b c, before cmp a b → before cmp b c → before cmp a c.

Lemma tied_refl a : tied cmp a a.
Proof. by destruct (before_total a a). Qed.

Lemma tied_class a b c : tied cmp a b → (tied cmp a c ↔ tied cmp b c).
Proof. unfold tied. intros [Hab Hba]. split; intros [H1 H2]; split; eauto. Qed.

Lemma Sorted_head_before x l y :
  Sorted (before cmp) (x :: l) → y ∈ x :: l → before cmp x y.
Proof.
  intros Hs Hin. apply Sorted_StronglySorted in Hs; [|by intros a b c; apply before_trans].
  apply StronglySorted_inv in Hs as [_ Hall].
  apply elem_of_cons in Hin as [->|Hin]; [apply tied_refl|].
  by eapply Forall_forall in Hall.
Qed.

Lemma stable_sorted_unique l1 l2 :
  Sorted (before cmp) l1 → Sorted (before cmp) l2 →
  (∀ x, filter (tied cmp x) l1 = filter (tied cmp x) l2) →
  l1 = l2.
Proof.
  revert l2. induction l1 as [|x l1 IH]; intros l2 Hs1 Hs2 Hcl.
  - destruct l2 as [|y l2]; [done|]. specialize (Hcl y).
    rewrite filter_nil, filter_cons_True in Hcl by apply tied_refl. done.
  - destruct l2 as [|y l2].
    { specialize (Hcl x). rewrite filter_nil, filter_cons_True in Hcl by apply tied_refl.
      done. }
    assert (y ∈ x :: l1) as Hy.
    { eapply (list_elem_of_filter (tied cmp y)). rewrite (Hcl y).
      rewrite filter_cons_True by apply tied_refl. by left. }
    assert (x ∈ y :: l2) as Hx.
    { eapply (list_elem_of_filter (tied cmp x)). rewrite <-(Hcl x).
      rewrite filter_cons_True by apply tied_refl. by left. }
    assert (tied cmp x y) as Hxy.
    { split; by eapply Sorted_head_before. }
    pose proof (Hcl x) as Hclx.
    rewrite !filter_cons_True in Hclx by (done || apply tied_refl).
    injection Hclx as <- Hrest. f_equal.
    apply IH; [by inversion Hs1|by inversion Hs2|].
    intros z. destruct (decide (tied cmp z x)) as [Hzx|Hzx].
    + rewrite (list_filter_iff (tied cmp z) (tied cmp x) l1)
        by (intros c; by apply tied_class).
      by rewrite (list_filter_iff (tied cmp z) (tied cmp x) l2)
        by (intros c; by apply tied_class).
    + specialize (Hcl z). by rewrite !filter_cons_False in Hcl.
Qed.

Lemma js_sort_determined l l' :
  Sorted (before cmp) l' →
  (∀ x, filter (tied cmp x) l' = filter (tied cmp x) l) →
  l' = js_sort cmp l.
Proof.
  intros Hs Hcl. apply stable_sorted_unique; [done|apply js_sort_sorted|].
  intros x. rewrite Hcl. symmetry. apply js_sort_filter.
  intros a b [Hxa Hax] [Hxb Hbx]. eauto.
Qed.

End stable_insertion.

(** In a [Sorted] list every adjacent pair is related. *)
Lemma Sorted_adjacent {A} (R : A → A → Prop) l i a b :
  Sorted R l → l !! i = Some a → l !! S i = Some b → R a b.
Proof.
  intros Hs. revert i. induction Hs as [|x l Hl IH Hhd]; intros i Ha Hb; [done|].
  destruct i as [|i]; simpl in *.
  - simplify_eq. destruct Hhd; simplify_eq/=. done.
  - by eapply IH.
Qed.

(** The comparator of the handler, read as an order on (achieved, percent). *)
Lemma Qc_sub_nonpos (p q : Qc) : (p - q ≤ Qc_of_Z 0 ↔ p ≤ q)%Qc.
Proof.
  rewrite Z2Qc_inj_0, (Qcplus_le_mono_r (p - q) 0 q).
  replace (p - q + q)%Qc with p by ring. by rewrite Qcplus_0_l.
Qed.

Lemma compareFn_before a b :
  before compareFn a b ↔
    (achieved a = true ∧ achieved b = false) ∨
    (achieved a = achieved b ∧ (numberOr100 (percent a) ≤ numberOr100 (percent b))%Qc).
Proof.
  unfold before, compareFn.
  destruct (achieved a), (achieved b); simpl; rewrite ?Qc_sub_nonpos.
  - intuition congruence.
  - split; [auto|]. intros _. by apply Z2Qc_inj_le.
  - split; [|intuition congruence]. intros H%Z2Qc_inj_le. lia.
  - intuition congruence.
Qed.

Lemma compareFn_total a b : before compareFn a b ∨ before compareFn b a.
Proof.
  rewrite !compareFn_before.
  destruct (achieved a), (achieved b),
    (Qc_le_total (numberOr100 (percent a)) (numberOr100 (percent b))); auto.
Qed.

Lemma compareFn_trans a b c :
  before compareFn a b → before compareFn b c → before compareFn a c.
Proof.
  rewrite !compareFn_before.
  intros [[Ha Hb]|[Hab Hp]] [[Hb' Hc]|[Hbc Hq]]; try (left; split; congruence).
  right. split; [congruence|]. by eapply Qcle_trans.
Qed.

(** Any list that is in the comparator's order and keeps tied records in
    their first order is the list the handler returns. *)
Lemma sort_contract_determines_result (l l' : list CombinedAchievement) :
  Sorted (before compareFn) l' →
  (∀ x, filter (tied compareFn x) l' = filter (tied compareFn x) l) →
  l' = js_sort compareFn l.
Proof. apply js_sort_determined; [apply compareFn_total|apply compareFn_trans]. Qed.

End SortFacts.

(** ** The combined list *)

Module AggregatorFacts.
Import Aggregator SortFacts.

(** [Map.get] after [new Map(entries)] finds the last entry for the key. *)
Lemma js_Map_lookup {V} (entries : list (string * V)) (k : string) :
  js_Map entries !! k = snd <$> last (filter (λ kv, kv.1 = k) entries).
Proof.
  unfold js_Map.
  assert (∀ m : gmap string V,
    foldl (λ m kv, <[kv.1 := kv.2]> m) m entries !! k =
      from_option Some (m !! k) (snd <$> last (filter (λ kv, kv.1 = k) entries))) as Hgen.
  { induction entries as [|[k' v] entries IH]; intros m; simpl; [done|].
    rewrite IH, filter_cons. simpl.
    destruct (decide (k' = k)) as [->|Hne].
    - rewrite lookup_insert_eq.
      destruct (filter _ entries) as [|kv rest] eqn:Hf; simpl; [done|].
      by rewrite last_cons; destruct (last rest).
    - by rewrite lookup_insert_ne. }
  rewrite Hgen, lookup_empty. by destruct (snd <$> _).
Qed.

Lemma js_Map_fmap_lookup {A V} (key : A → string) (val : A → V) (l : list A) k :
  js_Map ((λ a, (key a, val a)) <$> l) !! k = val <$> last (filter (λ a, key a = k) l).
Proof.
  rewrite js_Map_lookup.
  induction l as [|a l IH] using rev_ind; [done|].
  rewrite fmap_app, !filter_app. simpl. rewrite !filter_cons, !filter_nil. simpl.
  destruct (decide (key a = k)).
  - by rewrite !last_snoc.
  - by rewrite !app_nil_r.
Qed.

Lemma playerAchievementsMap_lookup pl nm :
  playerAchievementsMap pl !! nm = entryFor nm pl.
Proof.
  unfold playerAchievementsMap, entryFor.
  rewrite (js_Map_fmap_lookup apiname id). by destruct (last _).
Qed.

Lemma globalPercentagesMap_lookup gl nm :
  globalPercentagesMap gl !! nm = rarityFor nm gl.
Proof. apply (js_Map_fmap_lookup gp_name gp_percent). Qed.

Lemma combineOne_joined pl gl d :
  joined pl gl (combineOne (playerAchievementsMap pl) (globalPercentagesMap gl) d).
Proof.
  unfold joined, combineOne. simpl.
  rewrite playerAchievementsMap_lookup, globalPercentagesMap_lookup.
  by destruct (entryFor _ _).
Qed.

Lemma combinedAchievements_base sc pl gl :
  base <$> combinedAchievements sc pl gl = sc.
Proof.
  unfold combinedAchievements. rewrite <-list_fmap_compose.
  by rewrite <-(list_fmap_id sc) at 2.
Qed.

Lemma combinedAchievements_joined sc pl gl :
  Forall (joined pl gl) (combinedAchievements sc pl gl).
Proof.
  unfold combinedAchievements. apply Forall_fmap, Forall_true.
  intros d. apply combineOne_joined.
Qed.

Lemma sortedAchievements_perm sc pl gl :
  sortedAchievements sc pl gl ≡ₚ combinedAchievements sc pl gl.
Proof. apply js_sort_perm. Qed.

End AggregatorFacts.

(** ** The handler *)

Module HandlerFacts.
Import Aggregator SortFacts AggregatorFacts Handler HandlerSpec Scenarios.

(** Unfolds the monad's operations in the goal. *)
Ltac unfold_M :=
  unfold mbind, M_bind, mret, M_ret, respond, throw in *.

(** [handle] combines and sorts what [datasets] resolved. *)
Lemma handle_datasets redis steamId appId env w :
  handle redis steamId appId env w =
  match datasets redis steamId appId env w with
  | (Value (pl, sc, gn, gl), w') =>
      (Value {| status := 200;
                body := AchievementsBody gn steamId (sortedAchievements sc pl gl) |}, w')
  | (Return r, w') => (Return r, w')
  | (Throw, w') => (Throw, w')
  end.
Proof.
  unfold handle, datasets. unfold_M.
  destruct (resolvePlayer _ _ _ _ _) as [[d| |] w1]; [|done..].
  destruct (validatePlayer _ _ _) as [[pl| |] w2]; [|done..].
  destruct (resolveSchema _ _ _ _) as [[sd| |] w3]; [|done..].
  destruct (validateSchema _ _ _) as [[[sc gn]| |] w4]; [|done..].
  by destruct (resolveGlobal _ _ _ _) as [[gd| |] w5].
Qed.

(** A request that resolves its three datasets answers 200 with the game
    name, the identity and the sorted combined list. *)
Lemma GET_requestData env w pl sc gn gl :
  requestData env w = Some (pl, sc, gn, gl) →
  ∃ steamId,
    truthy (cookieSteamId env) = Some steamId ∧
    (GET env w).1 =
      {| status := 200;
         body := AchievementsBody gn steamId (sortedAchievements sc pl gl) |}.
Proof.
  unfold requestData, GET. intros H.
  destruct (truthy (cookieSteamId env)) as [steamId|]; [|done].
  destruct (truthy (paramAppId env)) as [appId|]; [|done].
  destruct (truthy (STEAM_API_KEY env)) as [key|]; [|done].
  simpl in H. destruct (connectRedis env w) as [redis w1].
  rewrite handle_datasets.
  destruct (datasets _ _ _ _ _) as [[d| |] w2]; [|done..].
  simplify_eq. eauto.
Qed.



Lemma orHundred_numbersOnly nm gl :
  numbersOnly gl → ∃ q, orHundred (rarityFor nm gl) = JNumber q.
Proof.
  intros Hgl. unfold rarityFor.
  destruct (last (filter (λ g, gp_name g = nm) gl)) as [g|] eqn:Hlast; simpl;
    [|by eexists].
  assert (g ∈ gl) as Hin.
  { apply last_Some_elem_of in Hlast. by apply list_elem_of_filter in Hlast as [_ ?]. }
  unfold numbersOnly in Hgl. rewrite Forall_forall in Hgl.
  destruct (Hgl g Hin) as [->|[q ->]]; by eexists.
Qed.

(** C2, as the code has it.  In the achievements list of a 200 answer, for
    every adjacent pair (a, b): b is achieved only if a is (achieved ones
    come first); when both have the same achieved flag, the percent of a is
    at most that of b, a percent that is not a number counting as 100; so
    when the rarities listed are numbers, percent a <= percent b.  The
    records that share an achieved flag and a percent stand in the order in
    which the schema lists their definitions, and so do all those that
    share an achieved flag and a percent so counted. *)
Theorem returned_list_order env w pl sc gn gl :
  requestData env w = Some (pl, sc, gn, gl) →
  ∃ steamId achs,
    (GET env w).1 = {| status := 200; body := AchievementsBody gn steamId achs |} ∧
    (∀ i a b, achs !! i = Some a → achs !! S i = Some b →
       (achieved b = true → achieved a = true) ∧
       (achieved a = achieved b →
          (numberOr100 (percent a) ≤ numberOr100 (percent b))%Qc ∧
          (numbersOnly gl → percentAscending a b))) ∧
    (∀ flag v,
       filter (λ c, achieved c = flag ∧ percent c = v) achs =
       filter (λ c, achieved c = flag ∧ percent c = v)
         (combinedAchievements sc pl gl)) ∧
    (∀ flag p,
       filter (λ c, achieved c = flag ∧ numberOr100 (percent c) = p) achs =
       filter (λ c, achieved c = flag ∧ numberOr100 (percent c) = p)
         (combinedAchievements sc pl gl)) ∧
    base <$> combinedAchievements sc pl gl = sc.
Proof.
  intros (steamId & _ & Hget)%GET_requestData.
  exists steamId, (sortedAchievements sc pl gl).
  split; [done|]. split; [|split; [|split]].
  - intros i a b Ha Hb.
    assert (before compareFn a b) as Hab.
    { eapply Sorted_adjacent; [|done..].
      apply js_sort_sorted, compareFn_total. }
    assert (∀ c, c ∈ sortedAchievements sc pl gl → joined pl gl c) as Hjoined.
    { intros c Hc. pose proof (combinedAchievements_joined sc pl gl) as Hall.
      rewrite Forall_forall in Hall. apply Hall.
      by rewrite <-(sortedAchievements_perm sc pl gl). }
    apply compareFn_before in Hab as [[-> ->]|[-> Hle]]; split; auto; try done.
    intros _. split; [done|]. intros Hgl.
    destruct (Hjoined a) as (_ & _ & Hpa); [by eapply list_elem_of_lookup_2|].
    destruct (Hjoined b) as (_ & _ & Hpb); [by eapply list_elem_of_lookup_2|].
    destruct (orHundred_numbersOnly (name (base a)) gl Hgl) as [p Hp].
    destruct (orHundred_numbersOnly (name (base b)) gl Hgl) as [q Hq].
    exists p, q. rewrite Hpa, Hpb, Hp, Hq in *. done.
  - intros flag v. apply js_sort_filter.
    intros x y [Hx Hpx] [Hy Hpy]. apply compareFn_before. right.
    split; [congruence|]. rewrite Hpx, Hpy. apply Qcle_refl.
  - intros flag p. apply js_sort_filter.
    intros x y [Hx Hpx] [Hy Hpy]. apply compareFn_before. right.
    split; [congruence|]. rewrite Hpx, Hpy. apply Qcle_refl.
  - apply combinedAchievements_base.
Qed.

Lemma returned_list_order_witness :
  ∃ steamId achs,
    (GET env570 freshWorld).1 =
      {| status := 200; body := AchievementsBody "Dota 2" steamId achs |} ∧
    (∀ i a b, achs !! i = Some a → achs !! S i = Some b →
       (achieved b = true → achieved a = true) ∧
       (achieved a = achieved b →
          (numberOr100 (percent a) ≤ numberOr100 (percent b))%Qc ∧
          (numbersOnly rarity570 → percentAscending a b))) ∧
    (∀ flag v,
       filter (λ c, achieved c = flag ∧ percent c = v) achs =
       filter (λ c, achieved c = flag ∧ percent c = v)
         (combinedAchievements schema570 players570 rarity570)) ∧
    (∀ flag p,
       filter (λ c, achieved c = flag ∧ numberOr100 (percent c) = p) achs =
       filter (λ c, achieved c = flag ∧ numberOr100 (percent c) = p)
         (combinedAchievements schema570 players570 rarity570)) ∧
    base <$> combinedAchievements schema570 players570 rarity570 = schema570.
Proof.
  apply (returned_list_order env570 freshWorld players570 schema570 "Dota 2" rarity570).
  vm_compute. reflexivity.
Defined.

(** The list of that scenario: the two unlocked achievements first, level
    at 30 and in schema order; then the locked ones by rarity, the one
    without a listed rarity last, at 100. *)
Example scenario_570_response :
  (GET env570 freshWorld).1 =
    {| status := 200;
       body := AchievementsBody "Dota 2" "76561198000000000"
         [{| base := definition440 "FIRST_WIN"; achieved := true;
             unlocktime := 1700000000; percent := JNumber (Qc_of_Z 30) |};
          {| base := definition440 "TEN_WINS"; achieved := true;
             unlocktime := 1700000500; percent := JNumber (Qc_of_Z 30) |};
          {| base := definition440 "RAMPAGE"; achieved := false;
             unlocktime := 0; percent := JNumber (Qc_of_Z 40) |};
          {| base := definition440 "FIRST_BLOOD"; achieved := false;
             unlocktime := 0; percent := JNumber (Qc_of_Z 80) |};
          {| base := definition440 "ALL_HEROES"; achieved := false;
             unlocktime := 0; percent := JNumber (Qc_of_Z 100) |}] |}.
Proof. vm_compute. reflexivity. Qed.

(** C2 as stated does not hold of every returned list: [percent] is not
    checked to be a number.  When Steam lists the rarities as strings, every
    percent counts as 100 in the comparator and the list stays in schema
    order, the text "80" before the text "40".  With one rarity a string
    and one a number, the number 50 comes before the text "10". *)
Lemma percent_order_counterexample :
  ((GET env440Strings freshWorld).1 =
     {| status := 200;
        body := AchievementsBody "Team Fortress 2" "76561198000000000"
          [{| base := definition440 "TF_PLAY_GAME"; achieved := false;
              unlocktime := 0; percent := JString "80" |};
           {| base := definition440 "TF_GET_KILL"; achieved := false;
              unlocktime := 0; percent := JString "40" |}] |} ∧
   ¬ percentAscending
       {| base := definition440 "TF_PLAY_GAME"; achieved := false;
          unlocktime := 0; percent := JString "80" |}
       {| base := definition440 "TF_GET_KILL"; achieved := false;
          unlocktime := 0; percent := JString "40" |}) ∧
  ((GET env440Mixed freshWorld).1 =
     {| status := 200;
        body := AchievementsBody "Team Fortress 2" "76561198000000000"
          [{| base := definition440 "TF_GET_KILL"; achieved := false;
              unlocktime := 0; percent := JNumber (Qc_of_Z 50) |};
           {| base := definition440 "TF_PLAY_GAME"; achieved := false;
              unlocktime := 0; percent := JString "10" |}] |} ∧
   ¬ percentAscending
       {| base := definition440 "TF_GET_KILL"; achieved := false;
          unlocktime := 0; percent := JNumber (Qc_of_Z 50) |}
       {| base := definition440 "TF_PLAY_GAME"; achieved := false;
          unlocktime := 0; percent := JString "10" |}).
Proof.
  split; (split; [vm_compute; reflexivity|]); by intros (p & q & ? & ? & _).
Qed.

(** The two scenarios of the design document.  With rarities 80 and 40 the
    unlocked achievement comes first although it is the commoner one; with
    the rarity call answered 503 both records carry 100 and the order is
    the same. *)
Example scenario_440_response :
  (GET env440 freshWorld).1 =
    {| status := 200;
       body := AchievementsBody "Team Fortress 2" "76561198000000000"
         [{| base := definition440 "TF_PLAY_GAME"; achieved := true;
             unlocktime := 1700000000; percent := JNumber (Qc_of_Z 80) |};
          {| base := definition440 "TF_GET_KILL"; achieved := false;
             unlocktime := 0; percent := JNumber (Qc_of_Z 40) |}] |}.
Proof. vm_compute. reflexivity. Qed.

Example scenario_440_without_rarity :
  (GET env440RarityBusy freshWorld).1 =
    {| status := 200;
       body := AchievementsBody "Team Fortress 2" "76561198000000000"
         [{| base := definition440 "TF_PLAY_GAME"; achieved := true;
             unlocktime := 1700000000; percent := JNumber (Qc_of_Z 100) |};
          {| base := definition440 "TF_GET_KILL"; achieved := false;
             unlocktime := 0; percent := JNumber (Qc_of_Z 100) |}] |}.
Proof. vm_compute. reflexivity. Qed.

(** *** The read-through shape shared by the three sections *)

Lemma resolvePlayer_readThrough redis steamId appId :
  resolvePlayer redis steamId appId =
  readThrough redis (playerCacheKey steamId appId) (GetPlayerAchievements steamId appId)
    playerUpstream asPlayer PlayerPayload playerSuccess playerNotOk.
Proof. reflexivity. Qed.

Lemma resolveSchema_readThrough redis appId :
  resolveSchema redis appId =
  readThrough redis (schemaCacheKey appId) (GetSchemaForGame appId)
    schemaUpstream asSchema SchemaPayload (λ d, bool_decide (is_Some (schemaList d)))
    schemaNotOk.
Proof. reflexivity. Qed.

Lemma resolveGlobal_readThrough redis appId :
  resolveGlobal redis appId =
  readThrough redis (globalCacheKey appId) (GetGlobalAchievementPercentagesForApp appId)
    globalUpstream asGlobal GlobalPayload (λ _, true) globalNotOk.
Proof. reflexivity. Qed.

Lemma cacheLookup_eq redis key env w :
  cacheLookup redis key env w = (Value (cacheRead redis env w key), w).
Proof.
  unfold cacheLookup, cacheRead, tryCatch, redisGet. unfold_M.
  destruct redis; [|done]. simpl. by destruct (getFails env key).
Qed.

Lemma cacheStore_eq redis valid key p env w :
  cacheStore redis valid key p env w = (Value (), afterStore redis valid env key p w).
Proof.
  unfold cacheStore, afterStore, tryCatch, redisSet. unfold_M.
  destruct redis, valid; try done. simpl. by destruct (setFails env key).
Qed.

(** One section, in one equation. *)
Lemma readThrough_eq {T} redis key call (up : Env → FetchResult T) unwrap wrap valid
    notOk env w :
  readThrough redis key call up unwrap wrap valid notOk env w =
  match cacheRead redis env w key with
  | Some p => (Value (unwrap p), w)
  | None =>
      match up env with
      | NetworkError => (Throw, logCall call w)
      | Responded st b =>
          if ok st then
            match b with
            | Some d =>
                (Value d, afterStore redis (valid d) env key (wrap d) (logCall call w))
            | None => (Throw, logCall call w)
            end
          else notOk st b env (logCall call w)
      end
  end.
Proof.
  unfold readThrough. unfold mbind at 1. unfold M_bind.
  rewrite cacheLookup_eq. destruct (cacheRead redis env w key) as [p|]; [done|].
  unfold mbind at 1. unfold M_bind, fetch.
  destruct (up env) as [|st b]; [done|].
  destruct (ok st); simpl; [|by destruct (notOk st b env _) as [[]]].
  destruct b as [d|]; simpl; [|done].
  unfold mbind, M_bind, mret, M_ret. by rewrite cacheStore_eq.
Qed.

(** *** [GET] once the three guards have passed *)

Lemma connectRedis_eq env w : connectRedis env w = (redisUp env w, connected env w).
Proof.
  unfold connected, connectRedis, redisUp, getRedisClient.
  by destruct (redisClient w && isOpen env), (connectOk env).
Qed.

Lemma connected_store env w : store (connected env w) = store w.
Proof.
  unfold connected, connectRedis, getRedisClient.
  by destruct (redisClient w && isOpen env), (connectOk env).
Qed.

Lemma connected_calls env w : upstreamCalls (connected env w) = upstreamCalls w.
Proof.
  unfold connected, connectRedis, getRedisClient.
  by destruct (redisClient w && isOpen env), (connectOk env).
Qed.

Lemma GET_eq env w steamId appId key :
  truthy (cookieSteamId env) = Some steamId →
  truthy (paramAppId env) = Some appId →
  truthy (STEAM_API_KEY env) = Some key →
  GET env w =
    (answer (handle (redisUp env w) steamId appId env (connected env w)).1,
     (handle (redisUp env w) steamId appId env (connected env w)).2).
Proof.
  intros Hs Ha Hk. unfold GET. rewrite Hs, Ha, Hk, connectRedis_eq.
  by destruct (handle _ _ _ _ _) as [[r|r|] w2].
Qed.

(** The cache reads of a request look at the store it started with. *)
Lemma cacheRead_store redis env w w' key :
  store w' !! key = store w !! key →
  cacheRead redis env w' key = cacheRead redis env w key.
Proof. intros H. unfold cacheRead, cached. by rewrite H. Qed.

Lemma cacheRead_connected redis env w key :
  cacheRead redis env (connected env w) key = cacheRead redis env w key.
Proof. apply cacheRead_store. by rewrite connected_store. Qed.

(** C8.  When the player-achievements call is answered (with any HTTP
    status) by a body that reports failure with a reason, that is
    [success = false] and a non-empty [message], the request ends with status
    404 and that reason as its message. *)
Theorem profile_unreadable_is_404 env w steamId appId key st d ps reason :
  truthy (cookieSteamId env) = Some steamId →
  truthy (paramAppId env) = Some appId →
  truthy (STEAM_API_KEY env) = Some key →
  cacheRead (redisUp env w) env w (playerCacheKey steamId appId) = None →
  playerUpstream env = Responded st (Some d) →
  playerstats d = Some ps →
  success ps = false →
  truthy (message ps) = Some reason →
  (GET env w).1 = {| status := 404; body := Message (Text reason) |} ∧
  ¬ (500 ≤ status (GET env w).1 ≤ 599).
Proof.
  intros Hs Ha Hk Hmiss Hup Hps Hfail Hmsg.
  assert ((GET env w).1 = {| status := 404; body := Message (Text reason) |}) as ->.
  2: { split; [done|]. simpl. lia. }
  rewrite (GET_eq env w steamId appId key) by done. simpl.
  unfold handle. unfold mbind at 1. unfold M_bind.
  rewrite resolvePlayer_readThrough, readThrough_eq, cacheRead_connected, Hmiss, Hup.
  destruct (ok st).
  - unfold mbind at 1. unfold M_bind, validatePlayer.
    unfold afterStore, playerSuccess. rewrite Hps, Hfail, andb_false_r. simpl.
    by rewrite Hmsg.
  - unfold playerNotOk, reportedReason. simpl. rewrite Hps. simpl.
    by rewrite Hfail, Hmsg.
Qed.

Lemma profile_unreadable_is_404_witness :
  (GET envPrivate freshWorld).1 =
    {| status := 404; body := Message (Text "Profile is not public") |} ∧
  ¬ (500 ≤ status (GET envPrivate freshWorld).1 ≤ 599).
Proof.
  apply (profile_unreadable_is_404 envPrivate freshWorld "76561198000000000" "440" "key"
           403 privateProfile
           {| steamID := None; ps_gameName := None; ps_achievements := None;
              success := false; message := Some "Profile is not public" |}
           "Profile is not public"); reflexivity.
Defined.

(** *** What a section leaves of the world *)

Lemma key_player_schema steamId appId appId' :
  playerCacheKey steamId appId ≠ schemaCacheKey appId'.
Proof. done. Qed.

Lemma key_player_global steamId appId appId' :
  playerCacheKey steamId appId ≠ globalCacheKey appId'.
Proof. done. Qed.

Lemma key_schema_global appId appId' : schemaCacheKey appId ≠ globalCacheKey appId'.
Proof. done. Qed.

Lemma afterStore_store_ne redis valid env key p w k :
  k ≠ key → store (afterStore redis valid env key p w) !! k = store w !! k.
Proof.
  intros Hne. unfold afterStore.
  destruct (redis && valid && negb (setFails env key)); [|done].
  simpl. by rewrite lookup_insert_ne.
Qed.

Lemma afterStore_calls redis valid env key p w :
  upstreamCalls (afterStore redis valid env key p w) = upstreamCalls w.
Proof. unfold afterStore. by destruct (redis && valid && negb (setFails env key)). Qed.

(** A section writes at most its own key, logs at most its own call, and
    does neither when its lookup finds a payload. *)
Lemma readThrough_frame {T} redis key call (up : Env → FetchResult T) unwrap wrap valid
    notOk env w :
  (∀ st b e v, (notOk st b e v).2 = v) →
  let w' := (readThrough redis key call up unwrap wrap valid notOk env w).2 in
  (∀ k, k ≠ key → store w' !! k = store w !! k) ∧
  (upstreamCalls w' = upstreamCalls w ∨ upstreamCalls w' = call :: upstreamCalls w) ∧
  (is_Some (cacheRead redis env w key) → w' = w).
Proof.
  intros HnotOk. simpl. rewrite readThrough_eq.
  destruct (cacheRead redis env w key) as [p|]; simpl; [by auto|].
  destruct (up env) as [|st b]; [|destruct (ok st); [destruct b as [d|]|]]; simpl;
    rewrite ?HnotOk;
    (split; [intros k Hk; by rewrite ?afterStore_store_ne by done
            |split; [right; by rewrite ?afterStore_calls|by intros [? ?]]]).
Qed.

Lemma passOn_world {A} st b e v : (passOn (A := A) st b e v).2 = v.
Proof. unfold passOn. by destruct (responseStatusOk st). Qed.

Lemma playerNotOk_world st b e v : (playerNotOk st b e v).2 = v.
Proof.
  unfold playerNotOk. destruct (reportedReason b); [done|apply passOn_world].
Qed.

Lemma schemaNotOk_world st b e v : (schemaNotOk st b e v).2 = v.
Proof. apply passOn_world. Qed.

Lemma globalNotOk_world st b e v : (globalNotOk st b e v).2 = v.
Proof. done. Qed.

Lemma validatePlayer_world d env w : (validatePlayer d env w).2 = w.
Proof.
  unfold validatePlayer. destruct (playerstats d) as [ps|]; [|done].
  by destruct (success ps).
Qed.

Lemma validateSchema_world d env w : (validateSchema d env w).2 = w.
Proof.
  unfold validateSchema. destruct (game d) as [g|]; [|done].
  by destruct (availableGameStats g).
Qed.

Lemma validatePlayer_success d env w :
  playerSuccess d = true →
  ∃ pl, validatePlayer d env w = (Value pl, w).
Proof.
  unfold playerSuccess, validatePlayer. destruct (playerstats d) as [ps|]; [|done].
  intros ->. eauto.
Qed.

Lemma validateSchema_no_list d env w :
  schemaList d = None →
  validateSchema d env w =
    (Return {| status := 500; body := Message (Text "Failed to parse game schema data.") |},
     w).
Proof.
  unfold schemaList, validateSchema. destruct (game d) as [g|]; [|done]. simpl.
  by destruct (availableGameStats g).
Qed.

(** The player section, when the request has a player body to work with. *)
Lemma resolvePlayer_body env w steamId appId pd :
  playerBody env w steamId appId = Some pd →
  ∃ w', resolvePlayer (redisUp env w) steamId appId env (connected env w) = (Value pd, w') ∧
        ∀ k, k ≠ playerCacheKey steamId appId → store w' !! k = store w !! k.
Proof.
  intros Hbody.
  pose proof (readThrough_frame (redisUp env w) (playerCacheKey steamId appId)
    (GetPlayerAchievements steamId appId) playerUpstream asPlayer PlayerPayload
    playerSuccess playerNotOk env (connected env w) playerNotOk_world) as (Hst & _ & _).
  rewrite <-resolvePlayer_readThrough in Hst.
  exists (resolvePlayer (redisUp env w) steamId appId env (connected env w)).2.
  split; [|by intros k Hk; rewrite Hst, connected_store].
  rewrite resolvePlayer_readThrough in *. rewrite readThrough_eq, cacheRead_connected.
  unfold playerBody, bodyFor in Hbody.
  destruct (cacheRead _ _ _ _) as [p|]; simpl; [by simplify_eq|].
  destruct (playerUpstream env) as [|st [d|]]; try done.
  destruct (ok st); by simplify_eq.
Qed.

(** C9.  When the schema body the request works with has no achievement
    list, the request ends with status 500 and an error message: it returns
    no achievements. *)
Theorem schema_without_list_is_500 env w steamId appId key pd sd :
  truthy (cookieSteamId env) = Some steamId →
  truthy (paramAppId env) = Some appId →
  truthy (STEAM_API_KEY env) = Some key →
  playerBody env w steamId appId = Some pd →
  playerSuccess pd = true →
  schemaBody env w appId = Some sd →
  schemaList sd = None →
  (GET env w).1 =
    {| status := 500; body := Message (Text "Failed to parse game schema data.") |}.
Proof.
  intros Hs Ha Hk Hpd Hok Hsd Hlist.
  rewrite (GET_eq env w steamId appId key) by done. simpl.
  destruct (resolvePlayer_body env w steamId appId pd Hpd) as (w1 & Hplayer & Hst).
  unfold handle. unfold mbind at 1. unfold M_bind. rewrite Hplayer.
  unfold mbind at 1. unfold M_bind.
  destruct (validatePlayer_success pd env w1 Hok) as [pl ->].
  unfold mbind at 1. unfold M_bind.
  rewrite resolveSchema_readThrough, readThrough_eq.
  rewrite (cacheRead_store _ _ w w1) by (apply Hst; done).
  unfold schemaBody, bodyFor in Hsd.
  destruct (cacheRead _ _ _ _) as [p|]; simpl.
  - simplify_eq. unfold mbind at 1. unfold M_bind.
    by rewrite validateSchema_no_list.
  - destruct (schemaUpstream env) as [|st [d|]]; try done.
    destruct (ok st); [|done]. simplify_eq.
    unfold mbind at 1. unfold M_bind. by rewrite validateSchema_no_list.
Qed.

Lemma schema_without_list_is_500_witness :
  (GET envNoStats freshWorld).1 =
    {| status := 500; body := Message (Text "Failed to parse game schema data.") |}.
Proof.
  apply (schema_without_list_is_500 envNoStats freshWorld "76561198000000000" "440" "key"
           playerBody440
           {| game := Some {| gameName := "Team Fortress 2"; gameVersion := "1";
                              availableGameStats := None |} |}); reflexivity.
Defined.

(** *** Two runs side by side *)

Lemma sim_bind {A B} (P Q R : World → World → Prop) (m m' : M A) (f f' : A → M B)
    env env' :
  simM P Q m m' env env' →
  (∀ a, simM Q R (f a) (f' a) env env') →
  (∀ w w', Q w w' → R w w') →
  simM P R (m ≫= f) (m' ≫= f') env env'.
Proof.
  intros Hm Hf HQR w w' HP. destruct (Hm w w' HP) as [Ho Hw].
  unfold mbind, M_bind.
  destruct (m env w) as [o v], (m' env' w') as [o' v']; simpl in *. subst o'.
  destruct o as [a| |]; simpl; [by apply Hf|by auto..].
Qed.

Lemma readThrough_sim {T} redis redis' key call (up : Env → FetchResult T) unwrap wrap
    valid notOk env env' ks B B' :
  up env = up env' →
  (∀ st b e v e' v', (notOk st b e v).1 = (notOk st b e' v').1) →
  (∀ st b e v, (notOk st b e v).2 = v) →
  key ∉ ks →
  simM (λ w w', sameNewCalls B B' w w' ∧ bothMiss redis redis' env env' (key :: ks) w w')
       (λ w w', sameNewCalls B B' w w' ∧ bothMiss redis redis' env env' ks w w')
       (readThrough redis key call up unwrap wrap valid notOk)
       (readThrough redis' key call up unwrap wrap valid notOk) env env'.
Proof.
  intros Hup Hout Hworld Hkey w w' [(calls & Hc & Hc') Hmiss].
  pose proof (readThrough_frame redis key call up unwrap wrap valid notOk env w Hworld)
    as (Hst & _ & _).
  pose proof (readThrough_frame redis' key call up unwrap wrap valid notOk env' w' Hworld)
    as (Hst' & _ & _).
  simpl in Hst, Hst'.
  assert (bothMiss redis redis' env env' ks
            (readThrough redis key call up unwrap wrap valid notOk env w).2
            (readThrough redis' key call up unwrap wrap valid notOk env' w').2) as Hks.
  { intros k Hk. assert (k ≠ key) by (by intros ->).
    rewrite (cacheRead_store redis env w _ k (Hst k H)).
    rewrite (cacheRead_store redis' env' w' _ k (Hst' k H)).
    apply Hmiss. by apply elem_of_cons; right. }
  destruct (Hmiss key) as [Hm Hm']; [by apply elem_of_cons; left|].
  revert Hks. rewrite !readThrough_eq, Hm, Hm', <-Hup.
  assert (sameNewCalls B B' (logCall call w) (logCall call w')) as Hlog.
  { exists (call :: calls). simpl. by rewrite Hc, Hc'. }
  destruct (up env) as [|st b]; simpl; [done|].
  destruct (ok st); [destruct b as [d|]; simpl; [|done]|].
  - intros Hks. split; [done|]. split; [|done].
    exists (call :: calls). by rewrite !afterStore_calls; simpl; rewrite Hc, Hc'.
  - intros Hks. split; [apply Hout|]. split; [|done]. by rewrite !Hworld.
Qed.

Lemma validatePlayer_sim d env env' (P : World → World → Prop) :
  simM P P (validatePlayer d) (validatePlayer d) env env'.
Proof.
  intros w w' HP. rewrite !validatePlayer_world. split; [|done].
  unfold validatePlayer. destruct (playerstats d) as [ps|]; [|done].
  by destruct (success ps).
Qed.

Lemma validateSchema_sim d env env' (P : World → World → Prop) :
  simM P P (validateSchema d) (validateSchema d) env env'.
Proof.
  intros w w' HP. rewrite !validateSchema_world. split; [|done].
  unfold validateSchema. destruct (game d) as [g|]; [|done].
  by destruct (availableGameStats g).
Qed.

Lemma passOn_outcome {A} st b e v e' v' :
  (passOn (A := A) st b e v).1 = (passOn st b e' v').1.
Proof. unfold passOn. by destruct (responseStatusOk st). Qed.

Lemma playerNotOk_outcome st b e v e' v' :
  (playerNotOk st b e v).1 = (playerNotOk st b e' v').1.
Proof.
  unfold playerNotOk. destruct (reportedReason b); [done|apply passOn_outcome].
Qed.

Lemma schemaNotOk_outcome st b e v e' v' :
  (schemaNotOk st b e v).1 = (schemaNotOk st b e' v').1.
Proof. apply passOn_outcome. Qed.

(** With every lookup missing on both sides, two runs of the outer [try] on
    the same inputs and upstream answers end alike. *)
Lemma handle_sim redis redis' steamId appId env env' B B' :
  playerUpstream env = playerUpstream env' →
  schemaUpstream env = schemaUpstream env' →
  globalUpstream env = globalUpstream env' →
  simM (λ w w', sameNewCalls B B' w w' ∧
                bothMiss redis redis' env env'
                  [playerCacheKey steamId appId; schemaCacheKey appId; globalCacheKey appId]
                  w w')
       (sameNewCalls B B')
       (handle redis steamId appId) (handle redis' steamId appId) env env'.
Proof.
  intros Hp Hs Hg. unfold handle.
  eapply sim_bind; [|intros pd|].
  { rewrite !resolvePlayer_readThrough.
    apply readThrough_sim;
      [done|apply playerNotOk_outcome|apply playerNotOk_world|].
    rewrite !not_elem_of_cons.
    split; [apply key_player_schema|split; [apply key_player_global|apply not_elem_of_nil]]. }
  2: { by intros w w' [? _]. }
  eapply sim_bind; [apply validatePlayer_sim|intros pl|by intros w w' [? _]].
  eapply sim_bind; [|intros sd|].
  { rewrite !resolveSchema_readThrough.
    apply readThrough_sim;
      [done|apply schemaNotOk_outcome|apply schemaNotOk_world|].
    rewrite !not_elem_of_cons. split; [apply key_schema_global|apply not_elem_of_nil]. }
  2: { by intros w w' [? _]. }
  eapply sim_bind; [apply validateSchema_sim|intros [sc gn]|by intros w w' [? _]].
  eapply sim_bind; [|intros gd|].
  { rewrite !resolveGlobal_readThrough.
    apply readThrough_sim; [done|done|done|apply not_elem_of_nil]. }
  2: { by intros w w' [? _]. }
  by intros w w' [? _].
Qed.

(** C4.  A request served while the cache is down (the connection fails, or
    every get and set fails) gets exactly the response, and makes exactly
    the upstream calls, of the same request served by a working cache in
    which every lookup misses. *)
Theorem cache_failure_is_cache_miss envDown wDown envMiss wMiss :
  sameRequest envDown envMiss →
  cacheDown envDown wDown →
  allMiss envMiss wMiss →
  (GET envDown wDown).1 = (GET envMiss wMiss).1 ∧
  sameNewCalls (upstreamCalls wDown) (upstreamCalls wMiss)
    (GET envDown wDown).2 (GET envMiss wMiss).2.
Proof.
  intros (Hc & Ha & Hk & Hp & Hs & Hg) Hdown (Hup & Hworks & Hempty).
  assert (sameNewCalls (upstreamCalls wDown) (upstreamCalls wMiss) wDown wMiss) as Hsame
    by (by exists []).
  unfold GET. rewrite <-Hc, <-Ha, <-Hk.
  destruct (truthy (cookieSteamId envDown)) as [steamId|]; [|done].
  destruct (truthy (paramAppId envDown)) as [appId|]; [|done].
  destruct (truthy (STEAM_API_KEY envDown)) as [key|]; [|done].
  rewrite !connectRedis_eq.
  destruct (handle_sim (redisUp envDown wDown) (redisUp envMiss wMiss) steamId appId
              envDown envMiss (upstreamCalls wDown) (upstreamCalls wMiss) Hp Hs Hg
              (connected envDown wDown) (connected envMiss wMiss)) as [Ho Hw].
  { split.
    - exists []. by rewrite !connected_calls.
    - intros k _. rewrite !cacheRead_connected. split.
      + unfold cacheRead. destruct Hdown as [->|Hfail]; [done|].
        destruct (Hfail k) as [-> _]. by rewrite andb_false_r.
      + unfold cacheRead. rewrite Hempty. by destruct (_ && _). }
  destruct (handle _ _ _ envDown _) as [o v], (handle _ _ _ envMiss _) as [o' v'].
  simpl in *. subst o'. by destruct o.
Qed.

Lemma cache_failure_is_cache_miss_witness :
  (GET env440Down freshWorld).1 = (GET env440 freshWorld).1 ∧
  sameNewCalls (upstreamCalls freshWorld) (upstreamCalls freshWorld)
    (GET env440Down freshWorld).2 (GET env440 freshWorld).2.
Proof.
  apply (cache_failure_is_cache_miss env440Down freshWorld env440 freshWorld).
  - repeat split; reflexivity.
  - left. reflexivity.
  - split; [reflexivity|]. split; [intros k; split; reflexivity|].
    intros k. unfold cached. simpl. by rewrite lookup_empty.
Defined.

(** *** The cache round trip *)








(** *** The rarity section *)

(** C3, at the inputs where the code departs from it.  With the player and
    schema calls answered well, a rarity call that fails in transport, or
    whose body is not JSON, makes the whole request end in the outer [catch]
    with status 500. *)
Theorem rarity_exception_fails_request :
  (GET env440RarityUnreachable freshWorld).1 = internalError ∧
  (GET env440RarityGarbled freshWorld).1 = internalError ∧
  status internalError = 500.
Proof. repeat split; vm_compute; reflexivity. Qed.

(** A section that has a body to work with yields it. *)
Lemma readThrough_body {T} redis key call (up : Env → FetchResult T) unwrap wrap valid
    notOk env w d :
  (∀ st b e v, (notOk st b e v).2 = v) →
  bodyFor (cacheRead redis env w key) unwrap (up env) = Some d →
  ∃ w', readThrough redis key call up unwrap wrap valid notOk env w = (Value d, w') ∧
        ∀ k, k ≠ key → store w' !! k = store w !! k.
Proof.
  intros Hworld Hbody.
  destruct (readThrough_frame redis key call up unwrap wrap valid notOk env w Hworld)
    as (Hst & _ & _).
  exists (readThrough redis key call up unwrap wrap valid notOk env w).2.
  split; [|done]. clear Hst. rewrite readThrough_eq. unfold bodyFor in Hbody.
  destruct (cacheRead redis env w key) as [p|]; simpl; [by simplify_eq|].
  destruct (up env) as [|st [b|]]; try done.
  destruct (ok st); by simplify_eq.
Qed.

Lemma resolveGlobal_unavailable redis appId env w :
  cacheRead redis env w (globalCacheKey appId) = None →
  rarityUnavailable (globalUpstream env) →
  ∃ gd w', resolveGlobal redis appId env w = (Value gd, w') ∧ globalList gd = [].
Proof.
  intros Hmiss Hdown. rewrite resolveGlobal_readThrough, readThrough_eq, Hmiss.
  unfold rarityUnavailable in Hdown.
  destruct (globalUpstream env) as [|st b]; [done|].
  destruct Hdown as [->|(-> & d & -> & Hnone)]; simpl.
  - by eexists _, _.
  - eexists _, _. split; [done|]. unfold globalList. by rewrite Hnone.
Qed.

Lemma combinedAchievements_no_rarity sc pl :
  Forall (λ c, percent c = JNumber hundred) (combinedAchievements sc pl []).
Proof. unfold combinedAchievements. by apply Forall_fmap, Forall_true. Qed.

(** X1.  The soft failure of the rarity section, where the code has it: when the
    rarity call is answered with a status that is not OK, or with a body
    without the list, a request with a readable profile and a schema still
    answers 200, one record per definition, each with percent 100. *)
Theorem rarity_unavailable_degrades env w steamId appId key pd sd g ags :
  truthy (cookieSteamId env) = Some steamId →
  truthy (paramAppId env) = Some appId →
  truthy (STEAM_API_KEY env) = Some key →
  playerBody env w steamId appId = Some pd →
  playerSuccess pd = true →
  schemaBody env w appId = Some sd →
  game sd = Some g →
  availableGameStats g = Some ags →
  cacheRead (redisUp env w) env w (globalCacheKey appId) = None →
  rarityUnavailable (globalUpstream env) →
  ∃ achs,
    (GET env w).1 =
      {| status := 200; body := AchievementsBody (gameName g) steamId achs |} ∧
    length achs = length (ags_achievements ags) ∧
    Forall (λ c, percent c = JNumber hundred) achs.
Proof.
  intros Hs Ha Hk Hpd Hok Hsd Hg Hags Hmiss Hdown.
  rewrite (GET_eq env w steamId appId key) by done. simpl.
  destruct (resolvePlayer_body env w steamId appId pd Hpd) as (w1 & Hplayer & Hst1).
  unfold handle. unfold mbind at 1. unfold M_bind. rewrite Hplayer.
  unfold mbind at 1. unfold M_bind.
  destruct (validatePlayer_success pd env w1 Hok) as [pl ->].
  unfold mbind at 1. unfold M_bind.
  destruct (readThrough_body (redisUp env w) (schemaCacheKey appId)
              (GetSchemaForGame appId) schemaUpstream asSchema SchemaPayload
              (λ d, bool_decide (is_Some (schemaList d))) schemaNotOk env w1 sd
              schemaNotOk_world) as (w2 & Hschema & Hst2).
  { rewrite (cacheRead_store _ _ w w1) by (apply Hst1; done). exact Hsd. }
  rewrite resolveSchema_readThrough, Hschema.
  unfold mbind at 1. unfold M_bind. unfold validateSchema at 1. rewrite Hg, Hags.
  unfold mret at 1. unfold M_ret. unfold mbind at 1. unfold M_bind.
  destruct (resolveGlobal_unavailable (redisUp env w) appId env w2)
    as (gd & w3 & -> & Hnil); [|done|].
  { rewrite (cacheRead_store _ _ w1 w2) by (apply Hst2; apply not_eq_sym, key_schema_global).
    by rewrite (cacheRead_store _ _ w w1) by (apply Hst1; apply not_eq_sym, key_player_global). }
  simpl. rewrite Hnil. eexists. split; [done|].
  pose proof (sortedAchievements_perm (ags_achievements ags) pl []) as Hperm.
  split.
  - rewrite Hperm. unfold combinedAchievements. apply length_fmap.
  - rewrite Hperm. apply combinedAchievements_no_rarity.
Qed.

Lemma rarity_unavailable_degrades_witness :
  ∃ achs,
    (GET env440RarityBusy freshWorld).1 =
      {| status := 200;
         body := AchievementsBody "Team Fortress 2" "76561198000000000" achs |} ∧
    length achs = length schema440 ∧
    Forall (λ c, percent c = JNumber hundred) achs.
Proof.
  apply (rarity_unavailable_degrades env440RarityBusy freshWorld "76561198000000000"
           "440" "key" playerBody440 schemaBody440
           {| gameName := "Team Fortress 2"; gameVersion := "1";
              availableGameStats := Some {| ags_achievements := schema440 |} |}
           {| ags_achievements := schema440 |}); try reflexivity.
  left. reflexivity.
Defined.

(** *** What a successful request leaves in the cache *)

Lemma cacheRead_allMiss redis env w w' key :
  allMiss env w → store w' !! key = store w !! key →
  cacheRead redis env w' key = None.
Proof.
  intros (_ & _ & Hempty) Hst. rewrite (cacheRead_store _ _ w w' key Hst).
  unfold cacheRead. rewrite Hempty. by destruct (_ && _).
Qed.

(** X2.  With a working cache that holds nothing live, a request whose three
    upstream calls are answered well (OK status; a player body reporting
    success, a schema body with a list, any rarity body) makes each call
    once and leaves each body in the store under its key, [playerAch:id:app],
    [schema:app] and [globalAch:app], to expire 3600 seconds later. *)
Theorem successful_fetch_is_cached env w steamId appId key st1 pd st2 sd st3 gd :
  truthy (cookieSteamId env) = Some steamId →
  truthy (paramAppId env) = Some appId →
  truthy (STEAM_API_KEY env) = Some key →
  allMiss env w →
  playerUpstream env = Responded st1 (Some pd) → ok st1 = true → playerSuccess pd = true →
  schemaUpstream env = Responded st2 (Some sd) → ok st2 = true → is_Some (schemaList sd) →
  globalUpstream env = Responded st3 (Some gd) → ok st3 = true →
  playerCacheKey steamId appId = "playerAch:" +:+ steamId +:+ ":" +:+ appId ∧
  schemaCacheKey appId = "schema:" +:+ appId ∧
  globalCacheKey appId = "globalAch:" +:+ appId ∧
  store (GET env w).2 !! playerCacheKey steamId appId = Some (PlayerPayload pd, now env + 3600) ∧
  store (GET env w).2 !! schemaCacheKey appId = Some (SchemaPayload sd, now env + 3600) ∧
  store (GET env w).2 !! globalCacheKey appId = Some (GlobalPayload gd, now env + 3600) ∧
  upstreamCalls (GET env w).2 =
    [GetGlobalAchievementPercentagesForApp appId; GetSchemaForGame appId;
     GetPlayerAchievements steamId appId] ++ upstreamCalls w.
Proof.
  intros Hs Ha Hk Hmiss Hp Hok1 Hsucc Hsc Hok2 Hlist Hgl Hok3.
  do 3 (split; [done|]).
  pose proof Hmiss as (Hup & Hworks & _).
  assert (∀ k, setFails env k = false) as Hset by (intros k; apply Hworks).
  pose proof (key_player_schema steamId appId appId) as Hps.
  pose proof (key_player_global steamId appId appId) as Hpg.
  pose proof (key_schema_global appId appId) as Hsg.
  rewrite (GET_eq env w steamId appId key) by done. simpl.
  assert (∃ o, handle (redisUp env w) steamId appId env (connected env w) =
    (o, putStore (globalCacheKey appId) (GlobalPayload gd) (now env + CACHE_TTL_SECONDS)
          (logCall (GetGlobalAchievementPercentagesForApp appId)
       (putStore (schemaCacheKey appId) (SchemaPayload sd) (now env + CACHE_TTL_SECONDS)
          (logCall (GetSchemaForGame appId)
       (putStore (playerCacheKey steamId appId) (PlayerPayload pd)
          (now env + CACHE_TTL_SECONDS)
          (logCall (GetPlayerAchievements steamId appId) (connected env w))))))))
    as [o ->].
  { rewrite Hup. unfold handle. unfold mbind at 1. unfold M_bind.
    rewrite resolvePlayer_readThrough, readThrough_eq.
    rewrite (cacheRead_allMiss _ env w) by (done || by rewrite connected_store).
    rewrite Hp, Hok1. unfold afterStore at 1. rewrite Hsucc, Hset. simpl.
    unfold mbind at 1. unfold M_bind.
    destruct (validatePlayer_success pd env
      (putStore (playerCacheKey steamId appId) (PlayerPayload pd)
         (now env + CACHE_TTL_SECONDS)
         (logCall (GetPlayerAchievements steamId appId) (connected env w))) Hsucc)
      as [pl ->].
    unfold mbind at 1. unfold M_bind.
    rewrite resolveSchema_readThrough, readThrough_eq.
    rewrite (cacheRead_allMiss _ env w)
      by (done || by simpl; rewrite lookup_insert_ne, connected_store).
    rewrite Hsc, Hok2. unfold afterStore at 1.
    rewrite (bool_decide_true _ Hlist), Hset. simpl.
    unfold mbind at 1. unfold M_bind.
    destruct Hlist as [sc Hlist]. unfold schemaList in Hlist. unfold validateSchema at 1.
    destruct (game sd) as [g|]; [|done]. simpl in Hlist.
    destruct (availableGameStats g) as [ags|]; [|done].
    unfold mret at 1. unfold M_ret. unfold mbind at 1. unfold M_bind.
    rewrite resolveGlobal_readThrough, readThrough_eq.
    rewrite (cacheRead_allMiss _ env w)
      by (done || by simpl; rewrite !lookup_insert_ne, connected_store).
    rewrite Hgl, Hok3. unfold afterStore at 1. rewrite Hset. simpl. by eexists. }
  simpl. rewrite connected_calls. unfold CACHE_TTL_SECONDS.
  repeat split.
  - rewrite lookup_insert_ne by done. rewrite lookup_insert_ne by done.
    by rewrite lookup_insert_eq.
  - rewrite lookup_insert_ne by done. by rewrite lookup_insert_eq.
  - by rewrite lookup_insert_eq.
Qed.

Lemma successful_fetch_is_cached_witness :
  playerCacheKey "76561198000000000" "440" =
    "playerAch:" +:+ "76561198000000000" +:+ ":" +:+ "440" ∧
  schemaCacheKey "440" = "schema:" +:+ "440" ∧
  globalCacheKey "440" = "globalAch:" +:+ "440" ∧
  store (GET env440 freshWorld).2 !! playerCacheKey "76561198000000000" "440" =
    Some (PlayerPayload playerBody440, now env440 + 3600) ∧
  store (GET env440 freshWorld).2 !! schemaCacheKey "440" =
    Some (SchemaPayload schemaBody440, now env440 + 3600) ∧
  store (GET env440 freshWorld).2 !! globalCacheKey "440" =
    Some (GlobalPayload globalBody440, now env440 + 3600) ∧
  upstreamCalls (GET env440 freshWorld).2 =
    [GetGlobalAchievementPercentagesForApp "440"; GetSchemaForGame "440";
     GetPlayerAchievements "76561198000000000" "440"] ++ upstreamCalls freshWorld.
Proof.
  apply (successful_fetch_is_cached env440 freshWorld "76561198000000000" "440" "key"
           200 playerBody440 200 schemaBody440 200 globalBody440); try reflexivity.
  - split; [reflexivity|]. split; [intros k; split; reflexivity|].
    intros k. unfold cached. simpl. by rewrite lookup_empty.
  - by eexists.
Defined.

End HandlerFacts.

(** ** The worker *)

Module WorkerFacts.
Import Worker WorkerSpec Scenarios.

Lemma toBlock_min w head :
  (if bool_decide (w + BLOCKS_PER_POLL > head) then head else w + BLOCKS_PER_POLL)
  = Z.min (w + BLOCKS_PER_POLL) head.
Proof. case_bool_decide; lia. Qed.

(** One cycle, in one equation. *)
Lemma pollForEvents_eq chain lpb :
  pollForEvents chain lpb =
  match getBlockNumber chain with
  | None => {| watermark := lpb; query := None; printed := [] |}
  | Some head =>
      let w := seedOr lpb head in
      let toBlock := Z.min (w + BLOCKS_PER_POLL) head in
      if bool_decide (head ≤ w) then
        {| watermark := Some w; query := None; printed := [] |}
      else
        match getLogs chain (w + 1) toBlock with
        | None => {| watermark := Some w; query := Some (w + 1, toBlock); printed := [] |}
        | Some logs =>
            {| watermark := Some toBlock; query := Some (w + 1, toBlock);
               printed := processLogs chain logs |}
        end
  end.
Proof.
  unfold pollForEvents. destruct (getBlockNumber chain) as [head|]; [|done].
  fold (seedOr lpb head). simpl. rewrite toBlock_min.
  destruct (decide (head ≤ seedOr lpb head)).
  - rewrite !bool_decide_true by lia. done.
  - rewrite !bool_decide_false by lia. done.
Qed.

Lemma notBelow_trans a b c : notBelow a b → notBelow b c → notBelow a c.
Proof. destruct a, b, c; simpl; try done. lia. Qed.

Lemma pollForEvents_notBelow chain lpb :
  notBelow lpb (watermark (pollForEvents chain lpb)).
Proof.
  rewrite pollForEvents_eq. destruct lpb as [w|]; [|done].
  destruct (getBlockNumber chain) as [head|]; simpl; [|lia].
  case_bool_decide; simpl; [lia|].
  unfold BLOCKS_PER_POLL. destruct (getLogs _ _ _); simpl; lia.
Qed.

Lemma run_notBelow chains lpb : notBelow lpb (run chains lpb).
Proof.
  unfold run. revert lpb. induction chains as [|chain chains IH]; intros lpb; simpl.
  - destruct lpb; simpl; [lia|done].
  - eapply notBelow_trans; [apply pollForEvents_notBelow|apply IH].
Qed.

(** C6, as the code has it.  Over any sequence of cycles the watermark
    never decreases.  A cycle whose head query fails leaves it as it was.
    A cycle that learns the head works from a watermark [w], the one it was
    handed or, on a cold start, the seed, which it stores at once.  If its
    log fetch fails, the watermark is [w] afterwards.  If its log fetch
    succeeds (and w < head), the watermark is the upper bound of the window
    fetched, min (w + 500, head), afterwards, whatever [decodeEventLog] does
    with the logs; and the watermark is never anything but [w] or that upper
    bound, which lies above [w].  A cycle handed [w] that fetches at all
    fetches from [w + 1]: after a failure the next cycle retries from
    there. *)
Theorem watermark_discipline (chains : list Chain) (chain : Chain) (lpb : option Z) :
  notBelow lpb (run chains lpb) ∧
  (getBlockNumber chain = None → watermark (pollForEvents chain lpb) = lpb) ∧
  (∀ head, getBlockNumber chain = Some head →
     let w := seedOr lpb head in
     let toBlock := Z.min (w + BLOCKS_PER_POLL) head in
     (getLogs chain (w + 1) toBlock = None →
        watermark (pollForEvents chain lpb) = Some w) ∧
     (∀ logs, w < head → getLogs chain (w + 1) toBlock = Some logs →
        watermark (pollForEvents chain lpb) = Some toBlock) ∧
     (watermark (pollForEvents chain lpb) ≠ Some w →
        ∃ logs, getLogs chain (w + 1) toBlock = Some logs ∧
                watermark (pollForEvents chain lpb) = Some toBlock ∧
                w < toBlock)) ∧
  (∀ w fromBlock toBlock, lpb = Some w →
     query (pollForEvents chain lpb) = Some (fromBlock, toBlock) → fromBlock = w + 1).
Proof.
  split; [apply run_notBelow|]. rewrite pollForEvents_eq. split; [|split].
  - by intros ->.
  - intros head ->. simpl. case_bool_decide as Hle; simpl.
    { repeat split; try done. intros logs Hlt. lia. }
    destruct (getLogs _ _ _) as [logs|]; simpl; repeat split; try done.
    intros _. exists logs. split; [done|]. split; [done|].
    unfold BLOCKS_PER_POLL. lia.
  - intros w fromBlock toBlock ->.
    destruct (getBlockNumber chain) as [head|]; simpl; [|done].
    case_bool_decide; simpl; [done|].
    destruct (getLogs _ _ _); simpl; intros; by simplify_eq.
Qed.

(** C6 as stated does not hold: a failure during a cycle does not always
    leave [lastProcessedBlock] unchanged.  On a cold start, the cycle whose
    log fetch fails has already stored the seed, so the variable goes from
    absent to 900.  And a log that fails to decode is caught inside
    [processLogs]: the cycle prints nothing for it and still advances. *)
Lemma watermark_unchanged_counterexample :
  (getBlockNumber chainLogsDown = Some 1000 ∧
   getLogs chainLogsDown 901 1000 = None ∧
   pollForEvents chainLogsDown None =
     {| watermark := Some 900; query := Some (901, 1000); printed := [] |} ∧
   watermark (pollForEvents chainLogsDown None) ≠ None) ∧
  (getLogs chainBadLog 901 1000 = Some [undecodable] ∧
   decodeEventLog chainBadLog undecodable = None ∧
   pollForEvents chainBadLog (Some 900) =
     {| watermark := Some 1000; query := Some (901, 1000); printed := [] |} ∧
   watermark (pollForEvents chainBadLog (Some 900)) ≠ Some 900).
Proof. repeat split; done. Qed.

(** C7, as the code has it.  With the head known, a cycle works from the
    watermark [w] it was handed, or on a cold start from the seed: head - 100
    when the head is above 100, and 0 otherwise.  If w < head it issues one
    log query, for exactly [w + 1, min (w + 500, head)]; if head <= w it
    issues none.  Any query issued spans at least one and at most 500
    blocks and does not reach past the head. *)
Theorem poll_window chain lpb head :
  getBlockNumber chain = Some head →
  let w := seedOr lpb head in
  (lpb = None → w = Z.max (head - 100) 0) ∧
  (w < head →
     query (pollForEvents chain lpb) = Some (w + 1, Z.min (w + BLOCKS_PER_POLL) head)) ∧
  (head ≤ w → query (pollForEvents chain lpb) = None) ∧
  (∀ fromBlock toBlock, query (pollForEvents chain lpb) = Some (fromBlock, toBlock) →
     fromBlock = w + 1 ∧ toBlock = Z.min (w + BLOCKS_PER_POLL) head ∧
     1 ≤ toBlock - fromBlock + 1 ≤ 500 ∧ toBlock ≤ head).
Proof.
  intros Hhead w. rewrite pollForEvents_eq, Hhead. fold w.
  split; [|split; [|split]].
  - intros ->. unfold w, seedOr. case_bool_decide; lia.
  - intros Hlt. simpl. rewrite bool_decide_false by lia.
    by destruct (getLogs _ _ _).
  - intros Hle. simpl. by rewrite bool_decide_true.
  - intros fromBlock toBlock. simpl. case_bool_decide; [done|].
    unfold BLOCKS_PER_POLL.
    destruct (getLogs _ _ _); simpl; intros; simplify_eq; lia.
Qed.

Lemma poll_window_witness :
  let w := seedOr None 50 in
  (@None Z = None → w = Z.max (50 - 100) 0) ∧
  (w < 50 →
     query (pollForEvents chainAt50 None) = Some (w + 1, Z.min (w + BLOCKS_PER_POLL) 50)) ∧
  (50 ≤ w → query (pollForEvents chainAt50 None) = None) ∧
  (∀ fromBlock toBlock, query (pollForEvents chainAt50 None) = Some (fromBlock, toBlock) →
     fromBlock = w + 1 ∧ toBlock = Z.min (w + BLOCKS_PER_POLL) 50 ∧
     1 ≤ toBlock - fromBlock + 1 ≤ 500 ∧ toBlock ≤ 50).
Proof. apply (poll_window chainAt50 None 50). reflexivity. Defined.

(** C7 as stated does not hold on a chain of height 100 or less.  At
    height 50 the cold-start cycle does not work from 50 - 100: it queries
    blocks 1 to 50, and when that query fails the watermark it leaves is 0. *)
Lemma cold_start_seed_counterexample :
  (getBlockNumber chainAt50 = Some 50 ∧
   query (pollForEvents chainAt50 None) = Some (1, 50) ∧
   query (pollForEvents chainAt50 None) ≠ Some (50 - 100 + 1, 50)) ∧
  (getBlockNumber chainAt50LogsDown = Some 50 ∧
   watermark (pollForEvents chainAt50LogsDown None) = Some 0 ∧
   watermark (pollForEvents chainAt50LogsDown None) ≠ Some (50 - 100)).
Proof. repeat split; done. Qed.

End WorkerFacts.

(** ** Token ids *)

Module TokenIdFacts.
Import TokenId.

(** *** Hex strings and the bytes they denote *)

Lemma digitValue_hexDigit d : 0 ≤ d < 16 → digitValue (hexDigit d) = Some d.
Proof.
  intros Hd.
  assert (d = 0 ∨ d = 1 ∨ d = 2 ∨ d = 3 ∨ d = 4 ∨ d = 5 ∨ d = 6 ∨ d = 7 ∨ d = 8 ∨
          d = 9 ∨ d = 10 ∨ d = 11 ∨ d = 12 ∨ d = 13 ∨ d = 14 ∨ d = 15) as Hcases by lia.
  repeat (destruct Hcases as [->|Hcases]; [reflexivity|]). by subst.
Qed.

Lemma byte_nibbles b :
  is_byte b → 0 ≤ b / 16 < 16 ∧ 0 ≤ b `mod` 16 < 16 ∧ 16 * (b / 16) + b `mod` 16 = b.
Proof. unfold is_byte. intros Hb. repeat split; Z.div_mod_to_equations; lia. Qed.

Lemma digitsToBytes_hexDigits bs :
  Forall is_byte bs → digitsToBytes (hexDigits bs) = Some bs.
Proof.
  induction 1 as [|b bs Hb _ IH]; [done|].
  destruct (byte_nibbles b Hb) as (Hhi & Hlo & Heq).
  cbn [hexDigits digitsToBytes].
  rewrite !digitValue_hexDigit, IH by done. simpl. by rewrite Heq.
Qed.

Lemma strip0x_bytesToHex bs : strip0x (bytesToHex bs) = hexDigits bs.
Proof. done. Qed.

Lemma hexDigits_even bs : Nat.odd (String.length (hexDigits bs)) = false.
Proof.
  induction bs as [|b bs IH]; [done|].
  cbn [hexDigits String.length]. by rewrite Nat.odd_succ_succ.
Qed.

Lemma hexToBytes_bytesToHex bs :
  Forall is_byte bs → hexToBytes (bytesToHex bs) = Some bs.
Proof.
  intros Hbs. unfold hexToBytes.
  by rewrite strip0x_bytesToHex, hexDigits_even, digitsToBytes_hexDigits.
Qed.

Lemma hexDigits_app bs bs' : hexDigits (bs ++ bs') = hexDigits bs +:+ hexDigits bs'.
Proof. induction bs as [|b bs IH]; [done|]. simpl. by rewrite IH. Qed.

(** [concatHex] of two byte strings is the hex of their concatenation. *)
Lemma concat_bytesToHex bs bs' :
  "0x" +:+ strip0x (bytesToHex bs) +:+ strip0x (bytesToHex bs') = bytesToHex (bs ++ bs').
Proof. rewrite !strip0x_bytesToHex. unfold bytesToHex. by rewrite hexDigits_app. Qed.

(** [numberToHex(v, { size: 4 })] writes the four big-endian bytes of [v]. *)
Lemma numberToHex_uint32 v :
  0 ≤ v < 2 ^ 32 → numberToHex v 4 = Some (bytesToHex (uint32BigEndian v)).
Proof.
  intros Hv. unfold numberToHex. rewrite bool_decide_true by (simpl; lia).
  f_equal. unfold bytesToHex, uint32BigEndian. f_equal.
  cbn [seq reverse rev_append fmap list_fmap String.string_of_list_ascii hexDigits Nat.mul
       Nat.add Z.of_nat].
  change (2 ^ 24) with 16777216. change (2 ^ 16) with 65536. change (2 ^ 8) with 256.
  change (16 ^ Z.of_nat 7) with 268435456. change (16 ^ Z.of_nat 6) with 16777216.
  change (16 ^ Z.of_nat 5) with 1048576. change (16 ^ Z.of_nat 4) with 65536.
  change (16 ^ Z.of_nat 3) with 4096. change (16 ^ Z.of_nat 2) with 256.
  change (16 ^ Z.of_nat 1) with 16. change (16 ^ Z.of_nat 0) with 1.
  repeat (apply (f_equal2 String);
          [apply (f_equal hexDigit); Z.div_mod_to_equations; lia|]).
  done.
Qed.

Lemma uint32BigEndian_bytes v : Forall is_byte (uint32BigEndian v).
Proof.
  unfold uint32BigEndian, is_byte.
  repeat constructor; Z.div_mod_to_equations; lia.
Qed.

Lemma stringToBytes_bytes s : Forall is_byte (stringToBytes s).
Proof.
  unfold stringToBytes. apply Forall_fmap, Forall_true. intros c. unfold is_byte. simpl.
  pose proof (N_ascii_bounded c). lia.
Qed.

Lemma encodePacked_bytes appId achievementApiName :
  0 ≤ appId < 2 ^ 32 →
  encodePacked appId achievementApiName =
    Some (bytesToHex (uint32BigEndian appId ++ stringToBytes achievementApiName)).
Proof.
  intros Hid. unfold encodePacked, stringToHex. rewrite numberToHex_uint32 by done.
  cbn [mbind option_bind]. by rewrite concat_bytesToHex.
Qed.

(** [BigInt(hex)] reads the bytes as one big-endian number. *)
Lemma foldl_hexDigits bs acc :
  Forall is_byte bs →
  foldl (λ acc c, a ← acc; d ← digitValue c; Some (16 * a + d)) (Some acc)
    (String.list_ascii_of_string (hexDigits bs))
  = Some (foldl (λ a b, 256 * a + b) acc bs).
Proof.
  intros Hbs. revert acc. induction Hbs as [|b bs Hb _ IH]; intros acc; [done|].
  destruct (byte_nibbles b Hb) as (Hhi & Hlo & Heq).
  cbn [hexDigits String.list_ascii_of_string foldl].
  rewrite !digitValue_hexDigit by done. cbn [mbind option_bind].
  rewrite IH. do 2 f_equal. lia.
Qed.

Lemma hexToBigInt_bytesToHex bs :
  Forall is_byte bs → bs ≠ [] → hexToBigInt (bytesToHex bs) = Some (bigEndian bs).
Proof.
  intros Hbs Hne. unfold hexToBigInt, bigEndian. rewrite strip0x_bytesToHex.
  destruct bs as [|b bs]; [done|].
  exact (foldl_hexDigits (b :: bs) 0 Hbs).
Qed.

Lemma bigEndian_bound bs :
  Forall is_byte bs → 0 ≤ bigEndian bs < 256 ^ Z.of_nat (length bs).
Proof.
  intros Hbs. unfold bigEndian.
  assert (∀ acc n, 0 ≤ acc < 256 ^ Z.of_nat n →
            0 ≤ foldl (λ a b, 256 * a + b) acc bs < 256 ^ Z.of_nat (n + length bs)) as Hgen.
  { induction Hbs as [|b bs Hb _ IH]; intros acc n Hacc; simpl.
    - by rewrite Nat.add_0_r.
    - replace (n + S (length bs))%nat with (S n + length bs)%nat by lia.
      apply IH. rewrite Nat2Z.inj_succ, Z.pow_succ_r by lia.
      unfold is_byte in Hb. lia. }
  apply (Hgen 0 0%nat). simpl. lia.
Qed.

(** *** The digest is 32 bytes *)

Lemma keccakRound_length st rc : length (keccakRound st rc) = 25%nat.
Proof.
  unfold keccakRound, iota, chi.
  destruct (rhoPi (theta st)) eqn:?; reflexivity.
Qed.

Lemma keccakF_length st : length (keccakF st) = 25%nat.
Proof.
  unfold keccakF, roundConstants. cbn [foldl]. apply keccakRound_length.
Qed.

Lemma absorb_length blocks st :
  length st = 25%nat → length (foldl absorbBlock st blocks) = 25%nat.
Proof.
  revert st. induction blocks as [|b blocks IH]; intros st Hst; [done|].
  cbn [foldl]. apply IH. apply keccakF_length.
Qed.

Lemma bytesOfLane_bytes v : Forall is_byte (bytesOfLane v).
Proof.
  unfold bytesOfLane, is_byte. apply Forall_fmap, Forall_true. intros i. simpl.
  apply Z.mod_pos_bound. lia.
Qed.

Lemma bytesOfLane_length v : length (bytesOfLane v) = 8%nat.
Proof. done. Qed.

Lemma keccak_256_bytes msg : Forall is_byte (keccak_256 msg).
Proof.
  unfold keccak_256. apply Forall_take, Forall_bind, Forall_true.
  intros v. apply bytesOfLane_bytes.
Qed.

Lemma keccak_256_length msg : length (keccak_256 msg) = 32%nat.
Proof.
  unfold keccak_256. rewrite length_take.
  pose proof (absorb_length (chunks rate (length (pad msg)) (pad msg)) (replicate 25 0)
                (length_replicate _ _)) as Hst.
  destruct (foldl _ _ _) as [|l0 [|l1 [|l2 [|l3 rest]]]]; simpl in Hst; try lia.
  cbn [mbind list_bind]. rewrite !length_app, !bytesOfLane_length. lia.
Qed.

Lemma keccak256_bytes bs :
  Forall is_byte bs → keccak256 (bytesToHex bs) = Some (bytesToHex (keccak_256 bs)).
Proof. intros Hbs. unfold keccak256. by rewrite hexToBytes_bytesToHex. Qed.

(** C5.  For an appId that fits 32 bits, the token id is the Keccak-256
    digest of (the appId as four big-endian bytes, then the UTF-8 bytes of
    the achievement name), read as a big-endian unsigned integer of 256
    bits.  The derivation takes nothing but the two values, so deriving
    again gives the same id. *)
Theorem tokenId_derivation appId achievementApiName :
  0 ≤ appId < 2 ^ 32 →
  generateTokenId appId achievementApiName =
    Some (bigEndian (keccak_256 (uint32BigEndian appId ++ stringToBytes achievementApiName))) ∧
  0 ≤ tokenIdSpec appId achievementApiName < 2 ^ 256 ∧
  (∀ first second,
     generateTokenId appId achievementApiName = Some first →
     generateTokenId appId achievementApiName = Some second →
     first = second).
Proof.
  intros Hid. split; [|split].
  - unfold generateTokenId. rewrite encodePacked_bytes by done. cbn [mbind option_bind].
    rewrite keccak256_bytes.
    + cbn [mbind option_bind].
      apply hexToBigInt_bytesToHex; [apply keccak_256_bytes|].
      intros Hnil. pose proof (keccak_256_length
        (uint32BigEndian appId ++ stringToBytes achievementApiName)) as Hlen.
      by rewrite Hnil in Hlen.
    + apply Forall_app. split; [apply uint32BigEndian_bytes|apply stringToBytes_bytes].
  - unfold tokenIdSpec.
    pose proof (bigEndian_bound _ (keccak_256_bytes
      (uint32BigEndian appId ++ stringToBytes achievementApiName))) as Hb.
    rewrite keccak_256_length in Hb. by change (256 ^ Z.of_nat 32) with (2 ^ 256) in Hb.
  - congruence.
Qed.

Lemma tokenId_derivation_witness :
  generateTokenId 440 "TF_PLAY_GAME" =
    Some (bigEndian (keccak_256 (uint32BigEndian 440 ++ stringToBytes "TF_PLAY_GAME"))) ∧
  0 ≤ tokenIdSpec 440 "TF_PLAY_GAME" < 2 ^ 256 ∧
  (∀ first second,
     generateTokenId 440 "TF_PLAY_GAME" = Some first →
     generateTokenId 440 "TF_PLAY_GAME" = Some second →
     first = second).
Proof. apply (tokenId_derivation 440 "TF_PLAY_GAME"). lia. Defined.

End TokenIdFacts.

(** ** Runs of the worker *)

Module WorkerRunFacts.
Import Worker WorkerSpec WorkerTrace WorkerFacts Scenarios ChainScenarios.

Lemma run_cons chain chains lpb :
  run (chain :: chains) lpb = run chains (watermark (pollForEvents chain lpb)).
Proof. done. Qed.

(** X4.  Over any run that starts from a watermark, the log queries that
    were answered cover the blocks above the starting watermark up to the
    final one, each block once: every answered range is non-empty and starts
    at the block after the end of the one before it.  Failed queries and
    idle cycles leave no gap and cause no overlap. *)
Theorem fetched_windows_tile (chains : list Chain) (w : Z) :
  ∃ b, run chains (Some w) = Some b ∧ tiles w (fetched chains (Some w)) b.
Proof.
  revert w. induction chains as [|chain chains IH]; intros w.
  { by exists w. }
  rewrite run_cons. cbn [fetched]. rewrite pollForEvents_eq.
  destruct (getBlockNumber chain) as [head|]; simpl; [|apply IH].
  case_bool_decide as Hle; simpl; [apply IH|].
  destruct (getLogs chain (w + 1) _) as [logs|] eqn:Hlogs; simpl; rewrite Hlogs; [|apply IH].
  destruct (IH (Z.min (w + BLOCKS_PER_POLL) head)) as (b & Hrun & Htiles).
  exists b. split; [done|]. split; [done|]. split; [|done].
  unfold BLOCKS_PER_POLL. lia.
Qed.

Lemma queried_cons chain chains lpb :
  queried (chain :: chains) lpb =
  match query (pollForEvents chain lpb) with
  | Some q => q :: queried chains (watermark (pollForEvents chain lpb))
  | None => queried chains (watermark (pollForEvents chain lpb))
  end.
Proof. done. Qed.

Lemma queried_above chains w f t :
  (f, t) ∈ queried chains (Some w) → w < f ≤ t.
Proof.
  revert w. induction chains as [|chain chains IH]; intros w.
  { unfold queried. simpl. by intros ?%elem_of_nil. }
  rewrite queried_cons.
  pose proof (pollForEvents_notBelow chain (Some w)) as Hmono.
  rewrite pollForEvents_eq in *.
  destruct (getBlockNumber chain) as [head|]; simpl in *; [|apply IH].
  case_bool_decide as Hle; simpl in *; [apply IH|].
  unfold BLOCKS_PER_POLL in *.
  destruct (getLogs chain (w + 1) _) as [logs|]; simpl in *.
  - intros [?|Hin]%elem_of_cons; [simplify_eq; lia|].
    apply IH in Hin. lia.
  - intros [?|Hin]%elem_of_cons; [simplify_eq; lia|].
    apply IH in Hin. lia.
Qed.

(** X5.  A worker started without a watermark never looks back: once the
    first cycle has learnt the head, no query of the run, in that cycle or
    any later one, starts at or below head - 100 (or at block 0).  Mint
    events older than that are never fetched. *)
Theorem history_before_seed_never_fetched chain rest head f t :
  getBlockNumber chain = Some head →
  (f, t) ∈ queried (chain :: rest) None →
  0 < f ∧ head - 100 < f ∧ f ≤ t.
Proof.
  intros Hhead. rewrite queried_cons.
  rewrite pollForEvents_eq, Hhead.
  assert (0 ≤ seedOr None head ∧ head - 100 ≤ seedOr None head) as Hseed.
  { unfold seedOr. case_bool_decide; lia. }
  generalize dependent (seedOr None head). intros s Hseed. cbn zeta.
  case_bool_decide as Hle; simpl.
  { intros Hin%queried_above. lia. }
  unfold BLOCKS_PER_POLL.
  destruct (getLogs chain _ _) as [logs|]; simpl;
    (intros [?|Hin%queried_above]%elem_of_cons; [simplify_eq; lia|lia]).
Qed.

Lemma history_before_seed_never_fetched_witness :
  (1, 50) ∈ queried [chainAt50] None ∧ 0 < 1 ∧ 50 - 100 < 1 ∧ 1 ≤ 50.
Proof.
  assert ((1, 50) ∈ queried [chainAt50] None) as H by (vm_compute; constructor).
  split; [exact H|].
  exact (history_before_seed_never_fetched chainAt50 [] 50 1 50 eq_refl H).
Defined.

(** X6.  Catching up: with the head at a fixed height and every log query
    answered, [n] cycles take the watermark from [w] to
    min (w + 500 n, head); once it has reached the head it stays there. *)
Theorem catches_up chain head w (n : nat) :
  getBlockNumber chain = Some head →
  (∀ f t, is_Some (getLogs chain f t)) →
  w ≤ head →
  run (replicate n chain) (Some w) = Some (Z.min (w + BLOCKS_PER_POLL * Z.of_nat n) head).
Proof.
  intros Hhead Hlogs. revert w. induction n as [|n IH]; intros w Hw.
  { simpl. f_equal. lia. }
  cbn [replicate]. rewrite run_cons, pollForEvents_eq, Hhead. simpl.
  unfold BLOCKS_PER_POLL in *.
  case_bool_decide as Hle; simpl.
  - rewrite IH by done. f_equal. lia.
  - destruct (Hlogs (w + 1) (Z.min (w + 500) head)) as [logs ->]. simpl.
    rewrite IH by lia. f_equal. lia.
Qed.

Lemma catches_up_witness :
  run (replicate 3 chainAt1200) (Some 100) =
    Some (Z.min (100 + BLOCKS_PER_POLL * Z.of_nat 3) 1200).
Proof.
  apply (catches_up chainAt1200 1200 100 3); [reflexivity|by eexists|lia].
Defined.

(** X7.  In a cycle whose log query is answered, the events printed are
    exactly those of the returned logs that have at least three topics and
    decode to an [AchievementMinted] event, each with the block number and
    transaction hash of its log.  A log that fails to decode drops out
    without affecting the others. *)
Theorem printed_events_exact chain lpb f t logs e :
  query (pollForEvents chain lpb) = Some (f, t) →
  getLogs chain f t = Some logs →
  e ∈ printed (pollForEvents chain lpb) ↔
  ∃ log d, log ∈ logs ∧ (3 ≤ length (topics log))%nat ∧
           decodeEventLog chain log = Some d ∧
           eventName d = "AchievementMinted" ∧ e = mintEvent log d.
Proof.
  rewrite pollForEvents_eq. destruct (getBlockNumber chain) as [head|]; simpl; [|done].
  case_bool_decide as Hle; simpl; [done|].
  destruct (getLogs chain (seedOr lpb head + 1) _) as [logs'|] eqn:Hlogs; simpl.
  2: { intros ? Hl. simplify_eq. }
  intros ? Hl. simplify_eq. unfold processLogs. rewrite list_elem_of_bind.
  split.
  - intros (log & He & Hin). unfold processLog in He.
    case_bool_decide as Htopics; [|by apply elem_of_nil in He].
    destruct (decodeEventLog chain log) as [d|] eqn:Hd; [|by apply elem_of_nil in He].
    case_bool_decide as Hname; [|by apply elem_of_nil in He].
    apply list_elem_of_singleton in He. by exists log, d.
  - intros (log & d & Hin & Htopics & Hd & Hname & ->). exists log. split; [|done].
    unfold processLog. rewrite bool_decide_true, Hd, bool_decide_true by done.
    by apply list_elem_of_singleton.
Qed.

Lemma printed_events_exact_witness :
  mintEvent mintLog mintDecoded ∈ printed (pollForEvents chainMint (Some 900)) ↔
  ∃ log d, log ∈ [mintLog] ∧ (3 ≤ length (topics log))%nat ∧
           decodeEventLog chainMint log = Some d ∧
           eventName d = "AchievementMinted" ∧ mintEvent mintLog mintDecoded = mintEvent log d.
Proof.
  apply (printed_events_exact chainMint (Some 900) 901 1000 [mintLog]
           (mintEvent mintLog mintDecoded)); reflexivity.
Defined.

End WorkerRunFacts.

(** ** The handler: what a request does to the world, and what it answers *)

Module HandlerStepFacts.
Import Aggregator Handler HandlerSpec HandlerSteps HandlerFacts Scenarios MoreScenarios.

Lemma sectionStep_refl redis env steamId appId K w :
  sectionStep redis env steamId appId K w w.
Proof. split; [done|]. by left. Qed.

Lemma readThrough_step {T} redis key call (up : Env → FetchResult T) unwrap wrap valid
    notOk env steamId appId K w :
  key = keyOf steamId appId K →
  call = callOf steamId appId K →
  (∀ st b e v, (notOk st b e v).2 = v) →
  (∀ d, valid d = true → validFor K (wrap d)) →
  sectionStep redis env steamId appId K w
    (readThrough redis key call up unwrap wrap valid notOk env w).2.
Proof.
  intros -> -> HnotOk Hvalid. rewrite readThrough_eq.
  destruct (cacheRead redis env w _) as [p|] eqn:Hread; simpl.
  { apply sectionStep_refl. }
  assert (sectionStep redis env steamId appId K w
            (logCall (callOf steamId appId K) w)) as Hlog.
  { split; [done|]. right. repeat split; try done. by left. }
  destruct (up env) as [|st b]; simpl; [done|].
  destruct (ok st); [|by rewrite HnotOk].
  destruct b as [d|]; simpl; [|done].
  unfold afterStore.
  destruct redis; simpl; [|done].
  destruct (valid d) eqn:Hv; simpl; [|done].
  destruct (setFails env _); simpl; [done|].
  split; [done|]. right. repeat split; try done.
  right. exists (wrap d). auto.
Qed.

Lemma schemaList_valid d :
  bool_decide (is_Some (schemaList d)) = true → validFor SchemaData (SchemaPayload d).
Proof. intros H. by apply bool_decide_eq_true in H. Qed.

(** The three sections of [handle], one after the other. *)
Lemma handle_steps redis steamId appId env w :
  ∃ w1 w2,
    sectionStep redis env steamId appId PlayerData w w1 ∧
    sectionStep redis env steamId appId SchemaData w1 w2 ∧
    sectionStep redis env steamId appId GlobalData w2 (handle redis steamId appId env w).2.
Proof.
  pose proof (readThrough_step redis (playerCacheKey steamId appId)
    (GetPlayerAchievements steamId appId) playerUpstream asPlayer PlayerPayload
    playerSuccess playerNotOk env steamId appId PlayerData w eq_refl eq_refl
    playerNotOk_world (λ d H, H)) as H1.
  rewrite <-resolvePlayer_readThrough in H1.
  unfold handle. unfold mbind at 1. unfold M_bind.
  destruct (resolvePlayer redis steamId appId env w) as [[pd|r|] w1]; simpl in H1.
  2,3: exists w1, w1; split; [done|]; split; apply sectionStep_refl.
  exists w1. unfold mbind at 1. unfold M_bind.
  pose proof (validatePlayer_world pd env w1) as Hv1.
  destruct (validatePlayer pd env w1) as [[pl|r|] w1']; simpl in Hv1; subst w1'.
  2,3: exists w1; split; [done|]; split; apply sectionStep_refl.
  pose proof (readThrough_step redis (schemaCacheKey appId)
    (GetSchemaForGame appId) schemaUpstream asSchema SchemaPayload
    (λ d, bool_decide (is_Some (schemaList d))) schemaNotOk env steamId appId SchemaData w1
    eq_refl eq_refl schemaNotOk_world schemaList_valid) as H2.
  rewrite <-resolveSchema_readThrough in H2.
  unfold mbind at 1. unfold M_bind.
  destruct (resolveSchema redis appId env w1) as [[sd|r|] w2]; simpl in H2.
  2,3: exists w2; split; [done|]; split; [done|apply sectionStep_refl].
  exists w2. unfold mbind at 1. unfold M_bind.
  pose proof (validateSchema_world sd env w2) as Hv2.
  destruct (validateSchema sd env w2) as [[[sc gn]|r|] w2']; simpl in Hv2; subst w2'.
  2,3: split; [done|]; split; [done|apply sectionStep_refl].
  pose proof (readThrough_step redis (globalCacheKey appId)
    (GetGlobalAchievementPercentagesForApp appId) globalUpstream asGlobal GlobalPayload
    (λ _, true) globalNotOk env steamId appId GlobalData w2
    eq_refl eq_refl globalNotOk_world (λ _ _, I)) as H3.
  rewrite <-resolveGlobal_readThrough in H3.
  unfold mbind at 1. unfold M_bind.
  destruct (resolveGlobal redis appId env w2) as [[gd|r|] w3]; simpl in H3; done.
Qed.

Lemma sectionStep_normal redis env steamId appId K w w' :
  sectionStep redis env steamId appId K w w' →
  redisClient w' = redisClient w ∧
  (∃ c, upstreamCalls w' = c ++ upstreamCalls w ∧
        (c = [] ∨ (c = [callOf steamId appId K] ∧
                   cacheRead redis env w (keyOf steamId appId K) = None))) ∧
  (∀ k, k ≠ keyOf steamId appId K → store w' !! k = store w !! k) ∧
  (store w' !! keyOf steamId appId K = store w !! keyOf steamId appId K ∨
   ∃ p, redis = true ∧ validFor K p ∧
        cacheRead redis env w (keyOf steamId appId K) = None ∧
        store w' !! keyOf steamId appId K = Some (p, now env + CACHE_TTL_SECONDS)).
Proof.
  intros [Hc [[Hcalls Hst]|(Hcalls & Hmiss & [Hst|(p & Hr & Hv & Hst)])]];
    (split; [done|]); rewrite Hst.
  - split; [exists []; auto|]. auto.
  - split; [exists [callOf steamId appId K]; auto|]. auto.
  - split; [exists [callOf steamId appId K]; auto|].
    split; [intros k Hk; by rewrite lookup_insert_ne|].
    right. exists p. by rewrite lookup_insert_eq.
Qed.

Lemma keyOf_inj steamId appId K K' :
  keyOf steamId appId K = keyOf steamId appId K' → K = K'.
Proof. by destruct K, K'. Qed.

(** What the three sections together do to the world. *)
Lemma steps_summary redis env steamId appId w w1 w2 w3 :
  sectionStep redis env steamId appId PlayerData w w1 →
  sectionStep redis env steamId appId SchemaData w1 w2 →
  sectionStep redis env steamId appId GlobalData w2 w3 →
  redisClient w3 = redisClient w ∧
  (∃ calls, upstreamCalls w3 = calls ++ upstreamCalls w ∧
     sublist calls [callOf steamId appId GlobalData; callOf steamId appId SchemaData;
                    callOf steamId appId PlayerData] ∧
     ∀ K, callOf steamId appId K ∈ calls →
          cacheRead redis env w (keyOf steamId appId K) = None) ∧
  (∀ k, store w3 !! k = store w !! k ∨
        ∃ K p, k = keyOf steamId appId K ∧ redis = true ∧ validFor K p ∧
               cacheRead redis env w k = None ∧
               store w3 !! k = Some (p, now env + CACHE_TTL_SECONDS)).
Proof.
  intros (Hc1 & (c1 & Hcalls1 & Hcase1) & Hne1 & Hkey1)%sectionStep_normal
         (Hc2 & (c2 & Hcalls2 & Hcase2) & Hne2 & Hkey2)%sectionStep_normal
         (Hc3 & (c3 & Hcalls3 & Hcase3) & Hne3 & Hkey3)%sectionStep_normal.
  assert (cacheRead redis env w1 (keyOf steamId appId SchemaData) =
          cacheRead redis env w (keyOf steamId appId SchemaData)) as Hread2.
  { apply cacheRead_store, Hne1. done. }
  assert (cacheRead redis env w2 (keyOf steamId appId GlobalData) =
          cacheRead redis env w (keyOf steamId appId GlobalData)) as Hread3.
  { apply cacheRead_store. rewrite Hne2, Hne1; done. }
  rewrite Hread2 in *. rewrite Hread3 in *.
  split; [congruence|]. split.
  - exists (c3 ++ c2 ++ c1). split; [by rewrite Hcalls3, Hcalls2, Hcalls1, <-!app_assoc|].
    split.
    + destruct Hcase1 as [->|[-> _]], Hcase2 as [->|[-> _]], Hcase3 as [->|[-> _]]; simpl;
        repeat first [apply sublist_nil | apply sublist_skip | apply sublist_cons].
    + intros K HK. rewrite !elem_of_app in HK.
      destruct HK as [HK|[HK|HK]].
      * destruct Hcase3 as [->|[-> Hm]]; [by apply elem_of_nil in HK|].
        apply list_elem_of_singleton in HK. by destruct K.
      * destruct Hcase2 as [->|[-> Hm]]; [by apply elem_of_nil in HK|].
        apply list_elem_of_singleton in HK. by destruct K.
      * destruct Hcase1 as [->|[-> Hm]]; [by apply elem_of_nil in HK|].
        apply list_elem_of_singleton in HK. by destruct K.
  - intros k.
    destruct (decide (k = keyOf steamId appId GlobalData)) as [->|Hk3].
    { destruct Hkey3 as [Heq|(p & ? & ? & ? & ?)].
      - left. rewrite Heq, Hne2, Hne1; done.
      - right. by exists GlobalData, p. }
    rewrite Hne3 by done.
    destruct (decide (k = keyOf steamId appId SchemaData)) as [->|Hk2].
    { destruct Hkey2 as [Heq|(p & ? & ? & ? & ?)].
      - left. rewrite Heq, Hne1; done.
      - right. by exists SchemaData, p. }
    rewrite Hne2 by done.
    destruct (decide (k = keyOf steamId appId PlayerData)) as [->|Hk1].
    { destruct Hkey1 as [Heq|(p & ? & ? & ? & ?)].
      - by left.
      - right. by exists PlayerData, p. }
    left. by apply Hne1.
Qed.

(** What [GET] does to the world, whatever the request. *)
Lemma GET_world env w :
  (GET env w).2 = w ∨
  ∃ steamId appId,
    truthy (cookieSteamId env) = Some steamId ∧
    truthy (paramAppId env) = Some appId ∧
    redisClient (GET env w).2 = redisUp env w ∧
    (∃ calls, upstreamCalls (GET env w).2 = calls ++ upstreamCalls w ∧
       sublist calls (requestCalls env) ∧
       ∀ K, callOf steamId appId K ∈ calls →
            cacheRead (redisUp env w) env w (keyOf steamId appId K) = None) ∧
    (∀ k, store (GET env w).2 !! k = store w !! k ∨
          ∃ K p, k = keyOf steamId appId K ∧ redisUp env w = true ∧ validFor K p ∧
                 cacheRead (redisUp env w) env w k = None ∧
                 store (GET env w).2 !! k = Some (p, now env + CACHE_TTL_SECONDS)).
Proof.
  destruct (truthy (cookieSteamId env)) as [steamId|] eqn:Hs.
  2: { left. unfold GET. by rewrite Hs. }
  destruct (truthy (paramAppId env)) as [appId|] eqn:Ha.
  2: { left. unfold GET. by rewrite Hs, Ha. }
  destruct (truthy (STEAM_API_KEY env)) as [key|] eqn:Hk.
  2: { left. unfold GET. by rewrite Hs, Ha, Hk. }
  right. exists steamId, appId. do 2 (split; [done|]).
  rewrite (GET_eq env w steamId appId key) by done. simpl.
  destruct (handle_steps (redisUp env w) steamId appId env (connected env w))
    as (w1 & w2 & H1 & H2 & H3).
  destruct (steps_summary _ _ _ _ _ _ _ _ H1 H2 H3) as (Hc & Hcalls & Hstore).
  split; [|split].
  - rewrite Hc. unfold connected, connectRedis, redisUp, getRedisClient.
    by destruct (redisClient w) eqn:Hclient, (isOpen env), (connectOk env).
  - destruct Hcalls as (calls & Heq & Hsub & Hmiss). exists calls.
    rewrite connected_calls in Heq. split; [done|].
    unfold requestCalls. rewrite Hs, Ha, Hk. split; [done|].
    intros K HK. rewrite <-cacheRead_connected. by apply Hmiss.
  - intros k. specialize (Hstore k). rewrite connected_store in Hstore.
    destruct Hstore as [?|(K & p & ? & ? & ? & Hm & ?)]; [by left|].
    right. exists K, p. rewrite cacheRead_connected in Hm. done.
Qed.

Lemma GET_rejected env w : rejected env → (GET env w).2 = w.
Proof.
  unfold GET. intros [H|[H|H]].
  - by rewrite H.
  - rewrite H. by destruct (truthy (cookieSteamId env)).
  - rewrite H. by destruct (truthy (cookieSteamId env)), (truthy (paramAppId env)).
Qed.

(** X8.  Whatever the request, the upstream calls it makes are new entries
    at the head of the log, at most one per endpoint, for its own identity
    and game, and in the order player, schema, rarity; an endpoint is called
    only when the cache lookup for its dataset found nothing; and a request
    that a guard turns away (no session cookie, no appId, no API key) makes
    no call and leaves the world as it was. *)
Theorem upstream_call_discipline (env : Env) (w : World) :
  (∃ calls,
     upstreamCalls (GET env w).2 = calls ++ upstreamCalls w ∧
     sublist calls (requestCalls env) ∧
     ∀ steamId appId K,
       truthy (cookieSteamId env) = Some steamId →
       truthy (paramAppId env) = Some appId →
       callOf steamId appId K ∈ calls →
       cacheRead (redisUp env w) env w (keyOf steamId appId K) = None) ∧
  (rejected env → requestCalls env = [] ∧ (GET env w).2 = w).
Proof.
  split.
  - destruct (GET_world env w)
      as [->|(s & a & Hs & Ha & _ & (calls & Heq & Hsub & Hmiss) & _)].
    + exists []. split; [done|]. split; [apply sublist_nil_l|].
      intros ? ? ? _ _ ?%elem_of_nil. done.
    + exists calls. split; [done|]. split; [done|].
      intros steamId appId K Hs' Ha'. simplify_eq. apply Hmiss.
  - intros Hrej. split; [|by apply GET_rejected].
    unfold requestCalls. destruct Hrej as [-> | [-> | ->]]; [done| |].
    + by destruct (truthy (cookieSteamId env)).
    + by destruct (truthy (cookieSteamId env)), (truthy (paramAppId env)).
Qed.

(** A request on a server without an API key: status 500, and the world,
    its log of upstream calls included, is as before. *)
Example keyless_request_makes_no_call :
  rejected env440NoKey ∧
  status (GET env440NoKey freshWorld).1 = 500 ∧
  (GET env440NoKey freshWorld).2 = freshWorld.
Proof. split; [right; right; reflexivity|]. split; reflexivity. Qed.

Lemma keyOf_dataset s a K s' a' K' : keyOf s a K = keyOf s' a' K' → K = K'.
Proof.
  destruct K, K'; simpl; intros H; try done; exfalso; revert H;
    first [apply key_player_schema | apply key_player_global | apply key_schema_global
          | intros H; symmetry in H; revert H;
            first [apply key_player_schema | apply key_player_global
                  | apply key_schema_global]].
Qed.

Lemma colon_split s s' a a' :
  plain s → plain s' → s +:+ ":" +:+ a = s' +:+ ":" +:+ a' → s = s' ∧ a = a'.
Proof.
  unfold plain. revert s'. induction s as [|c s IH]; intros [|c' s']; simpl.
  - intros _ _ H. by simplify_eq.
  - intros _ Hs' H. injection H as <- _. exfalso. apply Hs'. by left.
  - intros Hs _ H. injection H as -> _. exfalso. apply Hs. by left.
  - intros Hs Hs' H. injection H as -> H.
    destruct (IH s') as [-> ->]; [| |done..].
    + intros ?. apply Hs. by right.
    + intros ?. apply Hs'. by right.
Qed.

Lemma keyOf_names s a K s' a' :
  keyOf s a K = keyOf s' a' K →
  (K ≠ PlayerData → a' = a) ∧
  (K = PlayerData → plain s → plain s' → s' = s ∧ a' = a).
Proof.
  destruct K; simpl; unfold playerCacheKey, schemaCacheKey, globalCacheKey; intros H.
  - split; [done|]. intros _ Hs Hs'. simplify_eq.
    by destruct (colon_split s s' a a') as [-> ->].
  - split; [|done]. intros _. by simplify_eq.
  - split; [|done]. intros _. by simplify_eq.
Qed.

(** X9.  A request changes the store only by writing: any key whose entry
    differs afterwards is one of the request's own three keys, its lookup
    had found nothing, and it now holds a payload that passed the section's
    validity check, to expire 3600 seconds after the request's clock; no
    entry is removed.  Of whatever identity, game and dataset that key is
    the key, the dataset is the one written; for a schema or rarity key the
    game is the request's (these keys name no identity: all identities share
    them); for a player key the identity and the game are the request's when
    neither identity holds a colon. *)
Theorem store_changes_are_fresh_writes (env : Env) (w : World) (k : string) :
  store (GET env w).2 !! k ≠ store w !! k →
  ∃ steamId appId K p,
    truthy (cookieSteamId env) = Some steamId ∧
    truthy (paramAppId env) = Some appId ∧
    k = keyOf steamId appId K ∧
    redisUp env w = true ∧
    cacheRead true env w k = None ∧
    validFor K p ∧
    store (GET env w).2 !! k = Some (p, now env + 3600) ∧
    ∀ steamId' appId' K',
      k = keyOf steamId' appId' K' →
      K' = K ∧
      (K ≠ PlayerData → appId' = appId) ∧
      (K = PlayerData → plain steamId → plain steamId' →
       steamId' = steamId ∧ appId' = appId).
Proof.
  intros Hne.
  destruct (GET_world env w) as [Heq|(s & a & Hs & Ha & _ & _ & Hstore)].
  { by rewrite Heq in Hne. }
  destruct (Hstore k) as [?|(K & p & Hkey & Hup & ? & Hm & ?)]; [done|].
  exists s, a, K, p. rewrite Hup in Hm. do 7 (split; [done|]).
  intros s' a' K' Hkey'. rewrite Hkey in Hkey'.
  assert (K = K') as HK by (by eapply keyOf_dataset). subst K'.
  split; [done|]. by apply keyOf_names.
Qed.

Lemma store_changes_are_fresh_writes_witness :
  ∃ steamId appId K p,
    truthy (cookieSteamId env440) = Some steamId ∧
    truthy (paramAppId env440) = Some appId ∧
    "playerAch:76561198000000000:440" = keyOf steamId appId K ∧
    redisUp env440 freshWorld = true ∧
    cacheRead true env440 freshWorld "playerAch:76561198000000000:440" = None ∧
    validFor K p ∧
    store (GET env440 freshWorld).2 !! "playerAch:76561198000000000:440" =
      Some (p, now env440 + 3600) ∧
    ∀ steamId' appId' K',
      "playerAch:76561198000000000:440" = keyOf steamId' appId' K' →
      K' = K ∧
      (K ≠ PlayerData → appId' = appId) ∧
      (K = PlayerData → plain steamId → plain steamId' →
       steamId' = steamId ∧ appId' = appId).
Proof.
  apply (store_changes_are_fresh_writes env440 freshWorld "playerAch:76561198000000000:440").
  vm_compute. discriminate.
Defined.

(** A player key does not always tell identity and game apart: with a colon
    in the cookie's value or in the appId, two requests share one. *)
Example player_keys_overlap :
  playerCacheKey "1:2" "3" = playerCacheKey "1" "2:3" ∧
  keyOf "1:2" "3" PlayerData = keyOf "1" "2:3" PlayerData.
Proof. split; reflexivity. Qed.

Lemma prefix_empty s : String.prefix "" s = true.
Proof. by destruct s. Qed.

Lemma validFor_kindOK steamId appId K p :
  validFor K p → kindOK (keyOf steamId appId K) p.
Proof. destruct K, p; simpl; try done; by rewrite prefix_empty. Qed.

Lemma kindOK_readsAs steamId appId K p :
  kindOK (keyOf steamId appId K) p → readsAs K p.
Proof.
  destruct K, p as [d|d|d]; simpl; try (intros [? ?]; done); try done; eauto.
  - intros [_ ?]. eauto.
  - intros [_ ?]. eauto.
Qed.

(** X10.  The store stays well typed: if every entry is of the kind its key
    announces and passed that kind's validity check, the same holds after
    any request.  So under a player key a reader finds a player body that
    reports success, under a schema key a schema with an achievement list,
    and under a rarity key a rarity body: an unreadable profile or a schema
    without a list is never served from the cache. *)
Theorem store_stays_typed (env : Env) (w : World) :
  storeTyped w →
  storeTyped (GET env w).2 ∧
  ∀ steamId appId K p expiry,
    store (GET env w).2 !! keyOf steamId appId K = Some (p, expiry) → readsAs K p.
Proof.
  intros Htyped.
  assert (storeTyped (GET env w).2) as Htyped'.
  { intros k p expiry Hk.
    destruct (GET_world env w) as [Heq|(s & a & Hs & Ha & _ & _ & Hstore)].
    { rewrite Heq in Hk. by eapply Htyped. }
    destruct (Hstore k) as [Heq|(K & p' & -> & _ & Hv & _ & Hk')].
    - rewrite Heq in Hk. by eapply Htyped.
    - rewrite Hk' in Hk. simplify_eq. by apply validFor_kindOK. }
  split; [done|].
  intros steamId appId K p expiry Hk. eapply kindOK_readsAs, Htyped', Hk.
Qed.

Lemma store_stays_typed_witness :
  storeTyped (GET env440 freshWorld).2 ∧
  ∀ steamId appId K p expiry,
    store (GET env440 freshWorld).2 !! keyOf steamId appId K = Some (p, expiry) →
    readsAs K p.
Proof.
  apply (store_stays_typed env440 freshWorld).
  intros key p expiry H. simpl in H. by rewrite lookup_empty in H.
Defined.

Lemma returnsOnly_bind {A B} (E : Response → Prop) (m : M A) (f : A → M B) env :
  returnsOnly E m env → (∀ a, returnsOnly E (f a) env) → returnsOnly E (m ≫= f) env.
Proof.
  intros Hm Hf w r. specialize (Hm w). unfold mbind, M_bind.
  destruct (m env w) as [[a|r'|] v]; simpl in *; [apply Hf| |done].
  intros ?. simplify_eq. by apply Hm.
Qed.

Lemma readThrough_returnsOnly {T} (E : Response → Prop) redis key call
    (up : Env → FetchResult T) unwrap wrap valid notOk env :
  (∀ st b v r, up env = Responded st b → ok st = false →
               (notOk st b env v).1 = Return r → E r) →
  returnsOnly E (readThrough redis key call up unwrap wrap valid notOk) env.
Proof.
  intros HnotOk w r. rewrite readThrough_eq.
  destruct (cacheRead redis env w key) as [p|]; [done|].
  destruct (up env) as [|st b] eqn:Hup; [done|].
  destruct (ok st) eqn:Hok; [by destruct b|].
  by apply HnotOk.
Qed.

Lemma handle_returnsOnly redis steamId appId env :
  returnsOnly (errorResponse env) (handle redis steamId appId) env.
Proof.
  unfold handle.
  apply returnsOnly_bind; [|intros pd].
  { rewrite resolvePlayer_readThrough. apply readThrough_returnsOnly.
    intros st b v r Hup Hok. unfold playerNotOk, passOn.
    destruct (reportedReason b); [|destruct (responseStatusOk st) eqn:Hst];
      simpl; intros; simplify_eq.
    - split; [by eexists|]. by left.
    - split; [by eexists|]. right. right. left. by exists b. }
  apply returnsOnly_bind; [|intros pl].
  { intros w r. unfold validatePlayer.
    destruct (playerstats pd) as [ps|]; [destruct (success ps)|]; simpl;
      intros; simplify_eq; (split; [by eexists|by left]). }
  apply returnsOnly_bind; [|intros sd].
  { rewrite resolveSchema_readThrough. apply readThrough_returnsOnly.
    intros st b v r Hup Hok. unfold schemaNotOk, passOn.
    destruct (responseStatusOk st) eqn:Hst; simpl; intros; simplify_eq.
    split; [by eexists|]. right. right. right. by exists b. }
  apply returnsOnly_bind; [|intros [sc gn]].
  { intros w r. unfold validateSchema.
    destruct (game sd) as [g|]; [destruct (availableGameStats g)|]; simpl;
      intros; simplify_eq; (split; [by eexists|right; by left]). }
  apply returnsOnly_bind; [|by intros gd w r].
  rewrite resolveGlobal_readThrough. apply readThrough_returnsOnly.
  by intros st b v r Hup Hok.
Qed.

Lemma handle_value redis steamId appId env w r :
  (handle redis steamId appId env w).1 = Value r →
  status r = 200 ∧ ∃ gameName achievements, body r = AchievementsBody gameName steamId achievements.
Proof.
  rewrite handle_datasets.
  destruct (datasets redis steamId appId env w) as [[[[[pl sc] gn] gl]|r'|] w']; simpl;
    intros; simplify_eq.
  split; [done|]. by eexists _, _.
Qed.

Lemma errorResponse_not_200 env r : errorResponse env r → status r ≠ 200.
Proof.
  intros [_ [->|[->|[(b & _ & Hok & _)|(b & _ & Hok & _)]]]]; try done;
    intros Heq; by rewrite Heq in Hok.
Qed.

(** The forms a response of [GET] takes. *)
Lemma GET_forms env w :
  (status (GET env w).1 = 200 ∧
   ∃ gameName steamId achievements,
     truthy (cookieSteamId env) = Some steamId ∧
     body (GET env w).1 = AchievementsBody gameName steamId achievements) ∨
  (status (GET env w).1 = 400 ∧ ∃ m, body (GET env w).1 = Message m) ∨
  errorResponse env (GET env w).1.
Proof.
  destruct (truthy (cookieSteamId env)) as [steamId|] eqn:Hs.
  2: { right. left. unfold GET. rewrite Hs. simpl. eauto. }
  destruct (truthy (paramAppId env)) as [appId|] eqn:Ha.
  2: { right. left. unfold GET. rewrite Hs, Ha. simpl. eauto. }
  destruct (truthy (STEAM_API_KEY env)) as [key|] eqn:Hk.
  2: { right. right. unfold GET. rewrite Hs, Ha, Hk. simpl.
       split; [by eexists|]. right. by left. }
  rewrite (GET_eq env w steamId appId key) by done. simpl.
  pose proof (handle_returnsOnly (redisUp env w) steamId appId env (connected env w))
    as Hret.
  pose proof (handle_value (redisUp env w) steamId appId env (connected env w)) as Hval.
  destruct (handle _ _ _ _ _) as [[r|r|] w']; simpl in *.
  - destruct (Hval r eq_refl) as (Hst & gn & l & Hbody).
    left. split; [done|]. by exists gn, steamId, l.
  - right. right. by apply Hret.
  - right. right. split; [by eexists|]. right. by left.
Qed.

(** X11.  Every response of the handler is of one of three forms: status 200
    with the achievement list, for the identity in the session cookie; status
    400 with a message; or a message with status 404, 500, or the status of a
    player or schema answer of Steam that was not OK, a status that a
    response with a body can carry (200 to 599, not 204, 205 or 304).  So a
    response carries achievements exactly when its status is 200. *)
Theorem response_statuses (env : Env) (w : World) :
  ((status (GET env w).1 = 200 ∧
    ∃ gameName steamId achievements,
      truthy (cookieSteamId env) = Some steamId ∧
      body (GET env w).1 = AchievementsBody gameName steamId achievements) ∨
   (status (GET env w).1 = 400 ∧ ∃ m, body (GET env w).1 = Message m) ∨
   errorResponse env (GET env w).1) ∧
  (status (GET env w).1 = 200 ↔
   ∃ gameName steamId achievements,
     body (GET env w).1 = AchievementsBody gameName steamId achievements).
Proof.
  pose proof (GET_forms env w) as Hforms. split; [done|].
  destruct Hforms as [[Hst (g & s & l & _ & Hb)]|[[Hst [m Hb]]|Herr]].
  - split; [by eauto|done].
  - rewrite Hst, Hb. split; [done|]. by intros (? & ? & ? & ?).
  - pose proof (errorResponse_not_200 _ _ Herr). destruct Herr as [[m Hb] _].
    rewrite Hb. split; [done|]. by intros (? & ? & ? & ?).
Qed.

(** *** A repeated request *)







Lemma appendsCalls_bind {A B} (m : M A) (f : A → M B) env :
  appendsCalls m env → (∀ a, appendsCalls (f a) env) → appendsCalls (m ≫= f) env.
Proof.
  intros Hm Hf w. destruct (Hm w) as [c Hc]. unfold mbind, M_bind.
  destruct (m env w) as [[a|r|] v]; simpl in *; [|by exists c..].
  destruct (Hf a v) as [c' Hc']. exists (c' ++ c). by rewrite Hc', Hc, app_assoc.
Qed.

Lemma readThrough_appendsCalls {T} redis key call (up : Env → FetchResult T) unwrap wrap
    valid notOk env :
  (∀ st b e v, (notOk st b e v).2 = v) →
  appendsCalls (readThrough redis key call up unwrap wrap valid notOk) env.
Proof.
  intros HnotOk w.
  destruct (readThrough_frame redis key call up unwrap wrap valid notOk env w HnotOk)
    as (_ & [->| ->] & _); [by exists []|by exists [call]].
Qed.

Lemma after_player_appendsCalls redis steamId appId pd env :
  appendsCalls
    (playerAchievements ← validatePlayer pd;
     schemaData ← resolveSchema redis appId;
     '(schemaAchievements, gameName) ← validateSchema schemaData;
     globalPercentagesData ← resolveGlobal redis appId;
     mret {| status := 200;
             body := AchievementsBody gameName steamId
                       (sortedAchievements schemaAchievements playerAchievements
                          (globalList globalPercentagesData)) |}) env.
Proof.
  apply appendsCalls_bind; [|intros pl].
  { intros w. rewrite validatePlayer_world. by exists []. }
  apply appendsCalls_bind; [|intros sd].
  { rewrite resolveSchema_readThrough.
    apply readThrough_appendsCalls, schemaNotOk_world. }
  apply appendsCalls_bind; [|intros [sc gn]].
  { intros w. rewrite validateSchema_world. by exists []. }
  apply appendsCalls_bind; [|intros gd w; by exists []].
  rewrite resolveGlobal_readThrough. by apply readThrough_appendsCalls.
Qed.

(** X15.  An entry is served for less than 3600 seconds: a request that
    comes 3600 seconds or more after the one that wrote the player entry
    finds it gone, and calls Steam for the player's achievements again. *)
Theorem expired_entry_is_refetched env1 env2 w steamId appId key1 key2 :
  truthy (cookieSteamId env1) = Some steamId →
  truthy (paramAppId env1) = Some appId →
  truthy (STEAM_API_KEY env1) = Some key1 →
  truthy (cookieSteamId env2) = Some steamId →
  truthy (paramAppId env2) = Some appId →
  truthy (STEAM_API_KEY env2) = Some key2 →
  store (GET env1 w).2 !! playerCacheKey steamId appId ≠
    store w !! playerCacheKey steamId appId →
  now env1 + 3600 ≤ now env2 →
  cached env2 (GET env1 w).2 (playerCacheKey steamId appId) = None ∧
  ∃ calls,
    upstreamCalls (GET env2 (GET env1 w).2).2 =
      calls ++ GetPlayerAchievements steamId appId :: upstreamCalls (GET env1 w).2.
Proof.
  intros Hs1 Ha1 Hk1 Hs2 Ha2 Hk2 Hwritten Hlate.
  set (w1 := (GET env1 w).2) in *.
  assert (cached env2 w1 (playerCacheKey steamId appId) = None) as Hgone.
  { destruct (GET_world env1 w) as [Heq|(s & a & _ & _ & _ & _ & Hstore)].
    { fold w1 in Heq. by rewrite Heq in Hwritten. }
    destruct (Hstore (playerCacheKey steamId appId))
      as [?|(K & p & _ & _ & _ & _ & Hentry)]; [done|].
    fold w1 in Hentry. unfold cached. rewrite Hentry.
    unfold CACHE_TTL_SECONDS. by rewrite bool_decide_false by lia. }
  split; [done|].
  rewrite (GET_eq env2 w1 steamId appId key2) by done. simpl.
  unfold handle. unfold mbind at 1. unfold M_bind.
  rewrite resolvePlayer_readThrough, readThrough_eq, cacheRead_connected.
  assert (cacheRead (redisUp env2 w1) env2 w1 (playerCacheKey steamId appId) = None) as ->.
  { unfold cacheRead. rewrite Hgone. by destruct (_ && _). }
  destruct (playerUpstream env2) as [|st b]; cbn [fst snd].
  { exists []. simpl. by rewrite connected_calls. }
  destruct (ok st).
  - destruct b as [d|]; cbn [fst snd]; [|exists []; simpl; by rewrite connected_calls].
    destruct (after_player_appendsCalls (redisUp env2 w1) steamId appId d env2
      (afterStore (redisUp env2 w1) (playerSuccess d) env2 (playerCacheKey steamId appId)
         (PlayerPayload d) (logCall (GetPlayerAchievements steamId appId)
                              (connected env2 w1)))) as [c Hc].
    exists c. rewrite afterStore_calls in Hc. simpl in Hc.
    rewrite connected_calls in Hc. exact Hc.
  - rewrite (surjective_pairing (playerNotOk st b env2 _)), playerNotOk_world.
    exists []. unfold playerNotOk, passOn.
    destruct (reportedReason b); [|destruct (responseStatusOk st)];
      simpl; by rewrite connected_calls.
Qed.

Lemma expired_entry_is_refetched_witness :
  cached env440NextDay (GET env440 freshWorld).2
    (playerCacheKey "76561198000000000" "440") = None ∧
  ∃ calls,
    upstreamCalls (GET env440NextDay (GET env440 freshWorld).2).2 =
      calls ++ GetPlayerAchievements "76561198000000000" "440" ::
        upstreamCalls (GET env440 freshWorld).2.
Proof.
  apply (expired_entry_is_refetched env440 env440NextDay freshWorld
           "76561198000000000" "440" "key" "key"); try reflexivity.
  - vm_compute. discriminate.
  - vm_compute. discriminate.
Defined.

(** *** Upstream failures *)

Lemma readThrough_throws {T} redis key call (up : Env → FetchResult T) unwrap wrap valid
    notOk env w :
  cacheRead redis env w key = None → throws (up env) →
  ∃ w', readThrough redis key call up unwrap wrap valid notOk env w = (Throw, w').
Proof.
  intros Hmiss Hthrows. rewrite readThrough_eq, Hmiss. unfold throws in Hthrows.
  destruct (up env) as [|st [d|]]; [by eexists|done|]. rewrite Hthrows. by eexists.
Qed.

(** X13.  An exception in any of the three sections ends the request in the
    outer [catch]: when a section's lookup finds nothing and its upstream
    call fails in transport, or is answered with an OK status and a body
    that is not JSON, the response is status 500 with the generic message.
    This holds for the rarity section as for the other two. *)
Theorem fetch_exception_is_500 env w steamId appId key :
  truthy (cookieSteamId env) = Some steamId →
  truthy (paramAppId env) = Some appId →
  truthy (STEAM_API_KEY env) = Some key →
  (cacheRead (redisUp env w) env w (playerCacheKey steamId appId) = None ∧
   throws (playerUpstream env)) ∨
  (∃ pd, playerBody env w steamId appId = Some pd ∧ playerSuccess pd = true ∧
     ((cacheRead (redisUp env w) env w (schemaCacheKey appId) = None ∧
       throws (schemaUpstream env)) ∨
      (∃ sd, schemaBody env w appId = Some sd ∧ is_Some (schemaList sd) ∧
             cacheRead (redisUp env w) env w (globalCacheKey appId) = None ∧
             throws (globalUpstream env)))) →
  (GET env w).1 =
    {| status := 500; body := Message (Text "An internal server error occurred.") |}.
Proof.
  intros Hs Ha Hk Hcase. rewrite (GET_eq env w steamId appId key) by done. simpl.
  destruct Hcase as [[Hmiss Hthrows]|(pd & Hpd & Hok & Hcase)].
  { unfold handle. unfold mbind at 1. unfold M_bind.
    rewrite resolvePlayer_readThrough.
    destruct (readThrough_throws (redisUp env w) (playerCacheKey steamId appId)
      (GetPlayerAchievements steamId appId) playerUpstream asPlayer PlayerPayload
      playerSuccess playerNotOk env (connected env w)) as [w' ->]; try done.
    by rewrite cacheRead_connected. }
  destruct (resolvePlayer_body env w steamId appId pd Hpd) as (w1 & Hplayer & Hst1).
  unfold handle. unfold mbind at 1. unfold M_bind. rewrite Hplayer.
  unfold mbind at 1. unfold M_bind.
  destruct (validatePlayer_success pd env w1 Hok) as [pl ->].
  unfold mbind at 1. unfold M_bind. rewrite resolveSchema_readThrough.
  destruct Hcase as [[Hmiss Hthrows]|(sd & Hsd & Hlist & Hmiss & Hthrows)].
  { destruct (readThrough_throws (redisUp env w) (schemaCacheKey appId)
      (GetSchemaForGame appId) schemaUpstream asSchema SchemaPayload
      (λ d, bool_decide (is_Some (schemaList d))) schemaNotOk env w1) as [w' ->]; try done.
    by rewrite (cacheRead_store _ _ w w1) by (apply Hst1; done). }
  destruct (readThrough_body (redisUp env w) (schemaCacheKey appId)
              (GetSchemaForGame appId) schemaUpstream asSchema SchemaPayload
              (λ d, bool_decide (is_Some (schemaList d))) schemaNotOk env w1 sd
              schemaNotOk_world) as (w2 & -> & Hst2).
  { rewrite (cacheRead_store _ _ w w1) by (apply Hst1; done). exact Hsd. }
  unfold mbind at 1. unfold M_bind.
  destruct Hlist as [sc Hlist]. unfold schemaList in Hlist. unfold validateSchema at 1.
  destruct (game sd) as [g|]; [|done]. simpl in Hlist.
  destruct (availableGameStats g) as [ags|]; [|done].
  unfold mret at 1. unfold M_ret. unfold mbind at 1. unfold M_bind.
  rewrite resolveGlobal_readThrough.
  destruct (readThrough_throws (redisUp env w) (globalCacheKey appId)
      (GetGlobalAchievementPercentagesForApp appId) globalUpstream asGlobal GlobalPayload
      (λ _, true) globalNotOk env w2) as [w' ->]; try done.
  rewrite (cacheRead_store _ _ w1 w2) by (apply Hst2; apply not_eq_sym, key_schema_global).
  by rewrite (cacheRead_store _ _ w w1) by (apply Hst1; apply not_eq_sym, key_player_global).
Qed.

(** X14.  A player or schema call answered with a status that is not OK ends
    the request with that same status and a message naming it, when a
    response with a body can carry the status (200 to 599, not 204, 205 or
    304); the player section does so when the error body reports no reason
    of its own.  Such a status is passed on as it is, whether 3xx, 4xx or
    5xx.  With any other status building the response throws, and the
    request ends in the outer [catch] with status 500. *)
Theorem upstream_status_is_passed_on env w steamId appId key st :
  truthy (cookieSteamId env) = Some steamId →
  truthy (paramAppId env) = Some appId →
  truthy (STEAM_API_KEY env) = Some key →
  ok st = false →
  (∀ b, cacheRead (redisUp env w) env w (playerCacheKey steamId appId) = None →
        playerUpstream env = Responded st b → reportedReason b = None →
        (GET env w).1 =
          if responseStatusOk st
          then {| status := st; body := Message (PlayerFetchFailed st) |}
          else {| status := 500;
                  body := Message (Text "An internal server error occurred.") |}) ∧
  (∀ pd b, playerBody env w steamId appId = Some pd → playerSuccess pd = true →
        cacheRead (redisUp env w) env w (schemaCacheKey appId) = None →
        schemaUpstream env = Responded st b →
        (GET env w).1 =
          if responseStatusOk st
          then {| status := st; body := Message (SchemaFetchFailed st) |}
          else {| status := 500;
                  body := Message (Text "An internal server error occurred.") |}).
Proof.
  intros Hs Ha Hk Hok. rewrite (GET_eq env w steamId appId key) by done. simpl. split.
  - intros b Hmiss Hup Hreason. unfold handle. unfold mbind at 1. unfold M_bind.
    rewrite resolvePlayer_readThrough, readThrough_eq, cacheRead_connected, Hmiss, Hup, Hok.
    unfold playerNotOk, passOn. rewrite Hreason. by destruct (responseStatusOk st).
  - intros pd b Hpd Hsucc Hmiss Hup.
    destruct (resolvePlayer_body env w steamId appId pd Hpd) as (w1 & Hplayer & Hst1).
    unfold handle. unfold mbind at 1. unfold M_bind. rewrite Hplayer.
    unfold mbind at 1. unfold M_bind.
    destruct (validatePlayer_success pd env w1 Hsucc) as [pl ->].
    unfold mbind at 1. unfold M_bind.
    rewrite resolveSchema_readThrough, readThrough_eq.
    rewrite (cacheRead_store _ _ w w1) by (apply Hst1; done).
    rewrite Hmiss, Hup, Hok. unfold schemaNotOk, passOn.
    by destruct (responseStatusOk st).
Qed.

Lemma fetch_exception_is_500_witness :
  (GET env440RarityUnreachable freshWorld).1 =
    {| status := 500; body := Message (Text "An internal server error occurred.") |}.
Proof.
  apply (fetch_exception_is_500 env440RarityUnreachable freshWorld
           "76561198000000000" "440" "key"); try reflexivity.
  right. exists playerBody440. split; [reflexivity|]. split; [reflexivity|].
  right. exists schemaBody440. split; [reflexivity|]. split; [by eexists|].
  split; reflexivity.
Defined.

Lemma upstream_status_is_passed_on_witness :
  (GET env440PlayerBusy freshWorld).1 =
    {| status := 503; body := Message (PlayerFetchFailed 503) |} ∧
  (GET env440SchemaBusy freshWorld).1 =
    {| status := 503; body := Message (SchemaFetchFailed 503) |} ∧
  (GET env440PlayerNotModified freshWorld).1 =
    {| status := 500; body := Message (Text "An internal server error occurred.") |} ∧
  (GET env440SchemaNotModified freshWorld).1 =
    {| status := 500; body := Message (Text "An internal server error occurred.") |}.
Proof.
  split; [|split; [|split]].
  - apply (proj1 (upstream_status_is_passed_on env440PlayerBusy freshWorld
             "76561198000000000" "440" "key" 503 eq_refl eq_refl eq_refl eq_refl) None);
      reflexivity.
  - apply (proj2 (upstream_status_is_passed_on env440SchemaBusy freshWorld
             "76561198000000000" "440" "key" 503 eq_refl eq_refl eq_refl eq_refl)
             playerBody440 None); reflexivity.
  - apply (proj1 (upstream_status_is_passed_on env440PlayerNotModified freshWorld
             "76561198000000000" "440" "key" 304 eq_refl eq_refl eq_refl eq_refl) None);
      reflexivity.
  - apply (proj2 (upstream_status_is_passed_on env440SchemaNotModified freshWorld
             "76561198000000000" "440" "key" 304 eq_refl eq_refl eq_refl eq_refl)
             playerBody440 None); reflexivity.
Defined.

End HandlerStepFacts.

(** ** The cache client under concurrent callers *)

Module RedisClientFacts.
Import RedisClient.

Lemma getRedisClient_cases s :
  (getRedisClient s).2 = s ∨
  (connectPromise s = None ∧
   (getRedisClient s).2 =
     {| redisClient := redisClient s; connectPromise := Some (created s);
        created := S (created s); connecting := {[created s]} ∪ connecting s;
        isOpen := isOpen s |}).
Proof.
  unfold getRedisClient.
  destruct (redisClient s) as [c|]; [case_bool_decide; [by left|]|];
    (destruct (connectPromise s) as [c'|]; [by left|by right]).
Qed.

Lemma settle_cases s c :
  singleFlight s → c ∈ connecting s →
  connectPromise s = Some c ∧ connecting s = {[c]} ∧ connecting s ∖ {[c]} = ∅.
Proof.
  unfold singleFlight. intros Hs Hc. rewrite Hs in *.
  destruct (connectPromise s) as [c'|]; [|by apply not_elem_of_empty in Hc].
  apply elem_of_singleton in Hc as ->. by rewrite difference_diag_L.
Qed.

Lemma step_singleFlight s e s' :
  singleFlight s → step s e = Some s' → singleFlight s'.
Proof.
  intros Hs Hstep. destruct e as [|c|c|c]; simpl in Hstep.
  - simplify_eq. destruct (getRedisClient_cases s) as [->|[Hp ->]]; [done|].
    unfold singleFlight in *. simpl. by rewrite Hs, Hp, union_empty_r_L.
  - case_bool_decide as Hc; [|done]. simplify_eq.
    destruct (settle_cases s c Hs Hc) as (_ & _ & Hempty). done.
  - case_bool_decide as Hc; [|done]. simplify_eq.
    destruct (settle_cases s c Hs Hc) as (_ & _ & Hempty). done.
  - by simplify_eq.
Qed.

Lemma step_created s e s' :
  singleFlight s → step s e = Some s' →
  (created s' + size (connecting s) = created s + size (connecting s') + settles e)%nat.
Proof.
  intros Hs Hstep. destruct e as [|c|c|c]; simpl in Hstep.
  - simplify_eq. destruct (getRedisClient_cases s) as [->|[Hp ->]]; [simpl; lia|].
    unfold singleFlight in Hs. rewrite Hp in Hs. simpl.
    rewrite Hs, union_empty_r_L, size_empty, size_singleton. lia.
  - case_bool_decide as Hc; [|done]. simplify_eq.
    destruct (settle_cases s c Hs Hc) as (_ & Hone & Hempty). simpl.
    rewrite Hempty, Hone, size_empty, size_singleton. lia.
  - case_bool_decide as Hc; [|done]. simplify_eq.
    destruct (settle_cases s c Hs Hc) as (_ & Hone & Hempty). simpl.
    rewrite Hempty, Hone, size_empty, size_singleton. lia.
  - simplify_eq. simpl. lia.
Qed.

(** X16.  At most one connection attempt is in flight, however the calls
    of concurrent requests and the settling of attempts interleave: after
    any history from the initial state, the clients still connecting are at
    most one, namely the one [connectPromise] stands for; every client ever
    created has settled or is that one, so a burst of calls between two
    settlements creates one client; and the memoised client, if any, is one
    whose connection succeeded. *)
Theorem single_flight (events : list Event) (s : State) :
  run initial events = Some s →
  singleFlight s ∧
  (size (connecting s) ≤ 1)%nat ∧
  created s = (settled events + size (connecting s))%nat ∧
  ∀ c, redisClient s = Some c → Connected c ∈ events.
Proof.
  assert (∀ evs s0 s1, singleFlight s0 → run s0 evs = Some s1 →
            singleFlight s1 ∧
            (created s1 + size (connecting s0) = created s0 + settled evs + size (connecting s1))%nat ∧
            ∀ c, redisClient s1 = Some c → redisClient s0 = Some c ∨ Connected c ∈ evs)
    as Hgen.
  { induction evs as [|e evs IH]; intros s0 s1 Hs0 Hrun; simpl in Hrun.
    { simplify_eq. split; [done|]. split; [unfold settled; simpl; lia|]. auto. }
    destruct (step s0 e) as [s'|] eqn:Hstep; [|done]. simpl in Hrun.
    pose proof (step_singleFlight _ _ _ Hs0 Hstep) as Hs'.
    pose proof (step_created _ _ _ Hs0 Hstep) as Hcount.
    destruct (IH s' s1 Hs' Hrun) as (Hs1 & Hcount' & Hclient).
    split; [done|]. split.
    - unfold settled in *. rewrite fmap_cons. simpl. lia.
    - intros c Hc. destruct (Hclient c Hc) as [Hc'|Hin]; [|right; by apply elem_of_cons; right].
      destruct e as [|c'|c'|c']; simpl in Hstep.
      + simplify_eq. left.
        by destruct (getRedisClient_cases s0) as [Heq|[_ Heq]]; rewrite Heq in Hc'.
      + case_bool_decide; [|done]. simplify_eq. simpl in Hc'. simplify_eq.
        right. apply elem_of_cons. by left.
      + case_bool_decide; [|done]. by simplify_eq.
      + simplify_eq. by left. }
  intros Hrun. destruct (Hgen events initial s eq_refl Hrun) as (Hs & Hcount & Hclient).
  split; [done|]. split; [|split].
  - rewrite Hs. destruct (connectPromise s); rewrite ?size_singleton, ?size_empty; lia.
  - change (connecting initial) with (∅ : gset nat) in Hcount.
    change (created initial) with 0%nat in Hcount.
    rewrite size_empty in Hcount. lia.
  - intros c Hc. by destruct (Hclient c Hc).
Qed.

Lemma single_flight_witness :
  let s := {| redisClient := Some 1%nat; connectPromise := None; created := 2;
              connecting := ∅; isOpen := {[1%nat]} |} in
  singleFlight s ∧
  (size (connecting s) ≤ 1)%nat ∧
  created s = (settled [Call; Call; Call; Failed 0%nat; Call; Call; Connected 1%nat; Call]
               + size (connecting s))%nat ∧
  ∀ c, redisClient s = Some c →
       Connected c ∈ [Call; Call; Call; Failed 0%nat; Call; Call; Connected 1%nat; Call].
Proof.
  apply (single_flight [Call; Call; Call; Failed 0%nat; Call; Call; Connected 1%nat; Call]).
  vm_compute. reflexivity.
Defined.

End RedisClientFacts.

(** ** The owned-games handler *)

Module OwnedGamesFacts.
Import Aggregator Handler SortFacts OwnedGames.

Lemma byPlaytime_before a b :
  before byPlaytime a b ↔ playtime_forever b ≤ playtime_forever a.
Proof.
  unfold before, byPlaytime. rewrite <-Z2Qc_inj_le. lia.
Qed.

Lemma byPlaytime_total a b : before byPlaytime a b ∨ before byPlaytime b a.
Proof. rewrite !byPlaytime_before. lia. Qed.

(** X17.  When Steam answers the owned-games call with a games array, the
    handler answers 200 with the same games, none lost or added, ordered by
    total playtime from the most played down; games with equal playtime
    keep the order Steam gave them; and [game_count] is passed through as
    Steam sent it. *)
Theorem owned_games_sorted env key steamId st data r gs :
  truthy (STEAM_API_KEY env) = Some key →
  truthy (cookieSteamId env) = Some steamId →
  steam env = Responded st (Some data) → ok st = true →
  response data = Some r → games r = Some gs →
  ∃ sorted,
    GET env = ({| og_status := 200; og_body := Games (game_count r) sorted |}, true) ∧
    sorted ≡ₚ gs ∧
    (∀ i a b, sorted !! i = Some a → sorted !! S i = Some b →
              playtime_forever b ≤ playtime_forever a) ∧
    (∀ t, filter (λ g, playtime_forever g = t) sorted =
          filter (λ g, playtime_forever g = t) gs).
Proof.
  intros Hk Hs Hsteam Hok Hr Hgs. exists (js_sort byPlaytime gs).
  split; [|split; [|split]].
  - unfold GET. by rewrite Hk, Hs, Hsteam, Hok, Hr, Hgs.
  - apply js_sort_perm.
  - intros i a b Ha Hb. apply byPlaytime_before.
    eapply Sorted_adjacent; [|exact Ha|exact Hb].
    apply js_sort_sorted, byPlaytime_total.
  - intros t. apply js_sort_filter.
    intros x y Hx Hy. apply byPlaytime_before. lia.
Qed.

Lemma owned_games_sorted_witness :
  ∃ sorted,
    GET envLibrary = ({| og_status := 200; og_body := Games (Some 3) sorted |}, true) ∧
    sorted ≡ₚ library ∧
    (∀ i a b, sorted !! i = Some a → sorted !! S i = Some b →
              playtime_forever b ≤ playtime_forever a) ∧
    (∀ t, filter (λ g, playtime_forever g = t) sorted =
          filter (λ g, playtime_forever g = t) library).
Proof.
  apply (owned_games_sorted envLibrary "key" "76561198000000000" 200
           {| response := Some {| game_count := Some 3; games := Some library;
                                  otherKeys := 0 |} |}
           {| game_count := Some 3; games := Some library; otherKeys := 0 |} library);
    reflexivity.
Defined.

End OwnedGamesFacts.

(** ** The OpenID callback *)

Module OpenIdCallbackFacts.
Import OpenIdCallback.

Lemma append_nil_l s : "" +:+ s = s.
Proof. reflexivity. Qed.

Lemma append_cons a p s : String a p +:+ s = String a (p +:+ s).
Proof. reflexivity. Qed.

Lemma stripPrefix_Some p s rest : stripPrefix p s = Some rest ↔ s = p +:+ rest.
Proof.
  revert s. induction p as [|a p IH]; intros s.
  - rewrite append_nil_l. destruct s; simpl; (split; [intros [= ->]|intros ->]; done).
  - rewrite append_cons. destruct s as [|b s]; simpl; [done|]. case_decide as Hab.
    + subst b. rewrite IH. split; [by intros ->|by intros [= ->]].
    + split; [done|]. intros [= ? ?]. done.
Qed.

Lemma steamIdMatch_Some claimedId steamId :
  steamIdMatch claimedId = Some steamId ↔
  (claimedId = "https://steamcommunity.com/openid/id/" +:+ steamId ∨
   claimedId = "http://steamcommunity.com/openid/id/" +:+ steamId) ∧
  steamId ≠ "" ∧ allDigits steamId = true.
Proof.
  unfold steamIdMatch. split.
  - destruct (stripPrefix "https://steamcommunity.com/openid/id/" claimedId)
      as [rest|] eqn:Hs; cbn [mbind option_bind].
    + apply stripPrefix_Some in Hs. case_bool_decide as Hne; [|done].
      destruct (allDigits rest) eqn:Hd; [|done]. intros [= ->]. auto.
    + destruct (stripPrefix "http://steamcommunity.com/openid/id/" claimedId)
        as [rest|] eqn:Hp; cbn [mbind option_bind]; [|done].
      apply stripPrefix_Some in Hp. case_bool_decide as Hne; [|done].
      destruct (allDigits rest) eqn:Hd; [|done]. intros [= ->]. auto.
  - intros ([->| ->] & Hne & Hd).
    + rewrite (proj2 (stripPrefix_Some _ _ steamId) eq_refl). cbn [mbind option_bind].
      by rewrite bool_decide_true, Hd.
    + assert (stripPrefix "https://steamcommunity.com/openid/id/"
                ("http://steamcommunity.com/openid/id/" +:+ steamId) = None) as ->
        by reflexivity.
      rewrite (proj2 (stripPrefix_Some _ _ steamId) eq_refl). cbn [mbind option_bind].
      by rewrite bool_decide_true, Hd.
Qed.

(** X18.  The session cookie is set exactly when the callback is in mode
    [id_res], Steam answers the verification request with a text that
    contains [is_valid:true], and the claimed identity is
    [http(s)://steamcommunity.com/openid/id/] followed by one or more
    decimal digits and nothing else; the cookie then holds those digits, and
    the handler redirects to the home page without an error.  In every other
    case no cookie is set and the redirect carries an error code. *)
Theorem session_cookie_iff (env : Env) (steamId : string) :
  (cookie (GET env) = Some steamId ↔
   get "openid.mode" (searchParams env) = Some "id_res" ∧
   (∃ text, steam env (verificationParams (searchParams env)) = Some text ∧
            includes "is_valid:true" text = true) ∧
   (∃ claimedId, get "openid.claimed_id" (searchParams env) = Some claimedId ∧
      (claimedId = "https://steamcommunity.com/openid/id/" +:+ steamId ∨
       claimedId = "http://steamcommunity.com/openid/id/" +:+ steamId)) ∧
   steamId ≠ "" ∧ allDigits steamId = true) ∧
  (redirect (GET env) = Home ↔ is_Some (cookie (GET env))).
Proof.
  unfold GET. split.
  - case_bool_decide as Hmode; cbn [negb cookie].
    2: { split; [done|]. by intros (? & _). }
    destruct (steam env _) as [text|] eqn:Hsteam; cbn [cookie].
    2: { split; [done|]. by intros (_ & (? & ? & _) & _). }
    destruct (includes "is_valid:true" text) eqn:Hvalid; cbn [negb cookie].
    2: { split; [done|]. intros (_ & (? & ? & ?) & _). congruence. }
    destruct (get "openid.claimed_id" (searchParams env)) as [claimedId|] eqn:Hclaimed;
      cbn [mbind option_bind cookie].
    2: { split; [done|]. by intros (_ & _ & (? & ? & _) & _). }
    destruct (steamIdMatch claimedId) as [id|] eqn:Hmatch; cbn [cookie].
    + split.
      * intros [= ->]. apply steamIdMatch_Some in Hmatch as (Hc & Hne & Hd).
        split; [done|]. split; [by exists text|]. split; [by exists claimedId|]. done.
      * intros (_ & _ & (c & [= <-] & Hc) & Hne & Hd).
        assert (steamIdMatch claimedId = Some steamId) as Hm
          by (by apply steamIdMatch_Some).
        congruence.
    + split; [done|]. intros (_ & _ & (c & [= <-] & Hc) & Hne & Hd).
      assert (steamIdMatch claimedId = Some steamId) as Hm
        by (by apply steamIdMatch_Some).
      congruence.
  - case_bool_decide as Hmode; cbn [negb cookie redirect];
      [|split; [done|by intros [? ?]]].
    destruct (steam env _) as [text|]; cbn [cookie redirect];
      [|split; [done|by intros [? ?]]].
    destruct (includes "is_valid:true" text); cbn [negb cookie redirect];
      [|split; [done|by intros [? ?]]].
    destruct (get "openid.claimed_id" (searchParams env) ≫= steamIdMatch);
      cbn [cookie redirect].
    + split; [by eexists|done].
    + split; [done|by intros [? ?]].
Qed.

Example confirmed_callback_sets_cookie :
  GET envConfirmed =
    {| redirect := Home; cookie := Some "76561198000000000";
       posted := Some [("openid.ns", "http://specs.openid.net/auth/2.0");
                       ("openid.mode", "check_authentication");
                       ("openid.ns", "http://specs.openid.net/auth/2.0");
                       ("openid.claimed_id",
                        "https://steamcommunity.com/openid/id/76561198000000000");
                       ("openid.sig", "c2lnbmF0dXJl")] |}.
Proof. vm_compute. reflexivity. Qed.

Lemma filter_eq_ne key (params : list (string * string)) :
  filter (λ p, p.1 = key) (filter (λ p, p.1 ≠ key) params) = [].
Proof.
  induction params as [|[k v] rest IH]; [done|].
  rewrite (filter_cons (λ p, p.1 ≠ key)). case_decide as Hk; [|done].
  by rewrite filter_cons_False.
Qed.

Lemma filter_ne_ne key (params : list (string * string)) :
  filter (λ p, p.1 ≠ key) (filter (λ p, p.1 ≠ key) params) =
  filter (λ p, p.1 ≠ key) params.
Proof.
  induction params as [|[k v] rest IH]; [done|].
  rewrite (filter_cons (λ p, p.1 ≠ key)). case_decide as Hk; [|done].
  rewrite filter_cons_True by done. by f_equal.
Qed.

Lemma set_filter_eq key value params :
  filter (λ p, p.1 = key) (set key value params) = [(key, value)].
Proof.
  induction params as [|[k v] rest IH]; cbn [set].
  - by rewrite filter_cons_True.
  - case_decide as Hk.
    + rewrite filter_cons_True by done. by rewrite filter_eq_ne.
    + by rewrite filter_cons_False.
Qed.

Lemma set_filter_ne key value params :
  filter (λ p, p.1 ≠ key) (set key value params) = filter (λ p, p.1 ≠ key) params.
Proof.
  induction params as [|[k v] rest IH]; cbn [set].
  - by rewrite filter_cons_False by (simpl; auto).
  - case_decide as Hk.
    + rewrite !filter_cons_False by (simpl; auto). apply filter_ne_ne.
    + rewrite !filter_cons_True by done. by f_equal.
Qed.

Lemma forwarded_params init searchParams :
  foldl (λ acc '(key, value),
           if String.prefix "openid." key then append key value acc else acc)
    init searchParams =
  init ++ filter (λ p, String.prefix "openid." p.1 = true) searchParams.
Proof.
  revert init. induction searchParams as [|[k v] rest IH]; intros init; simpl.
  - by rewrite app_nil_r.
  - rewrite IH, filter_cons. simpl. destruct (String.prefix "openid." k) eqn:Hk.
    + rewrite decide_True by done. unfold append. by rewrite <-app_assoc.
    + by rewrite decide_False by done.
Qed.

(** X19.  The verification request sent to Steam carries exactly one
    [openid.mode], with the value [check_authentication]; apart from it, it
    consists of the fixed [openid.ns] followed by every parameter of the
    callback whose name starts with [openid.], other than the mode, in the
    callback's order and with the callback's values.  A parameter whose name
    does not start with [openid.] is never sent on. *)
Theorem verification_request (searchParams : list (string * string)) :
  filter (λ p, p.1 = "openid.mode") (verificationParams searchParams) =
    [("openid.mode", "check_authentication")] ∧
  filter (λ p, p.1 ≠ "openid.mode") (verificationParams searchParams) =
    ("openid.ns", "http://specs.openid.net/auth/2.0") ::
    filter (λ p, p.1 ≠ "openid.mode")
      (filter (λ p, String.prefix "openid." p.1 = true) searchParams) ∧
  ∀ p, p ∈ verificationParams searchParams → String.prefix "openid." p.1 = true.
Proof.
  unfold verificationParams. rewrite forwarded_params.
  assert (filter (λ p : string * string, p.1 ≠ "openid.mode")
            (set "openid.mode" "check_authentication"
               ([("openid.ns", "http://specs.openid.net/auth/2.0");
                 ("openid.mode", "check_authentication")] ++
                filter (λ p, String.prefix "openid." p.1 = true) searchParams)) =
          ("openid.ns", "http://specs.openid.net/auth/2.0") ::
          filter (λ p, p.1 ≠ "openid.mode")
            (filter (λ p, String.prefix "openid." p.1 = true) searchParams)) as Hothers.
  { rewrite set_filter_ne, filter_app.
    rewrite filter_cons_True by done. by rewrite filter_cons_False by (simpl; auto). }
  split; [apply set_filter_eq|]. split; [done|].
  intros [k v] Hin. destruct (decide (k = "openid.mode")) as [->|Hk]; [done|].
  assert ((k, v) ∈ filter (λ p : string * string, p.1 ≠ "openid.mode")
            (set "openid.mode" "check_authentication"
               ([("openid.ns", "http://specs.openid.net/auth/2.0");
                 ("openid.mode", "check_authentication")] ++
                filter (λ p, String.prefix "openid." p.1 = true) searchParams))) as Hin'.
  { by apply list_elem_of_filter. }
  rewrite Hothers in Hin'. apply elem_of_cons in Hin' as [[= -> ->]|Hin']; [done|].
  apply list_elem_of_filter in Hin' as [_ Hin'].
  by apply list_elem_of_filter in Hin' as [Hp _].
Qed.

End OpenIdCallbackFacts.

(** ** Token ids: no collisions short of Keccak *)

Module TokenIdMoreFacts.
Import TokenId TokenIdFacts.

Lemma bigEndian_snoc bs b : bigEndian (bs ++ [b]) = 256 * bigEndian bs + b.
Proof. unfold bigEndian. by rewrite foldl_app. Qed.

Lemma bigEndian_inj bs bs' :
  Forall is_byte bs → Forall is_byte bs' → length bs = length bs' →
  bigEndian bs = bigEndian bs' → bs = bs'.
Proof.
  revert bs'. induction bs as [|b bs IH] using rev_ind; intros bs' Hbs Hbs' Hlen Heq.
  { destruct bs'; [done|]. done. }
  destruct bs' as [|b' bs' _] using rev_ind.
  { rewrite length_app in Hlen. simpl in Hlen. lia. }
  rewrite !length_app in Hlen. simpl in Hlen.
  rewrite !bigEndian_snoc in Heq.
  apply Forall_app in Hbs as [Hbs Hb]. apply Forall_app in Hbs' as [Hbs' Hb'].
  rewrite Forall_singleton in Hb. rewrite Forall_singleton in Hb'.
  unfold is_byte in Hb, Hb'.
  assert (bigEndian bs = bigEndian bs' ∧ b = b') as [Hrec ->] by lia.
  f_equal. apply IH; [done..|lia|done].
Qed.

Lemma uint32BigEndian_inj v v' :
  0 ≤ v < 2 ^ 32 → 0 ≤ v' < 2 ^ 32 → uint32BigEndian v = uint32BigEndian v' → v = v'.
Proof.
  unfold uint32BigEndian. intros Hv Hv' [= H3 H2 H1 H0].
  Z.div_mod_to_equations. lia.
Qed.

Lemma generateTokenId_in_range appId achievementApiName :
  0 ≤ appId < 2 ^ 32 →
  generateTokenId appId achievementApiName = Some (tokenIdSpec appId achievementApiName).
Proof.
  intros Hid. unfold generateTokenId. rewrite encodePacked_bytes by done.
  cbn [mbind option_bind]. rewrite keccak256_bytes.
  - cbn [mbind option_bind].
    apply hexToBigInt_bytesToHex; [apply keccak_256_bytes|].
    intros Hnil. pose proof (keccak_256_length
      (uint32BigEndian appId ++ stringToBytes achievementApiName)) as Hlen.
    by rewrite Hnil in Hlen.
  - apply Forall_app. split; [apply uint32BigEndian_bytes|apply stringToBytes_bytes].
Qed.

Lemma generateTokenId_is_Some appId achievementApiName tokenId :
  generateTokenId appId achievementApiName = Some tokenId ↔
  0 ≤ appId < 2 ^ 32 ∧ tokenId = tokenIdSpec appId achievementApiName.
Proof.
  split.
  - intros Hgen. destruct (decide (0 ≤ appId < 2 ^ 32)) as [Hid|Hid].
    + rewrite generateTokenId_in_range in Hgen by done. by simplify_eq.
    + revert Hgen. unfold generateTokenId, encodePacked, numberToHex.
      rewrite bool_decide_false; [done|]. simpl. lia.
  - intros [Hid ->]. by apply generateTokenId_in_range.
Qed.

(** X25.  Take two achievements with appIds of 32 bits that differ in the
    appId or in the UTF-8 bytes of the name.  Both get a token id; their
    packed encodings (the appId as four bytes, then the bytes of the name)
    are two different byte strings; and their token ids are equal exactly
    when the Keccak-256 digests of these two encodings are equal.  So the
    packing loses nothing and the 32 digest bytes are read back without
    loss: two achievements share a token id only by a Keccak-256 collision
    between their own encodings. *)
Theorem token_ids_collide_only_with_keccak appId name appId' name' :
  0 ≤ appId < 2 ^ 32 →
  0 ≤ appId' < 2 ^ 32 →
  appId ≠ appId' ∨ stringToBytes name ≠ stringToBytes name' →
  uint32BigEndian appId ++ stringToBytes name ≠
    uint32BigEndian appId' ++ stringToBytes name' ∧
  Forall is_byte (uint32BigEndian appId ++ stringToBytes name) ∧
  Forall is_byte (uint32BigEndian appId' ++ stringToBytes name') ∧
  is_Some (generateTokenId appId name) ∧
  is_Some (generateTokenId appId' name') ∧
  (generateTokenId appId name = generateTokenId appId' name' ↔
   keccak_256 (uint32BigEndian appId ++ stringToBytes name) =
   keccak_256 (uint32BigEndian appId' ++ stringToBytes name')).
Proof.
  intros Hid Hid' Hdiff.
  rewrite !generateTokenId_in_range by done. unfold tokenIdSpec.
  split; [|split; [|split; [|split; [by eexists|split; [by eexists|]]]]].
  - intros Hsame. apply app_inj_1 in Hsame as [Ha Hn]; [|done].
    destruct Hdiff as [Hdiff|Hdiff]; [|done].
    by apply Hdiff, uint32BigEndian_inj.
  - apply Forall_app. split; [apply uint32BigEndian_bytes|apply stringToBytes_bytes].
  - apply Forall_app. split; [apply uint32BigEndian_bytes|apply stringToBytes_bytes].
  - split; [|by intros ->].
    intros [= Heq]. apply bigEndian_inj in Heq;
      [done|apply keccak_256_bytes..|by rewrite !keccak_256_length].
Qed.

Lemma token_ids_collide_only_with_keccak_witness :
  uint32BigEndian 440 ++ stringToBytes "TF_PLAY_GAME" ≠
    uint32BigEndian 440 ++ stringToBytes "TF_GET_KILL" ∧
  Forall is_byte (uint32BigEndian 440 ++ stringToBytes "TF_PLAY_GAME") ∧
  Forall is_byte (uint32BigEndian 440 ++ stringToBytes "TF_GET_KILL") ∧
  is_Some (generateTokenId 440 "TF_PLAY_GAME") ∧
  is_Some (generateTokenId 440 "TF_GET_KILL") ∧
  (generateTokenId 440 "TF_PLAY_GAME" = generateTokenId 440 "TF_GET_KILL" ↔
   keccak_256 (uint32BigEndian 440 ++ stringToBytes "TF_PLAY_GAME") =
   keccak_256 (uint32BigEndian 440 ++ stringToBytes "TF_GET_KILL")).
Proof.
  apply (token_ids_collide_only_with_keccak 440 "TF_PLAY_GAME" 440 "TF_GET_KILL");
    [lia|lia|].
  right. vm_compute. discriminate.
Defined.

(** The two achievements of scenario 440 get different token ids. *)
Example scenario_440_token_ids_differ :
  generateTokenId 440 "TF_PLAY_GAME" ≠ generateTokenId 440 "TF_GET_KILL".
Proof. vm_compute. discriminate. Qed.

End TokenIdMoreFacts.

(** ** The mint button *)

Module MintPageFacts.
Import TokenId TokenIdFacts TokenIdMoreFacts MintPage.

(** What the page hands to [writeContract], when it does. *)
Lemma handleMint_submits h achievementApiName s args :
  (handleMint h achievementApiName s).2 = Some args →
  ∃ id account,
    appId h = Some id ∧ id ≠ 0 ∧ 0 ≤ id < 2 ^ 32 ∧
    isConnected h = true ∧ accountAddress h = Some account ∧
    chainId h = 84532 ∧
    args = {| to := account; wa_tokenId := tokenIdSpec id achievementApiName;
              wa_appId := id; achievementApiId := achievementApiName;
              data := "0x"; wa_chainId := 84532 |}.
Proof.
  unfold handleMint, truthyNumber.
  destruct (appId h) as [id|]; [|done].
  destruct (decide (id = 0)) as [->|Hid]; [done|].
  assert (match id with 0 => None | _ => Some id end = Some id) as -> by by destruct id.
  destruct (isConnected h); [|done].
  destruct (accountAddress h) as [account|]; [|done].
  case_bool_decide as Hchain.
  { by destruct (switchChain h). }
  destruct (generateTokenId id achievementApiName) as [tokenId|] eqn:Hgen; [|done].
  apply generateTokenId_is_Some in Hgen as [Hrange ->].
  simpl. intros [= <-]. exists id, account.
  unfold TARGET_CHAIN_ID in Hchain. repeat split; try done; lia.
Qed.

(** X20.  Clicking the mint button leads to a [writeContract] call exactly
    when the page has a non-zero appId that fits 32 bits, the wallet is
    connected with an address, and the wallet is on chain 84532.  The call
    then mints to the connected address the token whose id is the Keccak-256
    digest of the packed appId and name, passes that appId and name on, with
    empty data, on chain 84532.  On any other chain nothing is submitted. *)
Theorem mint_submission (h : Hooks) (achievementApiName : string) (s : PageState)
    (args : WriteArgs) :
  (handleMint h achievementApiName s).2 = Some args ↔
  ∃ id account,
    appId h = Some id ∧ id ≠ 0 ∧ 0 ≤ id < 2 ^ 32 ∧
    isConnected h = true ∧ accountAddress h = Some account ∧
    chainId h = 84532 ∧
    args = {| to := account; wa_tokenId := tokenIdSpec id achievementApiName;
              wa_appId := id; achievementApiId := achievementApiName;
              data := "0x"; wa_chainId := 84532 |}.
Proof.
  split; [apply handleMint_submits|]. unfold handleMint, truthyNumber.
  intros (id & account & -> & Hid & Hrange & -> & -> & Hchain & ->).
  assert (match id with 0 => None | _ => Some id end = Some id) as -> by by destruct id.
  rewrite bool_decide_false by (unfold TARGET_CHAIN_ID; lia).
  by rewrite generateTokenId_in_range.
Qed.

Lemma mint_submission_witness :
  (handleMint hooksReady "TF_PLAY_GAME" freshPage).2 =
    Some {| to := 2748; wa_tokenId := tokenIdSpec 440 "TF_PLAY_GAME"; wa_appId := 440;
            achievementApiId := "TF_PLAY_GAME"; data := "0x"; wa_chainId := 84532 |} ↔
  ∃ id account,
    appId hooksReady = Some id ∧ id ≠ 0 ∧ 0 ≤ id < 2 ^ 32 ∧
    isConnected hooksReady = true ∧ accountAddress hooksReady = Some account ∧
    chainId hooksReady = 84532 ∧
    {| to := 2748; wa_tokenId := tokenIdSpec 440 "TF_PLAY_GAME"; wa_appId := 440;
       achievementApiId := "TF_PLAY_GAME"; data := "0x"; wa_chainId := 84532 |} =
    {| to := account; wa_tokenId := tokenIdSpec id "TF_PLAY_GAME";
       wa_appId := id; achievementApiId := "TF_PLAY_GAME";
       data := "0x"; wa_chainId := 84532 |}.
Proof. apply (mint_submission hooksReady "TF_PLAY_GAME" freshPage). Defined.

Lemma lookup_setMintingStatus name st s other :
  mintingStatus (setMintingStatus name st s) !! other =
  if decide (name = other) then Some st else mintingStatus s !! other.
Proof. unfold setMintingStatus. simpl. apply lookup_insert. Qed.

(** X21.  What a click does to the status of the achievements.  The status
    of every other achievement is left as it was.  The status of the
    clicked one is left as it was (when the appId or the wallet is missing),
    or ends as [idle], [error] or [submitting]: no click ever ends in
    [success].  When a transaction was handed to the wallet, the status ends
    as [error] if the wallet rejected it and as [submitting] otherwise, also
    after [onSuccess]; in that state the button of the achievement is
    disabled, so the page offers no further click on it. *)
Theorem mint_status (h : Hooks) (achievementApiName : string) (s : PageState) :
  let s' := (handleMint h achievementApiName s).1 in
  (∀ other, other ≠ achievementApiName →
            mintingStatus s' !! other = mintingStatus s !! other) ∧
  (mintingStatus s' !! achievementApiName = mintingStatus s !! achievementApiName ∨
   mintingStatus s' !! achievementApiName = Some idle ∨
   mintingStatus s' !! achievementApiName = Some error ∨
   mintingStatus s' !! achievementApiName = Some submitting) ∧
  (∀ args, (handleMint h achievementApiName s).2 = Some args →
     match writeContract h args with
     | Rejected _ => mintingStatus s' !! achievementApiName = Some error
     | _ => mintingStatus s' !! achievementApiName = Some submitting ∧
            ∀ pending, buttonDisabled pending (mintingStatus s' !! achievementApiName) = true
     end).
Proof.
  cbn zeta. unfold handleMint.
  destruct (truthyNumber (appId h)) as [id|];
    [|by (split; [done|split; [by left|done]])].
  destruct (if isConnected h then accountAddress h else None) as [account|];
    [|by (split; [done|split; [by left|done]])].
  case_bool_decide as Hchain.
  { destruct (switchChain h) as [e|]; cbn [fst snd];
      (split; [|split; [|done]]);
      [intros other Hne|right; right; left|intros other Hne|right; left];
      rewrite ?lookup_setMintingStatus; cbn [setMintError mintingStatus];
      rewrite ?lookup_setMintingStatus; cbn [setMintError mintingStatus];
      rewrite ?lookup_setMintingStatus; repeat case_decide; done. }
  destruct (generateTokenId id achievementApiName) as [tokenId|]; cbn [fst snd].
  2: { split; [|split; [|done]]; [intros other Hne|right; right; left];
       rewrite ?lookup_setMintingStatus; cbn [setMintError mintingStatus];
       rewrite ?lookup_setMintingStatus; repeat case_decide; done. }
  split; [|split].
  - intros other Hne. destruct (writeContract h _);
      rewrite ?lookup_setMintingStatus; cbn [setMintError mintingStatus];
      rewrite ?lookup_setMintingStatus; cbn [setMintError mintingStatus];
      rewrite ?lookup_setMintingStatus; repeat case_decide; done.
  - destruct (writeContract h _); [right; right; right|right; right; right|right; right; left];
      rewrite ?lookup_setMintingStatus; repeat case_decide; done.
  - intros args [= <-].
    destruct (writeContract h _);
      rewrite ?lookup_setMintingStatus; repeat case_decide; try done;
      (split; [done|]); intros pending; unfold buttonDisabled;
      rewrite (bool_decide_true (Some submitting = Some submitting)) by done;
      by destruct pending.
Qed.

End MintPageFacts.

(** ** The token contract and the metadata route *)

Module AchievementNFTFacts.
Import TokenId MintPage AchievementNFT.

Lemma balanceOf_mint accepts operator to id value s s' account id' :
  _mint accepts operator to id value s = Some s' →
  balanceOf s' account id' =
    if decide ((id', account) = (id, to)) then balanceOf s to id + value
    else balanceOf s account id'.
Proof.
  unfold _mint. repeat case_bool_decide; try done. destruct (accepts to); [|done].
  intros [= <-]. unfold balanceOf at 1. simpl.
  rewrite lookup_insert. repeat case_decide; simplify_eq; done.
Qed.

Lemma events_mint accepts operator to id value s s' :
  _mint accepts operator to id value s = Some s' →
  events s' = TransferSingle operator 0 to id value :: events s.
Proof.
  unfold _mint. repeat case_bool_decide; try done. destruct (accepts to); [|done].
  by intros [= <-].
Qed.

Lemma exec_mintedOnce accepts s c : mintedOnce s → mintedOnce (exec accepts s c).
Proof.
  intros Hs. unfold exec. destruct c as [sender to tokenId appId nm|sender newURI]; simpl.
  - unfold mintAchievement. case_bool_decide as Hzero; [|done].
    destruct (_mint accepts sender to tokenId 1 s) as [s'|] eqn:Hmint; [|done]. simpl.
    intros account id. unfold balanceOf at 1. simpl. fold (balanceOf s' account id).
    rewrite (balanceOf_mint _ _ _ _ _ _ _ account id Hmint).
    unfold announced. simpl. rewrite (events_mint _ _ _ _ _ _ _ Hmint).
    rewrite filter_cons. simpl. rewrite filter_cons_False by done.
    fold (announced account id s). destruct (Hs account id) as [Hbal Hle].
    case_decide as Hsame.
    + simplify_eq. rewrite decide_True by (by rewrite bool_decide_true).
      cbn [length]. fold (announced to tokenId s). lia.
    + rewrite decide_False; [done|].
      rewrite bool_decide_eq_true. intros [-> ->]. done.
  - unfold setBaseURI. case_bool_decide; [|done]. simpl. exact Hs.
Qed.

Lemma execAll_mintedOnce accepts s calls :
  mintedOnce s → mintedOnce (execAll accepts s calls).
Proof.
  unfold execAll. revert s. induction calls as [|c calls IH]; intros s Hs; [done|].
  simpl. by apply IH, exec_mintedOnce.
Qed.

(** X22.  Minted once: after any sequence of calls to the contract's own
    functions since deployment (tokens not being transferred), the balance
    of every owner and token id equals the number of [AchievementMinted]
    events that name them, and is 0 or 1; and once it is 1, a further
    [mintAchievement] for that owner and token id reverts, whoever sends it
    and whatever appId and name it announces. *)
Theorem mint_once (accepts : Z → bool) (base : string) (initialOwner : Z)
    (calls : list Call) (account id : Z) :
  let s := execAll accepts (deployed base initialOwner) calls in
  balanceOf s account id = Z.of_nat (announced account id s) ∧
  (announced account id s ≤ 1)%nat ∧
  (balanceOf s account id = 1 →
   ∀ sender appId achievementApiId,
     mintAchievement accepts sender account id appId achievementApiId s = None).
Proof.
  intros s.
  assert (mintedOnce s) as Hs.
  { apply execAll_mintedOnce. intros a i. unfold balanceOf, announced. simpl.
    rewrite lookup_empty. simpl. split; [done|lia]. }
  destruct (Hs account id) as [Hbal Hle]. split; [done|]. split; [done|].
  intros Hone sender appId nm. unfold mintAchievement.
  rewrite bool_decide_false; [done|]. lia.
Qed.

(** X23.  From the page to the chain: when a click hands a transaction to
    the wallet and the connected account does not hold the token yet (and
    can receive it), the contract call succeeds, the account's balance of
    the token becomes 1, and the event the contract emits names the account,
    the page's appId and achievement name, and as token id the Keccak-256
    digest of exactly that appId and name.  The same click again then
    reverts. *)
Theorem page_mint_is_announced (accepts : Z → bool) (h : Hooks)
    (achievementApiName : string) (page : PageState) (args : WriteArgs) (s : State) :
  (handleMint h achievementApiName page).2 = Some args →
  balanceOf s (to args) (wa_tokenId args) = 0 →
  accepts (to args) = true →
  to args ≠ 0 →
  ∃ id s',
    appId h = Some id ∧
    mintAchievement accepts (to args) (to args) (wa_tokenId args) (wa_appId args)
      (achievementApiId args) s = Some s' ∧
    events s' =
      AchievementMinted (to args) (tokenIdSpec id achievementApiName) id
        achievementApiName ::
      TransferSingle (to args) 0 (to args) (tokenIdSpec id achievementApiName) 1 ::
      events s ∧
    balanceOf s' (to args) (tokenIdSpec id achievementApiName) = 1 ∧
    mintAchievement accepts (to args) (to args) (wa_tokenId args) (wa_appId args)
      (achievementApiId args) s' = None.
Proof.
  intros (id & account & Hid & _ & _ & _ & _ & _ & ->)%MintPageFacts.handleMint_submits.
  cbn [to wa_tokenId wa_appId achievementApiId]. intros Hzero Haccepts Hto.
  exists id. unfold mintAchievement at 1. rewrite bool_decide_true by done.
  unfold _mint. rewrite bool_decide_false by done. rewrite Hzero.
  rewrite bool_decide_false by (change (2 ^ 256) with
    115792089237316195423570985008687907853269984665640564039457584007913129639936; lia).
  rewrite Haccepts. cbn [mbind option_bind]. eexists. split; [done|]. split; [done|].
  split; [done|].
  assert (balanceOf
            (emit (AchievementMinted account (tokenIdSpec id achievementApiName) id
                     achievementApiName)
               {| balances := <[(tokenIdSpec id achievementApiName, account) := 0 + 1]>
                                (balances s);
                  baseMetadataURI := baseMetadataURI s; owner := owner s;
                  events := TransferSingle account 0 account
                              (tokenIdSpec id achievementApiName) 1 :: events s |})
            account (tokenIdSpec id achievementApiName) = 1) as Hone.
  { unfold balanceOf. simpl. by rewrite lookup_insert_eq. }
  split; [done|]. unfold mintAchievement. rewrite bool_decide_false; [done|].
  rewrite Hone. done.
Qed.

Lemma page_mint_is_announced_witness :
  ∃ id s',
    appId hooksReady = Some id ∧
    mintAchievement (λ _, true) 2748 2748 (tokenIdSpec 440 "TF_PLAY_GAME") 440
      "TF_PLAY_GAME" (deployed "http://localhost:3000/api/metadata/achievement/" 1) =
      Some s' ∧
    events s' =
      AchievementMinted 2748 (tokenIdSpec id "TF_PLAY_GAME") id "TF_PLAY_GAME" ::
      TransferSingle 2748 0 2748 (tokenIdSpec id "TF_PLAY_GAME") 1 ::
      events (deployed "http://localhost:3000/api/metadata/achievement/" 1) ∧
    balanceOf s' 2748 (tokenIdSpec id "TF_PLAY_GAME") = 1 ∧
    mintAchievement (λ _, true) 2748 2748 (tokenIdSpec 440 "TF_PLAY_GAME") 440
      "TF_PLAY_GAME" s' = None.
Proof.
  apply (page_mint_is_announced (λ _, true) hooksReady "TF_PLAY_GAME" freshPage
           {| to := 2748; wa_tokenId := tokenIdSpec 440 "TF_PLAY_GAME"; wa_appId := 440;
              achievementApiId := "TF_PLAY_GAME"; data := "0x"; wa_chainId := 84532 |}
           (deployed "http://localhost:3000/api/metadata/achievement/" 1)).
  - vm_compute. reflexivity.
  - vm_compute. reflexivity.
  - reflexivity.
  - simpl. lia.
Defined.

Lemma pretty_N_go_nonempty x s : s ≠ "" → pretty_N_go x s ≠ "".
Proof.
  revert s. induction (N.lt_wf_0 x) as [x _ IH]; intros s Hs.
  assert (x = 0 ∨ 0 < x)%N as [->|Hx] by lia.
  - by rewrite pretty_N_go_0.
  - rewrite pretty_N_go_step by done. apply IH; [by apply N.div_lt|done].
Qed.

Lemma pretty_N_nonempty (x : N) : pretty x ≠ "".
Proof.
  unfold pretty, pretty_N. case_decide as Hx; [done|].
  rewrite pretty_N_go_step by lia. by apply pretty_N_go_nonempty.
Qed.

(** X24.  Where a token's metadata resolves.  The contract's [uri] is the
    base URI followed by the decimal digits of the token id (and reverts
    while the base URI is empty).  The metadata route serves that last path
    segment: it answers 200 for the token ids 123456789 and 987654321 only,
    and 404 for every other token id. *)
Theorem token_uri_resolves_only_placeholders (s : State) (tokenId : Z) :
  0 ≤ tokenId →
  uri s tokenId =
    (if bool_decide (baseMetadataURI s = "") then None
     else Some (baseMetadataURI s +:+ tokenSegment tokenId)) ∧
  ((metadataGET (tokenSegment tokenId)).1 = 200 ↔
   tokenId = 123456789 ∨ tokenId = 987654321) ∧
  ((metadataGET (tokenSegment tokenId)).1 = 200 ∨
   metadataGET (tokenSegment tokenId) =
     (404, MetadataError "Metadata not found for this token ID")).
Proof.
  intros Hpos. split; [done|].
  assert (pretty 123456789%N = "123456789") as H1 by (vm_compute; reflexivity).
  assert (pretty 987654321%N = "987654321") as H2 by (vm_compute; reflexivity).
  unfold metadataGET, tokenSegment.
  pose proof (pretty_N_nonempty (Z.to_N tokenId)) as Hne.
  destruct (pretty (Z.to_N tokenId)) as [|c rest] eqn:Hp; [done|]. rewrite <-Hp.
  unfold getAchievementDetails.
  case_bool_decide as Ha.
  { split; [|by left]. split; [|done]. intros _. left.
    rewrite <-H1 in Ha. apply (inj pretty) in Ha. lia. }
  case_bool_decide as Hb.
  { split; [|by left]. split; [|done]. intros _. right.
    rewrite <-H2 in Hb. apply (inj pretty) in Hb. lia. }
  split; [|by right]. split; [done|].
  intros [->| ->]; [by destruct Ha|by destruct Hb].
Qed.

Lemma token_uri_resolves_only_placeholders_witness :
  uri (deployed "http://localhost:3000/api/metadata/achievement/" 1) 123456789 =
    (if bool_decide
          (baseMetadataURI (deployed "http://localhost:3000/api/metadata/achievement/" 1)
           = "")
     then None
     else Some (baseMetadataURI
                  (deployed "http://localhost:3000/api/metadata/achievement/" 1)
                +:+ tokenSegment 123456789)) ∧
  ((metadataGET (tokenSegment 123456789)).1 = 200 ↔
   123456789 = 123456789 ∨ 123456789 = 987654321) ∧
  ((metadataGET (tokenSegment 123456789)).1 = 200 ∨
   metadataGET (tokenSegment 123456789) =
     (404, MetadataError "Metadata not found for this token ID")).
Proof.
  apply (token_uri_resolves_only_placeholders
           (deployed "http://localhost:3000/api/metadata/achievement/" 1) 123456789).
  lia.
Defined.

Example placeholder_uri :
  uri (deployed "http://localhost:3000/api/metadata/achievement/" 1) 123456789 =
    Some "http://localhost:3000/api/metadata/achievement/123456789".
Proof. vm_compute. reflexivity. Qed.

End AchievementNFTFacts.

(** ** The achievements page *)

Module AchievementsPageFacts.
Import Aggregator Handler HandlerSpec HandlerSteps HandlerStepFacts Scenarios
  AchievementsPage.

(** X26.  What the page makes of the handler's answers.  For a page with an
    appId, the page lists the achievements when the handler answered 200
    with a non-empty list, shows "No achievements found" when it answered
    200 with an empty list, and in every other case shows the fixed text
    "Error fetching achievements.": the message the handler sent with a 400,
    404, 500 or passed-on status, such as Steam's reason for an unreadable
    profile, is never shown. *)
Theorem page_hides_handler_messages (env : Env) (w : World) (appId : Z) :
  appId ≠ 0 →
  (status (GET env w).1 = 200 ∧
   ∃ gameName steamId achievements,
     body (GET env w).1 = AchievementsBody gameName steamId achievements ∧
     page (Some appId) (Some (GET env w).1) =
       match achievements with
       | [] => NoAchievements
       | _ => ShowAchievements achievements
       end) ∨
  (status (GET env w).1 ≠ 200 ∧
   (∃ m, body (GET env w).1 = Message m) ∧
   page (Some appId) (Some (GET env w).1) = ShowMessage "Error fetching achievements.").
Proof.
  intros Hid. unfold page.
  assert (MintPage.truthyNumber (Some appId) = Some appId) as -> by by destruct appId.
  unfold fetchAchievements.
  destruct (GET_forms env w) as [[Hst (g & s & l & _ & Hb)]|[[Hst [m Hb]]|Herr]].
  - left. split; [done|]. exists g, s, l. split; [done|].
    rewrite Hst, Hb. simpl. by destruct l.
  - right. rewrite Hst. split; [done|]. split; [by exists m|]. done.
  - right. pose proof (errorResponse_not_200 _ _ Herr) as Hne.
    destruct Herr as [[m Hb] Hcases]. split; [done|]. split; [by exists m|].
    assert (ok (status (GET env w).1) = false) as ->; [|done].
    destruct Hcases as [->|[->|[(b & _ & Hok & _)|(b & _ & Hok & _)]]]; done.
Qed.

Lemma page_hides_handler_messages_witness :
  (status (GET envPrivate freshWorld).1 = 200 ∧
   ∃ gameName steamId achievements,
     body (GET envPrivate freshWorld).1 = AchievementsBody gameName steamId achievements ∧
     page (Some 440) (Some (GET envPrivate freshWorld).1) =
       match achievements with
       | [] => NoAchievements
       | _ => ShowAchievements achievements
       end) ∨
  (status (GET envPrivate freshWorld).1 ≠ 200 ∧
   (∃ m, body (GET envPrivate freshWorld).1 = Message m) ∧
   page (Some 440) (Some (GET envPrivate freshWorld).1) =
     ShowMessage "Error fetching achievements.").
Proof.
  apply (page_hides_handler_messages envPrivate freshWorld 440). lia.
Defined.

End AchievementsPageFacts.
